(** * Soma cube SAT encoding: a shallow embedding of [soma_sat_solver.py]

    The script builds, from seven polycube pieces, the list of their
    rotational orientations, the placements of every orientation inside the
    3x3x3 volume, and a CNF formula stating that every piece is placed
    exactly once and every cell is covered exactly once.

    Python integers are unbounded, so coordinates, variables and literals are
    [Z].  Lists and tuples of cells are [list]s.  A [dict] is an association
    list in insertion order (the order in which Python iterates it); a [set]
    of integers is a duplicate-free list.  The operations of the script that
    can raise are subscripts: of lists ([rot_piece_sorted[0]],
    [orientations[piece]]) and of dictionaries; they are modelled in a small
    error monad. *)

From Stdlib Require Import ZArith List Bool Lia String Ascii Permutation Sorted.
From Stdlib Require Import DecimalString FinFun.
Import ListNotations.
Local Open Scope Z_scope.

(** ** Exceptions *)

Inductive exn : Type := IndexError | KeyError.

Inductive result (A : Type) : Type :=
| Ok (value : A)
| Raise (e : exn).
Arguments Ok {A} value.
Arguments Raise {A} e.

Definition bind {A B : Type} (r : result A) (k : A -> result B) : result B :=
  match r with
  | Ok value => k value
  | Raise e => Raise e
  end.

Notation "x <- r ;; k" := (bind r (fun x => k))
  (at level 61, r at next level, right associativity).

(** [for x in xs: body], where the body updates the loop state or raises. *)
Fixpoint for_each {A S : Type} (xs : list A) (body : A -> S -> result S) (s : S)
  : result S :=
  match xs with
  | [] => Ok s
  | x :: rest => s' <- body x s ;; for_each rest body s'
  end.

(** A list comprehension [[f(x) for x in xs]] whose element expression can
    raise. *)
Fixpoint comprehension {A B : Type} (f : A -> result B) (xs : list A)
  : result (list B) :=
  match xs with
  | [] => Ok []
  | x :: rest => y <- f x ;; ys <- comprehension f rest ;; Ok (y :: ys)
  end.

(** ** Cells and pieces *)

Definition cell : Type := (Z * Z * Z)%type.
Definition cubelets : Type := list cell.

Module Pieces.
Definition z : cubelets := [(0, 0, 0); (1, 0, 0); (1, 1, 0); (2, 1, 0)].
Definition p : cubelets := [(0, 0, 0); (0, 1, 0); (0, 1, 1); (1, 1, 0)].
Definition t : cubelets := [(0, 0, 0); (0, 1, 0); (1, 1, 0); (0, 2, 0)].
Definition b : cubelets := [(0, 0, 0); (1, 0, 0); (0, 1, 0); (0, 1, 1)].
Definition a : cubelets := [(0, 0, 0); (0, 0, 1); (0, 1, 0); (1, 1, 0)].
Definition l : cubelets := [(0, 0, 0); (1, 0, 0); (2, 0, 0); (0, 1, 0)].
Definition v : cubelets := [(0, 0, 0); (1, 0, 0); (0, 1, 0)].
End Pieces.

Definition pieces : list cubelets :=
  [Pieces.z; Pieces.p; Pieces.t; Pieces.b; Pieces.a; Pieces.l; Pieces.v].

(** ** Geometry kernel *)

Definition rotate_x (cs : cubelets) : cubelets :=
  map (fun '(x, y, z) => (x, z, - y)) cs.
Definition rotate_y (cs : cubelets) : cubelets :=
  map (fun '(x, y, z) => (z, y, - x)) cs.
Definition rotate_z (cs : cubelets) : cubelets :=
  map (fun '(x, y, z) => (- y, x, z)) cs.
Definition identity (cs : cubelets) : cubelets := cs.

(** ** Tuple comparison and [sorted] *)

(** Python compares tuples lexicographically. *)
Definition cell_compare (c d : cell) : comparison :=
  let '(x1, y1, z1) := c in
  let '(x2, y2, z2) := d in
  match x1 ?= x2 with
  | Eq => match y1 ?= y2 with
          | Eq => z1 ?= z2
          | o => o
          end
  | o => o
  end.

Definition cell_leb (c d : cell) : bool :=
  match cell_compare c d with Gt => false | _ => true end.

Definition cell_eqb (c d : cell) : bool :=
  match cell_compare c d with Eq => true | _ => false end.

Fixpoint insert_sorted (c : cell) (cs : cubelets) : cubelets :=
  match cs with
  | [] => [c]
  | d :: rest => if cell_leb c d then c :: cs else d :: insert_sorted c rest
  end.

(** [sorted(cs)]: the ascending rearrangement of [cs].  Cells that compare
    equal are the same value, so the result does not depend on the sorting
    algorithm. *)
Fixpoint sorted (cs : cubelets) : cubelets :=
  match cs with
  | [] => []
  | c :: rest => insert_sorted c (sorted rest)
  end.

(** ** Orientation generator *)

(** An orientation is a tuple of cells; tuples compare element by element. *)
Definition orientation : Type := list cell.

Fixpoint orientation_eqb (o1 o2 : orientation) : bool :=
  match o1, o2 with
  | [], [] => true
  | c :: r1, d :: r2 => cell_eqb c d && orientation_eqb r1 r2
  | _, _ => false
  end.

(** [o in orientations] *)
Definition orientation_in (o : orientation) (os : list orientation) : bool :=
  existsb (orientation_eqb o) os.

Definition transforms : list (cubelets -> cubelets) :=
  [identity; rotate_x; rotate_y; rotate_z].

(** The body of the innermost loop of [generate_rotations], lines 35-40. *)
Definition collect (rot_piece : cubelets) (orientations : list orientation)
  : result (list orientation) :=
  let rot_piece_sorted := sorted rot_piece in
  match rot_piece_sorted with
  | [] => Raise IndexError
  | (min_x, min_y, min_z) :: _ =>
      let trans_rot_piece :=
        map (fun '(x, y, z) => (x - min_x, y - min_y, z - min_z))
            rot_piece_sorted in
      if orientation_in trans_rot_piece orientations
      then Ok orientations
      else Ok (orientations ++ [trans_rot_piece])
  end.

Definition generate_rotations (piece : cubelets) : result (list orientation) :=
  for_each transforms (fun f_a =>
    for_each transforms (fun f_b =>
      for_each transforms (fun f_c =>
        for_each transforms (fun f_d =>
          for_each transforms (fun f_e =>
            collect (f_a (f_b (f_c (f_d (f_e piece)))))))))) [].


(** The module-level list [orientations = [generate_rotations(piece) for piece
    in pieces]], for a given list of pieces. *)
Definition orientations_of (pieces : list cubelets)
  : result (list (list orientation)) :=
  comprehension generate_rotations pieces.

(** [range(3)], and [coordinates], the 27 cells of the volume. *)
Definition range3 : list Z := [0; 1; 2].

Definition coordinates : list cell :=
  flat_map (fun x => flat_map (fun y => map (fun z => (x, y, z)) range3) range3)
           range3.

(** ** Dictionaries and sets *)

Section Dict.
Context {K V : Type} (eqb : K -> K -> bool).

(** [d.get(k)] *)
Fixpoint dict_get (d : list (K * V)) (k : K) : option V :=
  match d with
  | [] => None
  | (k', v) :: rest => if eqb k k' then Some v else dict_get rest k
  end.

(** [k in d] *)
Definition dict_mem (d : list (K * V)) (k : K) : bool :=
  match dict_get d k with Some _ => true | None => false end.

(** [d[k] = v]: an existing key keeps its position, a new key goes last. *)
Fixpoint dict_set (d : list (K * V)) (k : K) (v : V) : list (K * V) :=
  match d with
  | [] => [(k, v)]
  | (k', v') :: rest =>
      if eqb k k' then (k', v) :: rest else (k', v') :: dict_set rest k v
  end.
End Dict.

(** [s.add(v)] on a set of integers.  The list keeps the elements in the
    order in which they were added; the order in which Python iterates a set
    is not specified, and no property below depends on it. *)
Definition set_add (v : Z) (s : list Z) : list Z :=
  if existsb (Z.eqb v) s then s else s ++ [v].

(** ** Placement enumerator *)

Definition placement_key : Type := (nat * orientation)%type.

Definition key_eqb (k1 k2 : placement_key) : bool :=
  Nat.eqb (fst k1) (fst k2) && orientation_eqb (snd k1) (snd k2).

Record tables : Type := mkTables {
  placements : list (placement_key * Z);
  placements_by_piece : list (nat * list Z);
  placements_by_cell : list (cell * list Z);
  var_names : list (Z * string);
  var_counter : Z
}.

(** [{i: set() for i in range(7)}] and the other initial values,
    lines 66-70. *)
Definition initial_tables : tables :=
  mkTables [] (map (fun i => (i, [])) (seq 0 7)) [] [] 1.

(** [all(0 <= cell[0] < 3 and 0 <= cell[1] < 3 and 0 <= cell[2] < 3 ...)] *)
Definition in_bounds (c : cell) : bool :=
  let '(x, y, z) := c in
  (0 <=? x) && (x <? 3) && ((0 <=? y) && (y <? 3)) && ((0 <=? z) && (z <? 3)).

(** The decimal digits of an integer, as [f"{n}"] prints them. *)
Definition decimal (n : Z) : string := NilZero.string_of_int (Z.to_int n).

(** [f"P_{{{ax}{ay}{az}{piece+1}}}"] *)
Definition var_name (anchor : cell) (piece : nat) : string :=
  let '(x, y, z) := anchor in
  ("P_{" ++ decimal (x + 1) ++ decimal (y + 1) ++ decimal (z + 1)
         ++ decimal (Z.of_nat piece + 1) ++ "}")%string.

(** [placements_by_piece[piece].add(var)]; the key is one of [range(7)]. *)
Definition add_by_piece (piece : nat) (var : Z) (d : list (nat * list Z))
  : result (list (nat * list Z)) :=
  match dict_get Nat.eqb d piece with
  | Some s => Ok (dict_set Nat.eqb d piece (set_add var s))
  | None => Raise KeyError
  end.

(** [placements_by_cell[cell].add(var)] on a [defaultdict(set)]: a missing
    key is first bound to the empty set. *)
Definition add_by_cell (var : Z) (d : list (cell * list Z)) (c : cell)
  : list (cell * list Z) :=
  match dict_get cell_eqb d c with
  | Some s => dict_set cell_eqb d c (set_add var s)
  | None => dict_set cell_eqb d c (set_add var [])
  end.

(** The body of the innermost loop of [generate_placements], lines 76-93. *)
Definition place (anchor : cell) (piece : nat) (orient : orientation)
    (base : cell) (st : tables) : result tables :=
  let '(a0, a1, a2) := anchor in
  let '(b0, b1, b2) := base in
  let adjusted :=
    sorted (map (fun '(o0, o1, o2) => (a0 + o0 - b0, a1 + o1 - b1, a2 + o2 - b2))
                orient) in
  if forallb in_bounds adjusted then
    let placement_key := (piece, adjusted) in
    let st :=
      if dict_mem key_eqb (placements st) placement_key then st
      else mkTables
             (dict_set key_eqb (placements st) placement_key (var_counter st))
             (placements_by_piece st)
             (placements_by_cell st)
             (dict_set Z.eqb (var_names st) (var_counter st)
                       (var_name anchor piece))
             (var_counter st + 1) in
    match dict_get key_eqb (placements st) placement_key with
    | None => Raise KeyError
    | Some var =>
        by_piece <- add_by_piece piece var (placements_by_piece st) ;;
        Ok (mkTables (placements st) by_piece
                     (fold_left (add_by_cell var) adjusted (placements_by_cell st))
                     (var_names st) (var_counter st))
    end
  else Ok st.

(** [orientations[piece]] *)
Definition subscript {A : Type} (xs : list A) (i : nat) : result A :=
  match nth_error xs i with
  | Some x => Ok x
  | None => Raise IndexError
  end.

Definition generate_placements (orientations : list (list orientation))
  : result tables :=
  for_each coordinates (fun anchor =>
    for_each (seq 0 7) (fun piece st =>
      os <- subscript orientations piece ;;
      for_each os (fun orient =>
        for_each orient (fun base => place anchor piece orient base)) st))
    initial_tables.

(** ** Exact-cover CNF encoder *)

Definition clause : Type := list Z.

(** [variables[i]], for an index within range. *)
Definition var_at (variables : list Z) (i : nat) : Z := nth i variables 0.

Definition exactly_one (variables : list Z) : list clause :=
  match variables with
  | [] => []
  | _ :: _ =>
      let n := List.length variables in
      [variables] ++
      flat_map (fun i =>
                  map (fun j => [- var_at variables i; - var_at variables j])
                      (seq (i + 1)%nat ((n - (i + 1))%nat)))
               (seq 0 n)
  end.

(** The two loops of [generate_sat_instance], lines 116-124, over the tables
    that [generate_placements] returned.  Iterating a dictionary and
    subscripting it with the key is iterating its entries. *)
Definition encode (by_piece : list (nat * list Z)) (by_cell : list (cell * list Z))
  : list clause :=
  let clauses := [] in
  let clauses :=
    fold_left (fun clauses '(piece, piece_vars) =>
                 clauses ++ exactly_one piece_vars) by_piece clauses in
  fold_left (fun clauses '(cell, cell_vars) =>
               clauses ++ exactly_one cell_vars) by_cell clauses.

Definition formula : Type :=
  (list (placement_key * Z) * list clause * Z * list (Z * string))%type.

Definition generate_sat_instance (orientations : list (list orientation))
  : result formula :=
  st <- generate_placements orientations ;;
  Ok (placements st,
      encode (placements_by_piece st) (placements_by_cell st),
      var_counter st - 1,
      var_names st).

(** The script up to line 128, for a given list of pieces. *)
Definition soma (pieces : list cubelets) : result formula :=
  orientations <- orientations_of pieces ;;
  generate_sat_instance orientations.

(** ** The run on the seven pieces *)

(** The value of the module-level [orientations], and the tables that
    [generate_placements()] builds from it; the lemmas [orientations_run]
    and [placements_run] below show that the script computes these values. *)
Definition value_or {A : Type} (default : A) (r : result A) : A :=
  match r with Ok value => value | Raise _ => default end.

Definition soma_orientations : list (list orientation) :=
  Eval vm_compute in value_or [] (orientations_of pieces).

Definition soma_tables : tables :=
  Eval vm_compute in
    value_or initial_tables (generate_placements soma_orientations).

Definition soma_clauses : list clause :=
  encode (placements_by_piece soma_tables) (placements_by_cell soma_tables).

Definition soma_num_vars : Z := var_counter soma_tables - 1.

(** ** A run with a piece that does not fit *)

(** Four cubes in a row: longer than the edge of the volume. *)
Definition straight : cubelets := [(0, 0, 0); (1, 0, 0); (2, 0, 0); (3, 0, 0)].

(** The seven pieces with the first one replaced by [straight]. *)
Definition unfit_pieces : list cubelets :=
  [straight; Pieces.p; Pieces.t; Pieces.b; Pieces.a; Pieces.l; Pieces.v].

Definition unfit_orientations : list (list orientation) :=
  Eval vm_compute in value_or [] (orientations_of unfit_pieces).

Definition unfit_tables : tables :=
  Eval vm_compute in
    value_or initial_tables (generate_placements unfit_orientations).

(** ** Vocabulary of the specification *)

(** *** The rotation group of the cube *)

(** A 3x3 integer matrix, as its three rows. *)
Definition matrix : Type := (cell * cell * cell)%type.

Definition apply (m : matrix) (c : cell) : cell :=
  let '((a11, a12, a13), (a21, a22, a23), (a31, a32, a33)) := m in
  let '(x, y, z) := c in
  (a11 * x + a12 * y + a13 * z,
   a21 * x + a22 * y + a23 * z,
   a31 * x + a32 * y + a33 * z).

Definition transpose (m : matrix) : matrix :=
  let '((a11, a12, a13), (a21, a22, a23), (a31, a32, a33)) := m in
  ((a11, a21, a31), (a12, a22, a32), (a13, a23, a33)).

(** Matrix product: entry (i, j) is row i of [m] times column j of [n]. *)
Definition mat_mul (m n : matrix) : matrix :=
  let '(r1, r2, r3) := m in
  let nt := transpose n in
  let row r := (let '(c1, c2, c3) := nt in
                let dot (u w : cell) :=
                  let '(u1, u2, u3) := u in
                  let '(w1, w2, w3) := w in u1 * w1 + u2 * w2 + u3 * w3 in
                (dot r c1, dot r c2, dot r c3)) in
  (row r1, row r2, row r3).

Definition det (m : matrix) : Z :=
  let '((a11, a12, a13), (a21, a22, a23), (a31, a32, a33)) := m in
  a11 * (a22 * a33 - a23 * a32)
  - a12 * (a21 * a33 - a23 * a31)
  + a13 * (a21 * a32 - a22 * a31).

Definition mat_id : matrix := ((1, 0, 0), (0, 1, 0), (0, 0, 1)).

Definition mat_eqb (m n : matrix) : bool :=
  let '(r1, r2, r3) := m in
  let '(s1, s2, s3) := n in
  cell_eqb r1 s1 && cell_eqb r2 s2 && cell_eqb r3 s3.

(** A rotation of the cube lattice: an orthogonal integer matrix of
    determinant 1. *)
Definition is_rotation (m : matrix) : bool :=
  mat_eqb (mat_mul m (transpose m)) mat_id && (det m =? 1).

Definition unit_entries : list Z := [-1; 0; 1].

Definition unit_rows : list cell :=
  flat_map (fun x => flat_map (fun y => map (fun z => (x, y, z)) unit_entries)
                              unit_entries) unit_entries.

Definition unit_matrices : list matrix :=
  flat_map (fun r1 => flat_map (fun r2 => map (fun r3 => (r1, r2, r3)) unit_rows)
                               unit_rows) unit_rows.

(** The rotation group, enumerated: its entries are forced into {-1, 0, 1}
    by orthogonality (lemma [rotation_group_complete]). *)
Definition rotation_group : list matrix := filter is_rotation unit_matrices.

(** The matrices of the four transforms of the geometry kernel. *)
Definition mat_x : matrix := ((1, 0, 0), (0, 0, 1), (0, -1, 0)).
Definition mat_y : matrix := ((0, 0, 1), (0, 1, 0), (-1, 0, 0)).
Definition mat_z : matrix := ((0, -1, 0), (1, 0, 0), (0, 0, 1)).

Definition transform_matrices : list matrix := [mat_id; mat_x; mat_y; mat_z].

(** All products [a * b * c * d * e] of five generators, in the order in
    which the five nested loops of [generate_rotations] run through them. *)
Definition words5 {A : Type} (op : A -> A -> A) (gens : list A) : list A :=
  flat_map (fun a =>
    flat_map (fun b =>
      flat_map (fun c =>
        flat_map (fun d =>
          map (fun e => op a (op b (op c (op d e)))) gens) gens) gens) gens) gens.

Definition compose (f g : cubelets -> cubelets) : cubelets -> cubelets :=
  fun cs => f (g cs).

(** *** Canonical forms *)

(** What lines 35-38 compute from a rotated piece: sort, then translate the
    first cell of the sorted list to the origin. *)
Definition canonical (rot_piece : cubelets) : orientation :=
  match sorted rot_piece with
  | [] => []
  | (min_x, min_y, min_z) :: _ =>
      map (fun '(x, y, z) => (x - min_x, y - min_y, z - min_z))
          (sorted rot_piece)
  end.

(** Lines 39-40. *)
Definition add_new (o : orientation) (os : list orientation) : list orientation :=
  if orientation_in o os then os else os ++ [o].

Definition proj_x (c : cell) : Z := fst (fst c).
Definition proj_y (c : cell) : Z := snd (fst c).
Definition proj_z (c : cell) : Z := snd c.

(** The minimum of one coordinate over the cells of a non-empty list. *)
Definition axis_min (proj : cell -> Z) (cs : list cell) : option Z :=
  match cs with
  | [] => None
  | c :: rest => Some (fold_left (fun m d => Z.min m (proj d)) rest (proj c))
  end.

(** Two tuples of cells hold the same cells. *)
Definition same_cells (o1 o2 : orientation) : Prop :=
  forall c, In c o1 <-> In c o2.

Definition in_volume (c : cell) : Prop :=
  let '(x, y, z) := c in 0 <= x < 3 /\ 0 <= y < 3 /\ 0 <= z < 3.

(** *** Assignments and clause evaluation *)

Definition assignment : Type := Z -> bool.

(** A positive literal is the variable, a negative one its negation. *)
Definition eval_literal (sigma : assignment) (lit : Z) : bool :=
  if 0 <? lit then sigma lit else negb (sigma (- lit)).

Definition eval_clause (sigma : assignment) (c : clause) : bool :=
  existsb (eval_literal sigma) c.

(** The placements whose variable the assignment makes true. *)
Definition true_placements (sigma : assignment) (pl : list (placement_key * Z))
  : list (placement_key * Z) :=
  filter (fun e => sigma (snd e)) pl.

Definition of_piece (piece : nat) (e : placement_key * Z) : bool :=
  Nat.eqb (fst (fst e)) piece.

Definition covers (c : cell) (e : placement_key * Z) : bool :=
  existsb (cell_eqb c) (snd (fst e)).


(** The order of tuples, as a proposition. *)
Definition cell_le (c d : cell) : Prop := cell_leb c d = true.

(** No two entries of a list are equal, as a check. *)
Fixpoint distinct {A : Type} (eqb : A -> A -> bool) (xs : list A) : bool :=
  match xs with
  | [] => true
  | x :: rest => negb (existsb (eqb x) rest) && distinct eqb rest
  end.

(** The translation applied on line 37. *)
Definition translate (m : cell) (cs : list cell) : list cell :=
  let '(min_x, min_y, min_z) := m in
  map (fun '(x, y, z) => (x - min_x, y - min_y, z - min_z)) cs.

(** The canonical forms of the images of a piece under a list of maps,
    collected without repetition in order of first appearance. *)
Definition collect_all (fs : list (cubelets -> cubelets)) (piece : cubelets)
  : list orientation :=
  fold_left (fun os f => add_new (canonical (f piece)) os) fs [].

(** A transform acts cell by cell as a matrix. *)
Definition acts_as (f : cubelets -> cubelets) (m : matrix) : Prop :=
  forall cs, f cs = map (apply m) cs.

(** *** Vocabulary for the placement tables *)

(** The set bound to a key, empty when the key is missing. *)
Definition dict_find {K : Type} (eqb : K -> K -> bool) (d : list (K * list Z))
    (k : K) : list Z :=
  match dict_get eqb d k with Some s => s | None => [] end.

Definition piece_vars (st : tables) (piece : nat) : list Z :=
  dict_find Nat.eqb (placements_by_piece st) piece.

Definition cell_vars (st : tables) (c : cell) : list Z :=
  dict_find cell_eqb (placements_by_cell st) c.

(** The tuple [adjusted] of lines 76-81. *)
Definition adjusted_cells (anchor : cell) (orient : orientation) (base : cell)
  : orientation :=
  let '(a0, a1, a2) := anchor in
  let '(b0, b1, b2) := base in
  sorted (map (fun '(o0, o1, o2) => (a0 + o0 - b0, a1 + o1 - b1, a2 + o2 - b2))
              orient).

(** The iterations of the innermost loop of [generate_placements], in the
    order in which the four nested loops reach them. *)
Definition iterations (orientations : list (list orientation))
  : list (cell * nat * orientation * cell) :=
  flat_map (fun anchor =>
    flat_map (fun piece =>
      flat_map (fun orient =>
        map (fun base => (anchor, piece, orient, base)) orient)
        (nth piece orientations []))
      (seq 0 7))
    coordinates.

Definition place_iteration (it : cell * nat * orientation * cell) (st : tables)
  : result tables :=
  let '(anchor, piece, orient, base) := it in place anchor piece orient base st.

(** What holds between two iterations of the dictionary of placements and
    the variable counter... *)
Record placements_ok (pl : list (placement_key * Z)) (counter : Z) : Prop := {
  ok_counter : counter = Z.of_nat (List.length pl) + 1;
  ok_values : map snd pl = map Z.of_nat (seq 1 (List.length pl));
  ok_keys : NoDup (map fst pl);
  ok_bounds :
    forall k v, In (k, v) pl -> (fst k < 7)%nat /\ Forall in_volume (snd k)
}.

(** ... and of the two indexes, by piece and by cell. *)
Record groups_ok (pl : list (placement_key * Z))
    (by_piece : list (nat * list Z)) (by_cell : list (cell * list Z)) : Prop := {
  ok_piece_keys : map fst by_piece = seq 0 7;
  ok_piece_nodup : forall p, NoDup (dict_find Nat.eqb by_piece p);
  ok_piece_vars :
    forall p v, In v (dict_find Nat.eqb by_piece p) <->
                exists adj, In ((p, adj), v) pl;
  ok_cell_keys : NoDup (map fst by_cell);
  ok_cell_nonempty : forall c vars, In (c, vars) by_cell -> vars <> [];
  ok_cell_nodup : forall c, NoDup (dict_find cell_eqb by_cell c);
  ok_cell_vars :
    forall c v, In v (dict_find cell_eqb by_cell c) <->
                exists k, In (k, v) pl /\ In c (snd k)
}.

Definition invariant (st : tables) : Prop :=
  placements_ok (placements st) (var_counter st) /\
  groups_ok (placements st) (placements_by_piece st) (placements_by_cell st).

(** The index pairs [(i, j)], [i < j < k], in the order in which the two
    nested loops of [exactly_one] visit them. *)
Definition index_pairs (k : nat) : list (nat * nat) :=
  flat_map (fun i => map (pair i) (seq (i + 1) (k - (i + 1)))) (seq 0 k).

Definition negated_pair (variables : list Z) (ij : nat * nat) : clause :=
  [- var_at variables (fst ij); - var_at variables (snd ij)].

(** *** Two assignments for the run on the seven pieces *)

(** Seven variables, one per piece, whose placements tile the cube. *)
Definition solution : list Z := [29; 56; 469; 127; 234; 513; 629].

Definition solution_assignment : assignment :=
  fun v => existsb (Z.eqb v) solution.

(** The assignment that places no piece at all. *)
Definition no_placement : assignment := fun _ => false.

(** ** Further vocabulary *)

(** The number of clauses that [exactly_one] returns for [k] variables. *)
Definition group_clause_count (k : nat) : nat :=
  match k with
  | O => 0
  | S _ => 1 + k * (k - 1) / 2
  end.

(** Exactly one variable of a group is true. *)
Definition one_true (sigma : assignment) (vars : list Z) : Prop :=
  exists v, In v vars /\ sigma v = true /\
            forall w, In w vars -> sigma w = true -> w = v.

(** An assignment satisfies a list of clauses. *)
Definition satisfies (sigma : assignment) (clauses : list clause) : Prop :=
  forall cl, In cl clauses -> eval_clause sigma cl = true.

(** A list of cells moved by the vector [t]. *)
Definition shift (t : cell) (cs : list cell) : list cell :=
  let '(t0, t1, t2) := t in
  map (fun '(x, y, z) => (x + t0, y + t1, z + t2)) cs.

(** The number of true placements that a test selects. *)
Definition count_true (sigma : assignment) (sel : placement_key * Z -> bool)
    (st : tables) : nat :=
  List.length (filter sel (true_placements sigma (placements st))).

(** The iterations of the three inner loops of [generate_placements] for one
    anchor. *)
Definition iterations_at (orientations : list (list orientation)) (anchor : cell)
  : list (cell * nat * orientation * cell) :=
  flat_map (fun piece =>
    flat_map (fun orient =>
      map (fun base => (anchor, piece, orient, base)) orient)
      (nth piece orientations []))
    (seq 0 7).

(** Every variable has one name, and the name is built from the first cell
    of the sorted cells of its placement and from the piece number. *)
Definition names_ok (st : tables) : Prop :=
  map fst (var_names st) = map snd (placements st) /\
  forall piece adj v,
    In ((piece, adj), v) (placements st) ->
    adj <> [] /\ StronglySorted cell_le adj /\
    dict_get Z.eqb (var_names st) v
    = Some (var_name (hd (0, 0, 0) adj) piece).

(** The keys of the translated orientations that fit the volume, for one
    anchor, are in [placements]. *)
Definition anchor_done (orientations : list (list orientation)) (st : tables)
    (anchor : cell) : Prop :=
  forall piece orient base,
    (piece < 7)%nat -> In orient (nth piece orientations []) -> In base orient ->
    forallb in_bounds (adjusted_cells anchor orient base) = true ->
    exists v, In ((piece, adjusted_cells anchor orient base), v) (placements st).

(** Scalar product and signed volume of integer vectors. *)
Definition dot (c d : cell) : Z :=
  proj_x c * proj_x d + proj_y c * proj_y d + proj_z c * proj_z d.

Definition signed_volume (c d e : cell) : Z :=
  det (c, d, e).

(** ** Reconstruction of a solution, lines 206-221 *)

Definition colors : list string :=
  ["blue"; "red"; "purple"; "brown"; "yellow"; "orange"; "green"]%string.

(** [var in chosen_model] *)
Definition in_model (chosen_model : list Z) (var : Z) : bool :=
  existsb (Z.eqb var) chosen_model.

(** [for cell in adjusted: solution_cells[cell] = colors[piece]] *)
Definition paint_cells (piece : nat) (adjusted : orientation)
    (solution_cells : list (cell * string)) : result (list (cell * string)) :=
  for_each adjusted (fun c solution_cells =>
    color <- subscript colors piece ;;
    Ok (dict_set cell_eqb solution_cells c color)) solution_cells.

(** The loop of lines 214-217 over [placements.items()]. *)
Definition solution_cells (placements : list (placement_key * Z))
    (chosen_model : list Z) : result (list (cell * string)) :=
  for_each placements (fun entry solution_cells =>
    let '((piece, adjusted), var) := entry in
    if in_model chosen_model var
    then paint_cells piece adjusted solution_cells
    else Ok solution_cells) [].

(** Lines 220-221: one tuple per key of [solution_cells]. *)
Definition solution_list (placements : list (placement_key * Z))
    (chosen_model : list Z) : result (list (Z * Z * Z * string)) :=
  cells <- solution_cells placements chosen_model ;;
  Ok (map (fun '((x, y, z), color) => (x, y, z, color)) cells).

(** Lines 207-211: the script exits when no model was found ([None]), and
    otherwise reconstructs the first model. *)
Definition reconstruct (placements : list (placement_key * Z))
    (models : list (list Z)) : option (result (list (Z * Z * Z * string))) :=
  match models with
  | [] => None
  | chosen_model :: _ => Some (solution_list placements chosen_model)
  end.

(** The piece of the last selected placement that covers a cell, in the
    order of the dictionary. *)
Definition last_cover (chosen_model : list Z) (c : cell)
    (pl : list (placement_key * Z)) : option nat :=
  fold_left (fun found e =>
               if in_model chosen_model (snd e) && covers c e
               then Some (fst (fst e)) else found) pl None.

Definition color_of (found : option nat) : option string :=
  match found with
  | Some piece => nth_error colors piece
  | None => None
  end.

(** ** Blocking clauses, line 197 *)

(** [[-lit for lit in model]] *)
Definition blocking_clause (model : list Z) : clause := map Z.opp model.

(** ** The formula excerpt, lines 131-172 *)

(** [sorted] on a list of lengths. *)
Fixpoint insert_nat (n : nat) (ns : list nat) : list nat :=
  match ns with
  | [] => [n]
  | m :: rest => if Nat.leb n m then n :: ns else m :: insert_nat n rest
  end.

Fixpoint sorted_nat (ns : list nat) : list nat :=
  match ns with
  | [] => []
  | n :: rest => insert_nat n (sorted_nat rest)
  end.

(** [set(len(clause) for clause in clauses)], as a duplicate-free list. *)
Definition width_set (clauses : list clause) : list nat :=
  fold_left (fun s cl =>
               if existsb (Nat.eqb (List.length cl)) s then s
               else s ++ [List.length cl]) clauses [].

(** Lines 146-151: the literals of a clause without repetitions. *)
Definition unique_literals (cl : clause) : list Z :=
  fst (fold_left (fun state lit =>
                    let '(unique_clause, seen) := state in
                    if existsb (Z.eqb lit) seen then (unique_clause, seen)
                    else (unique_clause ++ [lit], set_add lit seen))
                 cl ([], [])).

(** [var_names.get(var, f"P_{{{var}}}")] *)
Definition name_or_default (names : list (Z * string)) (var : Z) : string :=
  match dict_get Z.eqb names var with
  | Some name => name
  | None => ("P_{" ++ decimal var ++ "}")%string
  end.

(** Lines 155-158. *)
Definition literal_string (names : list (Z * string)) (lit : Z) : string :=
  if 0 <? lit then name_or_default names lit
  else ("\neg " ++ name_or_default names (- lit))%string.

(** [sep.join(strings)] *)
Fixpoint join (sep : string) (strings : list string) : string :=
  match strings with
  | [] => ""%string
  | [s] => s
  | s :: rest => (s ++ sep ++ join sep rest)%string
  end.

(** Lines 146-160: the text of one clause. *)
Definition clause_string (names : list (Z * string)) (cl : clause) : string :=
  ("(" ++ join " \vee " (map (literal_string names) (unique_literals cl)) ++ ")")%string.

(** The loop of lines 142-161 that fills [printed]. *)
Definition printed_clauses (names : list (Z * string)) (smallest_widths : list nat)
    (clauses : list clause) : list (nat * string) :=
  fold_left (fun printed cl =>
               let original_length := List.length cl in
               if existsb (Nat.eqb original_length) smallest_widths
                  && negb (dict_mem Nat.eqb printed original_length)
               then dict_set Nat.eqb printed original_length (clause_string names cl)
               else printed) clauses [].

(** [printed[k]] *)
Definition printed_at (printed : list (nat * string)) (k : nat) : result string :=
  match dict_get Nat.eqb printed k with
  | Some s => Ok s
  | None => Raise KeyError
  end.

Definition newline : string := String (ascii_of_nat 10) EmptyString.

(** The strings handed to [print] on lines 164-172, in order. *)
Definition output_lines (clause_lines : list string) : list string :=
  let formula_str := (join " \wedge " clause_lines ++ " \wedge \ldots")%string in
  ["Puzzle: Find an assignment of truth values (0's and 1's) to all the $P_{xyzi}$ variables such that the entire formula $\Phi$ evaluates to true (1)."%string;
   (newline ++ "$$")%string;
   "\begin{aligned}"%string;
   ("\Phi= & " ++ formula_str)%string;
   "\end{aligned}"%string;
   ("$$" ++ newline)%string].

(** [print_formula_portion]: what it prints. *)
Definition print_formula_portion (clauses : list clause) (names : list (Z * string))
  : result (list string) :=
  let clause_widths := sorted_nat (width_set clauses) in
  let smallest_widths := firstn 3 clause_widths in
  let printed := printed_clauses names smallest_widths clauses in
  clause_lines <- comprehension (printed_at printed)
                                (sorted_nat (map fst printed)) ;;
  Ok (output_lines clause_lines).

(** The first clause of a given length. *)
Definition first_of_width (w : nat) (clauses : list clause) : option clause :=
  find (fun cl => Nat.eqb (List.length cl) w) clauses.

Definition clause_text (names : list (Z * string)) (found : option clause) : string :=
  match found with
  | Some cl => clause_string names cl
  | None => ""%string
  end.

(** ** Model counting, lines 178-201 *)

(** A model, as the solver returns it, is a list of literals; a clause
    holds in it when one of its literals is in the list. *)
Definition model_satisfies (model : list Z) (cl : clause) : bool :=
  existsb (fun lit => existsb (Z.eqb lit) model) cl.

Definition carriage_return : string := String (ascii_of_nat 13) EmptyString.

(** [f"\rSolutions found so far: {solution_count}"], line 194 *)
Definition progress_line (solution_count : Z) : string :=
  (carriage_return ++ "Solutions found so far: " ++ decimal solution_count)%string.

Section Enumeration.
(** The external solver: [solve clauses] is the model that [get_model()]
    gives after [solve()] succeeded on the clauses added so far, and [None]
    when [solve()] fails. *)
Variable solve : list clause -> option (list Z).

(** The [while] loop, with a bound on the number of passes; the state is
    the solver's clauses, [solution_count], [models] and the strings written
    to the standard output, in order: [sys.stdout.write] on line 194 and
    [print()] on line 199, which writes a newline. *)
Fixpoint count_loop (fuel : nat) (solver : list clause) (solution_count : Z)
    (models : list (list Z)) (out : list string)
  : option (Z * list (list Z) * list string) :=
  match fuel with
  | O => None
  | S fuel' =>
      match solve solver with
      | None => Some (solution_count, models, out ++ [newline])
      | Some model =>
          let solution_count := solution_count + 1 in
          count_loop fuel'
            (solver ++ [blocking_clause model])
            solution_count
            (models ++ [model])
            (out ++ [progress_line solution_count])
      end
  end.

Definition count_solutions (fuel : nat) (clauses : list clause) (num_vars : Z)
  : option (Z * list (list Z) * list string) :=
  count_loop fuel clauses 0 [] [].
End Enumeration.

(** A model over the variables 1 .. n gives each of them one sign, in
    order. *)
Definition complete_model (n : nat) (model : list Z) : Prop :=
  map Z.abs model = map Z.of_nat (seq 1 n).

Fixpoint all_models (n : nat) : list (list Z) :=
  match n with
  | O => [[]]
  | S k =>
      flat_map (fun m => [m ++ [Z.of_nat n]; m ++ [- Z.of_nat n]]) (all_models k)
  end.

(** A solver that tries every model in turn. *)
Definition brute_force (n : nat) (clauses : list clause) : option (list Z) :=
  find (fun m => forallb (model_satisfies m) clauses) (all_models n).

(** * Proofs *)

(** ** The error monad and loops *)

Lemma for_each_app {A S : Type} (xs ys : list A) (body : A -> S -> result S) s :
  for_each (xs ++ ys) body s = s' <- for_each xs body s ;; for_each ys body s'.
Proof.
  revert s. induction xs as [|x xs IH]; intros s; simpl; [reflexivity|].
  destruct (body x s); simpl; auto.
Qed.

Lemma for_each_ext {A S : Type} (xs : list A) (f g : A -> S -> result S) s :
  (forall x s, In x xs -> f x s = g x s) ->
  for_each xs f s = for_each xs g s.
Proof.
  revert s. induction xs as [|x xs IH]; intros s H; simpl; [reflexivity|].
  rewrite (H x s) by (left; reflexivity).
  destruct (g x s); simpl; [|reflexivity].
  apply IH. intros; apply H; right; assumption.
Qed.

Lemma for_each_flat_map {A B S : Type} (f : A -> list B) (xs : list A)
    (body : B -> S -> result S) s :
  for_each (flat_map f xs) body s = for_each xs (fun x => for_each (f x) body) s.
Proof.
  revert s. induction xs as [|x xs IH]; intros s; simpl; [reflexivity|].
  rewrite for_each_app. destruct (for_each (f x) body s); simpl; auto.
Qed.

Lemma for_each_map {A B S : Type} (f : A -> B) (xs : list A)
    (body : B -> S -> result S) s :
  for_each (map f xs) body s = for_each xs (fun x => body (f x)) s.
Proof.
  revert s. induction xs as [|x xs IH]; intros s; simpl; [reflexivity|].
  destruct (body (f x) s); simpl; auto.
Qed.

(** A loop whose body never raises is a left fold. *)
Lemma for_each_pure {A S : Type} (xs : list A) (body : A -> S -> result S)
    (step : S -> A -> S) s :
  (forall x s, In x xs -> body x s = Ok (step s x)) ->
  for_each xs body s = Ok (fold_left step xs s).
Proof.
  revert s. induction xs as [|x xs IH]; intros s H; simpl; [reflexivity|].
  rewrite H by (left; reflexivity). simpl.
  apply IH. intros; apply H; right; assumption.
Qed.

(** ** Tuple comparison *)

Lemma cell_compare_eq (c d : cell) : cell_compare c d = Eq <-> c = d.
Proof.
  destruct c as [[x1 y1] z1], d as [[x2 y2] z2]. unfold cell_compare.
  destruct (Z.compare_spec x1 x2); [|split; [discriminate|intros [= ? ? ?]; lia]..].
  destruct (Z.compare_spec y1 y2); [|split; [discriminate|intros [= ? ? ?]; lia]..].
  destruct (Z.compare_spec z1 z2); [|split; [discriminate|intros [= ? ? ?]; lia]..].
  subst. split; reflexivity.
Qed.

Lemma cell_eqb_eq (c d : cell) : cell_eqb c d = true <-> c = d.
Proof.
  unfold cell_eqb. rewrite <- cell_compare_eq.
  destruct (cell_compare c d); split; congruence.
Qed.

Lemma cell_eqb_refl (c : cell) : cell_eqb c c = true.
Proof. apply cell_eqb_eq. reflexivity. Qed.

Lemma cell_eqb_neq (c d : cell) : cell_eqb c d = false <-> c <> d.
Proof.
  rewrite <- cell_eqb_eq. destruct (cell_eqb c d); split; congruence.
Qed.

Lemma orientation_eqb_eq (o1 o2 : orientation) :
  orientation_eqb o1 o2 = true <-> o1 = o2.
Proof.
  revert o2. induction o1 as [|c r1 IH]; intros [|d r2]; simpl;
    try (split; [discriminate|discriminate]); try (split; reflexivity).
  rewrite andb_true_iff, cell_eqb_eq, IH. split.
  - intros [-> ->]. reflexivity.
  - intros [= -> ->]. split; reflexivity.
Qed.

Lemma orientation_in_In (o : orientation) (os : list orientation) :
  orientation_in o os = true <-> In o os.
Proof.
  unfold orientation_in. rewrite existsb_exists. split.
  - intros [o' [Hin Heq]]. apply orientation_eqb_eq in Heq. subst. exact Hin.
  - intros Hin. exists o. split; [exact Hin|]. apply orientation_eqb_eq. reflexivity.
Qed.

Lemma key_eqb_eq (k1 k2 : placement_key) : key_eqb k1 k2 = true <-> k1 = k2.
Proof.
  destruct k1 as [p1 o1], k2 as [p2 o2]. unfold key_eqb. simpl.
  rewrite andb_true_iff, Nat.eqb_eq, orientation_eqb_eq. split.
  - intros [-> ->]. reflexivity.
  - intros [= -> ->]. split; reflexivity.
Qed.

(** ** Geometry kernel *)

(** After whole turns an iterated transform is where it was. *)
Lemma iter_period (r : cubelets -> cubelets) :
  (forall cs, r (r (r (r cs))) = cs) ->
  forall q j cs, Nat.iter (j + 4 * q) r cs = Nat.iter j r cs.
Proof.
  intros H4 q j cs. induction q as [|q IH].
  - rewrite Nat.mul_0_r, Nat.add_0_r. reflexivity.
  - replace (j + 4 * S q)%nat with (S (S (S (S (j + 4 * q))))) by lia.
    cbn [Nat.iter nat_rect]. rewrite H4. exact IH.
Qed.

(** C10. Each of the three axis rotations has order four: applying it four
    times to any list of integer triples gives the list back, and no smaller
    positive number of applications does so on every list; the numbers of
    applications that give every list back are the multiples of four. *)
Theorem rotations_have_order_four (r : cubelets -> cubelets) :
  In r [rotate_x; rotate_y; rotate_z] ->
  (forall cs, r (r (r (r cs))) = cs) /\
  (exists cs, r cs <> cs /\ r (r cs) <> cs /\ r (r (r cs)) <> cs) /\
  (forall k, (forall cs, Nat.iter k r cs = cs) <-> (k mod 4 = 0)%nat).
Proof.
  intros Hr.
  assert (H4 : forall cs, r (r (r (r cs))) = cs).
  { intros cs. simpl in Hr.
    destruct Hr as [<-|[<-|[<-|[]]]];
      unfold rotate_x, rotate_y, rotate_z; rewrite !map_map;
      induction cs as [|[[x y] z] rest IH]; simpl;
      rewrite ?IH, ?Z.opp_involutive; reflexivity. }
  assert (Hless : r [(1, 1, 0)] <> [(1, 1, 0)] /\
                  r (r [(1, 1, 0)]) <> [(1, 1, 0)] /\
                  r (r (r [(1, 1, 0)])) <> [(1, 1, 0)]).
  { simpl in Hr.
    destruct Hr as [<-|[<-|[<-|[]]]]; repeat split; discriminate. }
  split; [exact H4|]. split; [exists [(1, 1, 0)]; exact Hless|].
  intros k.
  pose proof (Nat.div_mod_eq k 4) as Hk.
  pose proof (Nat.mod_upper_bound k 4 ltac:(discriminate)) as Hj.
  assert (Hiter : forall cs, Nat.iter k r cs = Nat.iter (k mod 4) r cs).
  { intros cs. rewrite <- (iter_period r H4 (k / 4) (k mod 4) cs).
    f_equal. lia. }
  split.
  - intros Hall. specialize (Hall [(1, 1, 0)]). rewrite Hiter in Hall.
    destruct Hless as [H1 [H2 H3]].
    destruct (k mod 4)%nat as [|[|[|[|j]]]]; [reflexivity| | | |lia];
      exfalso; cbn [Nat.iter nat_rect] in Hall; auto.
  - intros Hmod cs. rewrite Hiter, Hmod. reflexivity.
Qed.

Lemma rotations_have_order_four_witness :
  (forall cs, rotate_x (rotate_x (rotate_x (rotate_x cs))) = cs) /\
  (exists cs, rotate_x cs <> cs /\ rotate_x (rotate_x cs) <> cs /\
              rotate_x (rotate_x (rotate_x cs)) <> cs) /\
  (forall k, (forall cs, Nat.iter k rotate_x cs = cs) <-> (k mod 4 = 0)%nat).
Proof.
  apply (rotations_have_order_four rotate_x). simpl. auto.
Defined.

(** ** The exact-one encoder *)

(** The index pairs visited by the two nested loops of [exactly_one], from
    outer index [a] on, for a list of length [k]. *)
Lemma index_pairs_from (k n a : nat) :
  (a + n = k)%nat ->
  let pairs :=
    flat_map (fun i => map (pair i) (seq (i + 1) (k - (i + 1)))) (seq a n) in
  (2 * List.length pairs = n * (n - 1))%nat /\
  NoDup pairs /\
  (forall i j, In (i, j) pairs <-> (a <= i /\ i < j /\ j < k)%nat).
Proof.
  revert a. induction n as [|n IH]; intros a Hk; simpl.
  - split; [reflexivity|]. split; [constructor|].
    intros i j. split; [intros []|lia].
  - destruct (IH (S a)) as [Hlen [Hnd Hin]]; [lia|].
    rewrite length_app, length_map, length_seq.
    split; [nia|]. split.
    + apply NoDup_app; [| exact Hnd |].
      * apply Injective_map_NoDup; [|apply seq_NoDup].
        intros x y [= ->]. reflexivity.
      * intros [i j] H1 H2. apply in_map_iff in H1 as [j' [[= <- <-] _]].
        apply Hin in H2. lia.
    + intros i j. split; intros H.
      * apply in_app_or in H as [H|H].
        -- apply in_map_iff in H as [j' [[= <- <-] Hj]]. apply in_seq in Hj. lia.
        -- apply Hin in H. lia.
      * apply in_or_app.
        destruct (Nat.eq_dec i a) as [->|Hne].
        -- left. apply in_map. apply in_seq. lia.
        -- right. apply Hin. lia.
Qed.

Lemma index_pairs_spec (k : nat) :
  (2 * List.length (index_pairs k) = k * (k - 1))%nat /\
  NoDup (index_pairs k) /\
  forall i j, In (i, j) (index_pairs k) <-> (i < j < k)%nat.
Proof.
  destruct (index_pairs_from k k 0 eq_refl) as [Hlen [Hnd Hin]].
  split; [exact Hlen|]. split; [exact Hnd|].
  intros i j. unfold index_pairs. rewrite Hin. lia.
Qed.

Lemma exactly_one_unfold (variables : list Z) :
  variables <> [] ->
  exactly_one variables
  = variables :: map (negated_pair variables) (index_pairs (List.length variables)).
Proof.
  intros Hne. destruct variables as [|v rest]; [contradiction|].
  unfold exactly_one. cbv zeta.
  match goal with |- [?c] ++ ?t = _ => change ([c] ++ t) with (c :: t) end.
  f_equal.
  unfold index_pairs. rewrite !flat_map_concat_map, concat_map, map_map.
  apply (f_equal (@List.concat clause)).
  apply map_ext. intros i. rewrite map_map. reflexivity.
Qed.

(** C5. For a non-empty group of [k] variables, [exactly_one] returns the
    group itself as one clause (every variable as a positive literal),
    followed by exactly [k*(k-1)/2] binary clauses: one for each index pair
    [i < j], holding the negations of the two paired variables and nothing
    else. *)
Theorem exactly_one_shape (variables : list Z) :
  variables <> [] ->
  let k := List.length variables in
  exists (at_most : list clause) (pairs : list (nat * nat)),
    exactly_one variables = variables :: at_most /\
    List.length at_most = (k * (k - 1) / 2)%nat /\
    NoDup pairs /\
    (forall i j, In (i, j) pairs <-> (i < j < k)%nat) /\
    at_most =
      map (fun ij => [- var_at variables (fst ij); - var_at variables (snd ij)])
          pairs.
Proof.
  intros Hne k.
  destruct (index_pairs_spec k) as [Hlen [Hnd Hin]].
  exists (map (negated_pair variables) (index_pairs k)), (index_pairs k).
  split; [|split; [|split; [exact Hnd|split; [exact Hin|reflexivity]]]].
  - apply exactly_one_unfold. exact Hne.
  - rewrite length_map. apply Nat.div_unique_exact; lia.
Qed.

Lemma exactly_one_shape_witness :
  exists (at_most : list clause) (pairs : list (nat * nat)),
    exactly_one [1; 2; 3] = [1; 2; 3] :: at_most /\
    List.length at_most = 3%nat /\
    NoDup pairs /\
    (forall i j, In (i, j) pairs <-> (i < j < 3)%nat) /\
    at_most =
      map (fun ij => [- var_at [1; 2; 3] (fst ij); - var_at [1; 2; 3] (snd ij)])
          pairs.
Proof. apply (exactly_one_shape [1; 2; 3]). discriminate. Defined.

Example exactly_one_three :
  exactly_one [1; 2; 3] = [[1; 2; 3]; [-1; -2]; [-1; -3]; [-2; -3]].
Proof. reflexivity. Qed.

(** ** The lexicographic order and [sorted] *)

Lemma cell_le_lex (x1 y1 z1 x2 y2 z2 : Z) :
  cell_le (x1, y1, z1) (x2, y2, z2) <->
  x1 < x2 \/ (x1 = x2 /\ (y1 < y2 \/ (y1 = y2 /\ z1 <= z2))).
Proof.
  unfold cell_le, cell_leb, cell_compare.
  destruct (Z.compare_spec x1 x2); [|split; [lia|reflexivity]|split; [discriminate|lia]].
  destruct (Z.compare_spec y1 y2); [|split; [lia|reflexivity]|split; [discriminate|lia]].
  destruct (Z.compare_spec z1 z2); split; try discriminate; try reflexivity; lia.
Qed.

Lemma cell_le_total (c d : cell) : cell_leb c d = false -> cell_le d c.
Proof.
  destruct c as [[x1 y1] z1], d as [[x2 y2] z2]. intros H.
  apply cell_le_lex.
  assert (N : ~ cell_le (x1, y1, z1) (x2, y2, z2)) by (unfold cell_le; congruence).
  rewrite cell_le_lex in N. lia.
Qed.

Lemma cell_le_trans (c d e : cell) : cell_le c d -> cell_le d e -> cell_le c e.
Proof.
  destruct c as [[x1 y1] z1], d as [[x2 y2] z2], e as [[x3 y3] z3].
  rewrite !cell_le_lex. lia.
Qed.

Lemma cell_le_antisym (c d : cell) : cell_le c d -> cell_le d c -> c = d.
Proof.
  destruct c as [[x1 y1] z1], d as [[x2 y2] z2].
  rewrite !cell_le_lex. intros H1 H2.
  assert (x1 = x2 /\ y1 = y2 /\ z1 = z2) as [-> [-> ->]] by lia. reflexivity.
Qed.

Lemma cell_le_refl (c : cell) : cell_le c c.
Proof. destruct c as [[x y] z]. apply cell_le_lex. lia. Qed.

Lemma insert_sorted_perm (c : cell) (cs : cubelets) :
  Permutation (insert_sorted c cs) (c :: cs).
Proof.
  induction cs as [|d rest IH]; simpl; [reflexivity|].
  destruct (cell_leb c d); [reflexivity|].
  rewrite IH. apply perm_swap.
Qed.

(** [sorted] rearranges its argument... *)
Lemma sorted_perm (cs : cubelets) : Permutation (sorted cs) cs.
Proof.
  induction cs as [|c rest IH]; simpl; [reflexivity|].
  rewrite insert_sorted_perm. constructor. exact IH.
Qed.

Lemma insert_sorted_sorted (c : cell) (cs : cubelets) :
  StronglySorted cell_le cs -> StronglySorted cell_le (insert_sorted c cs).
Proof.
  induction 1 as [|d rest Hs IH Hd]; simpl.
  - repeat constructor.
  - destruct (cell_leb c d) eqn:E.
    + constructor; [constructor; assumption|].
      constructor; [exact E|].
      eapply Forall_impl; [|exact Hd]. intros e. apply cell_le_trans. exact E.
    + constructor; [exact IH|].
      eapply Permutation_Forall; [symmetry; apply insert_sorted_perm|].
      constructor; [apply cell_le_total; exact E|exact Hd].
Qed.

(** ... into ascending order. *)
Lemma sorted_sorted (cs : cubelets) : StronglySorted cell_le (sorted cs).
Proof.
  induction cs as [|c rest IH]; simpl; [constructor|].
  apply insert_sorted_sorted. exact IH.
Qed.

Lemma sorted_length (cs : cubelets) : List.length (sorted cs) = List.length cs.
Proof. apply Permutation_length, sorted_perm. Qed.

Lemma sorted_nonempty (cs : cubelets) : cs <> [] -> sorted cs <> [].
Proof.
  intros H E. apply H. apply length_zero_iff_nil.
  rewrite <- sorted_length, E. reflexivity.
Qed.

(** An ascending list without repetition is determined by its elements. *)
Lemma sorted_extensional (l1 l2 : list cell) :
  StronglySorted cell_le l1 -> StronglySorted cell_le l2 ->
  NoDup l1 -> NoDup l2 ->
  (forall c, In c l1 <-> In c l2) -> l1 = l2.
Proof.
  intros S1. revert l2. induction S1 as [|c r1 S1 IH F1]; intros l2 S2 N1 N2 Hin.
  - destruct l2 as [|d r2]; [reflexivity|].
    exfalso. apply (proj2 (Hin d)). left; reflexivity.
  - destruct l2 as [|d r2].
    + exfalso. apply (proj1 (Hin c)). left; reflexivity.
    + inversion S2 as [|? ? S2' F2]; subst.
      inversion N1 as [|? ? Nc N1']; subst.
      inversion N2 as [|? ? Nd N2']; subst.
      rewrite Forall_forall in F1, F2.
      assert (c = d) as ->.
      { apply cell_le_antisym.
        - destruct (proj2 (Hin d)) as [->|H]; [left; reflexivity|apply cell_le_refl|].
          apply F1. exact H.
        - destruct (proj1 (Hin c)) as [->|H]; [left; reflexivity|apply cell_le_refl|].
          apply F2. exact H. }
      f_equal. apply IH; auto.
      intros e. split; intros He.
      * destruct (proj1 (Hin e)) as [->|H]; [right; exact He|contradiction|exact H].
      * destruct (proj2 (Hin e)) as [->|H]; [right; exact He|contradiction|exact H].
Qed.

Lemma translate_sorted (m : cell) (cs : list cell) :
  StronglySorted cell_le cs -> StronglySorted cell_le (translate m cs).
Proof.
  destruct m as [[mx my] mz]. unfold translate.
  induction 1 as [|c rest Hs IH Hc]; simpl; [constructor|].
  constructor; [exact IH|].
  rewrite Forall_forall in *. intros d' Hd.
  apply in_map_iff in Hd as [d [<- Hd]].
  specialize (Hc d Hd).
  destruct c as [[x1 y1] z1], d as [[x2 y2] z2].
  rewrite cell_le_lex in *. lia.
Qed.

Lemma translate_NoDup (m : cell) (cs : list cell) :
  NoDup cs -> NoDup (translate m cs).
Proof.
  destruct m as [[mx my] mz]. unfold translate.
  apply Injective_map_NoDup.
  intros [[x1 y1] z1] [[x2 y2] z2] [= H1 H2 H3]. f_equal; [f_equal|]; lia.
Qed.

Lemma canonical_translate (cs : cubelets) :
  canonical cs = match sorted cs with
                 | [] => []
                 | m :: _ => translate m (sorted cs)
                 end.
Proof.
  unfold canonical, translate. destruct (sorted cs) as [|[[mx my] mz] rest]; reflexivity.
Qed.

(** ** Transforms as matrices *)

Lemma apply_mat_mul (m n : matrix) (c : cell) :
  apply (mat_mul m n) c = apply m (apply n c).
Proof.
  destruct m as [[[[a11 a12] a13] [[a21 a22] a23]] [[a31 a32] a33]].
  destruct n as [[[[b11 b12] b13] [[b21 b22] b23]] [[b31 b32] b33]].
  destruct c as [[x y] z]. unfold mat_mul, transpose, apply.
  f_equal; [f_equal|]; ring.
Qed.

Lemma apply_mat_id (c : cell) : apply mat_id c = c.
Proof.
  destruct c as [[x y] z]. unfold apply, mat_id.
  f_equal; [f_equal|]; ring.
Qed.

Lemma mat_eqb_eq (m n : matrix) : mat_eqb m n = true <-> m = n.
Proof.
  destruct m as [[r1 r2] r3], n as [[s1 s2] s3]. unfold mat_eqb.
  rewrite !andb_true_iff, !cell_eqb_eq. split.
  - intros [[-> ->] ->]. reflexivity.
  - intros [= -> -> ->]. auto.
Qed.

Lemma acts_as_compose f g m n :
  acts_as f m -> acts_as g n -> acts_as (compose f g) (mat_mul m n).
Proof.
  intros Hf Hg cs. unfold compose. rewrite Hg, Hf, map_map.
  apply map_ext. intros c. symmetry. apply apply_mat_mul.
Qed.

Lemma transforms_act : Forall2 acts_as transforms transform_matrices.
Proof.
  unfold transforms, transform_matrices.
  repeat constructor; intros cs;
    unfold identity, rotate_x, rotate_y, rotate_z.
  - rewrite <- (map_id cs) at 1. apply map_ext. intros c. symmetry. apply apply_mat_id.
  - apply map_ext. intros [[x y] z]. unfold apply, mat_x. f_equal; [f_equal|]; ring.
  - apply map_ext. intros [[x y] z]. unfold apply, mat_y. f_equal; [f_equal|]; ring.
  - apply map_ext. intros [[x y] z]. unfold apply, mat_z. f_equal; [f_equal|]; ring.
Qed.

Section Forall2_words.
Context {A B : Type} (R : A -> B -> Prop).

Lemma Forall2_map_rel {C D : Type} (Q : C -> D -> Prop) (f : A -> C) (g : B -> D)
    xs ys :
  Forall2 R xs ys -> (forall x y, R x y -> Q (f x) (g y)) ->
  Forall2 Q (map f xs) (map g ys).
Proof.
  induction 1 as [|x y xs ys Hxy Hrest IH]; intros Hfg; simpl;
    constructor; auto.
Qed.

Lemma Forall2_flat_map_rel {C D : Type} (Q : C -> D -> Prop)
    (f : A -> list C) (g : B -> list D) xs ys :
  Forall2 R xs ys -> (forall x y, R x y -> Forall2 Q (f x) (g y)) ->
  Forall2 Q (flat_map f xs) (flat_map g ys).
Proof.
  induction 1 as [|x y xs ys Hxy Hrest IH]; intros Hfg; simpl; [constructor|].
  apply Forall2_app; auto.
Qed.

(** Related generators and operations give related words. *)
Lemma words5_rel (op : A -> A -> A) (op' : B -> B -> B) gens gens' :
  (forall x y x' y', R x x' -> R y y' -> R (op x y) (op' x' y')) ->
  Forall2 R gens gens' ->
  Forall2 R (words5 op gens) (words5 op' gens').
Proof.
  intros Hop Hg. unfold words5.
  repeat (apply (Forall2_flat_map_rel R); [exact Hg|intros ? ? ?]).
  apply (Forall2_map_rel R); [exact Hg|]. intros; auto 10.
Qed.

Lemma Forall2_In_l xs ys x :
  Forall2 R xs ys -> In x xs -> exists y, In y ys /\ R x y.
Proof.
  induction 1 as [|a b xs ys Hab H IH]; intros Hin; [destruct Hin|].
  destruct Hin as [->|Hin].
  - exists b. split; [left; reflexivity|exact Hab].
  - destruct (IH Hin) as [y [Hy Hr]]. exists y. split; [right; exact Hy|exact Hr].
Qed.

Lemma Forall2_In_r xs ys y :
  Forall2 R xs ys -> In y ys -> exists x, In x xs /\ R x y.
Proof.
  induction 1 as [|a b xs ys Hab H IH]; intros Hin; [destruct Hin|].
  destruct Hin as [->|Hin].
  - exists a. split; [left; reflexivity|exact Hab].
  - destruct (IH Hin) as [x [Hx Hr]]. exists x. split; [right; exact Hx|exact Hr].
Qed.
End Forall2_words.

(** The 1024 composites of [generate_rotations] act as the 1024 products of
    the generator matrices. *)
Lemma composites_act :
  Forall2 acts_as (words5 compose transforms) (words5 mat_mul transform_matrices).
Proof.
  apply words5_rel; [|exact transforms_act].
  intros f g m n. apply acts_as_compose.
Qed.

Lemma words5_In {A : Type} (op : A -> A -> A) (gens : list A) (w : A) :
  In w (words5 op gens) <->
  exists a b c d e,
    In a gens /\ In b gens /\ In c gens /\ In d gens /\ In e gens /\
    w = op a (op b (op c (op d e))).
Proof.
  unfold words5. split.
  - intros H.
    apply in_flat_map in H as [a [Ha H]]. apply in_flat_map in H as [b [Hb H]].
    apply in_flat_map in H as [c [Hc H]]. apply in_flat_map in H as [d [Hd H]].
    apply in_map_iff in H as [e [<- He]].
    exists a, b, c, d, e. auto 10.
  - intros [a [b [c [d [e [Ha [Hb [Hc [Hd [He ->]]]]]]]]]].
    apply in_flat_map; exists a; split; [exact Ha|].
    apply in_flat_map; exists b; split; [exact Hb|].
    apply in_flat_map; exists c; split; [exact Hc|].
    apply in_flat_map; exists d; split; [exact Hd|].
    apply in_map_iff. exists e. split; [reflexivity|exact He].
Qed.

(** ** The rotation group *)

Lemma distinct_NoDup {A : Type} (eqb : A -> A -> bool) (xs : list A) :
  (forall x y, eqb x y = true <-> x = y) ->
  distinct eqb xs = true -> NoDup xs.
Proof.
  intros Heqb. induction xs as [|x rest IH]; simpl; intros H; [constructor|].
  apply andb_true_iff in H as [H1 H2]. constructor; [|auto].
  intros Hin. apply negb_true_iff in H1.
  assert (E : existsb (eqb x) rest = true).
  { apply existsb_exists. exists x. split; [exact Hin|]. apply Heqb. reflexivity. }
  congruence.
Qed.

Lemma rotation_group_size : List.length rotation_group = 24%nat.
Proof. vm_compute. reflexivity. Qed.

Lemma rotation_group_NoDup : NoDup rotation_group.
Proof.
  apply (distinct_NoDup mat_eqb); [exact mat_eqb_eq|].
  vm_compute. reflexivity.
Qed.

Lemma unit_entry_In (a : Z) : -1 <= a <= 1 -> In a unit_entries.
Proof.
  intros H. unfold unit_entries.
  assert (a = -1 \/ a = 0 \/ a = 1) as [-> | [-> | ->]] by lia; simpl; auto.
Qed.

Lemma unit_row_In (a b c : Z) :
  -1 <= a <= 1 -> -1 <= b <= 1 -> -1 <= c <= 1 -> In (a, b, c) unit_rows.
Proof.
  intros Ha Hb Hc. unfold unit_rows.
  apply in_flat_map. exists a. split; [apply unit_entry_In; exact Ha|].
  apply in_flat_map. exists b. split; [apply unit_entry_In; exact Hb|].
  apply in_map. apply unit_entry_In. exact Hc.
Qed.

(** Every orthogonal integer matrix of determinant 1 is listed in
    [rotation_group]. *)
Lemma rotation_group_complete (m : matrix) :
  is_rotation m = true <-> In m rotation_group.
Proof.
  unfold rotation_group. rewrite filter_In. split; [|intros [_ H]; exact H].
  intros H. split; [|exact H].
  unfold is_rotation in H. apply andb_true_iff in H as [H _].
  apply mat_eqb_eq in H.
  destruct m as [[[[a11 a12] a13] [[a21 a22] a23]] [[a31 a32] a33]].
  unfold mat_mul, transpose, mat_id in H.
  injection H as H11 _ _ _ H22 _ _ _ H33.
  unfold unit_matrices.
  apply in_flat_map. exists (a11, a12, a13). split; [apply unit_row_In; nia|].
  apply in_flat_map. exists (a21, a22, a23). split; [apply unit_row_In; nia|].
  apply in_map. apply unit_row_In; nia.
Qed.

(** The products of five generators are exactly the rotations. *)
Lemma words_are_rotations (m : matrix) :
  In m (words5 mat_mul transform_matrices) <-> In m rotation_group.
Proof.
  assert (H : forallb (fun w => existsb (mat_eqb w) rotation_group)
                      (words5 mat_mul transform_matrices) = true /\
              forallb (fun g => existsb (mat_eqb g)
                                        (words5 mat_mul transform_matrices))
                      rotation_group = true).
  { split; vm_compute; reflexivity. }
  destruct H as [H1 H2]. rewrite forallb_forall in H1, H2. split; intros Hin.
  - specialize (H1 m Hin). apply existsb_exists in H1 as [g [Hg E]].
    apply mat_eqb_eq in E. subst. exact Hg.
  - specialize (H2 m Hin). apply existsb_exists in H2 as [w [Hw E]].
    apply mat_eqb_eq in E. subst. exact Hw.
Qed.

(** A rotation is undone by its transpose. *)
Lemma rotation_inverse (g : matrix) (c : cell) :
  In g rotation_group -> apply (transpose g) (apply g c) = c.
Proof.
  intros Hg.
  assert (H : forallb (fun g => mat_eqb (mat_mul (transpose g) g) mat_id)
                      rotation_group = true) by (vm_compute; reflexivity).
  rewrite forallb_forall in H. specialize (H g Hg). apply mat_eqb_eq in H.
  rewrite <- apply_mat_mul, H. apply apply_mat_id.
Qed.

Lemma rotation_injective (g : matrix) (c d : cell) :
  In g rotation_group -> apply g c = apply g d -> c = d.
Proof.
  intros Hg H.
  rewrite <- (rotation_inverse g c Hg), <- (rotation_inverse g d Hg), H.
  reflexivity.
Qed.

(** ** The orientation generator *)

Lemma collect_canonical (cs : cubelets) (os : list orientation) :
  cs <> [] -> collect cs os = Ok (add_new (canonical cs) os).
Proof.
  intros Hne. unfold collect, canonical, add_new.
  pose proof (sorted_nonempty cs Hne) as Hs.
  destruct (sorted cs) as [|[[mx my] mz] rest]; [contradiction|].
  destruct (orientation_in _ os); reflexivity.
Qed.

(** With an empty piece the subscript on line 36 raises. *)
Lemma collect_empty (os : list orientation) : collect [] os = Raise IndexError.
Proof. reflexivity. Qed.

(** The five nested loops run through the 1024 composites in order. *)
Lemma generate_rotations_loop (piece : cubelets) :
  generate_rotations piece =
  for_each (words5 compose transforms) (fun f => collect (f piece)) [].
Proof.
  unfold generate_rotations, words5. symmetry.
  repeat (rewrite for_each_flat_map; apply for_each_ext; intros ? ? _).
  rewrite for_each_map. reflexivity.
Qed.

Lemma composite_nonempty (f : cubelets -> cubelets) (piece : cubelets) :
  In f (words5 compose transforms) -> piece <> [] -> f piece <> [].
Proof.
  intros Hf Hne.
  destruct (Forall2_In_l acts_as _ _ f composites_act Hf) as [m [_ Hm]].
  rewrite Hm. destruct piece; [contradiction|discriminate].
Qed.

Lemma generate_rotations_pure (piece : cubelets) :
  piece <> [] ->
  generate_rotations piece = Ok (collect_all (words5 compose transforms) piece).
Proof.
  intros Hne. rewrite generate_rotations_loop. unfold collect_all.
  apply for_each_pure. intros f os Hf.
  apply collect_canonical. apply composite_nonempty; assumption.
Qed.

Lemma generate_rotations_empty : generate_rotations [] = Raise IndexError.
Proof. reflexivity. Qed.

Lemma add_new_spec (o : orientation) (os : list orientation) :
  NoDup os ->
  NoDup (add_new o os) /\ forall o', In o' (add_new o os) <-> In o' os \/ o' = o.
Proof.
  intros Hnd. unfold add_new.
  destruct (orientation_in o os) eqn:E.
  - apply orientation_in_In in E. split; [exact Hnd|].
    intros o'. split; [auto|]. intros [H| ->]; assumption.
  - assert (Hnot : ~ In o os).
    { intros H. apply orientation_in_In in H. congruence. }
    split.
    + apply NoDup_app; [exact Hnd|repeat constructor; intros []|].
      intros o' H1 [<-|[]]. contradiction.
    + intros o'. rewrite in_app_iff. simpl. intuition congruence.
Qed.

Lemma collect_from_spec (piece : cubelets) (fs : list (cubelets -> cubelets))
    (init : list orientation) :
  NoDup init ->
  let os := fold_left (fun os f => add_new (canonical (f piece)) os) fs init in
  NoDup os /\
  forall o, In o os <-> In o init \/ exists f, In f fs /\ o = canonical (f piece).
Proof.
  revert init. induction fs as [|f fs IH]; intros init Hnd; simpl.
  - split; [exact Hnd|]. intros o. split; [auto|].
    intros [H|[f [[] _]]]. exact H.
  - destruct (add_new_spec (canonical (f piece)) init Hnd) as [Hnd' Hin'].
    destruct (IH _ Hnd') as [Hnd'' Hin'']. split; [exact Hnd''|].
    intros o. rewrite Hin'', Hin'. split.
    + intros [[H| ->]|[g [Hg ->]]]; [left; exact H|right..].
      * exists f. split; [left; reflexivity|reflexivity].
      * exists g. split; [right; exact Hg|reflexivity].
    + intros [H|[g [[<-|Hg] ->]]]; [left; left; exact H|left; right; reflexivity|].
      right. exists g. split; [exact Hg|reflexivity].
Qed.

(** The orientations of a non-empty piece are the canonical forms of its
    images under the 24 rotations, each listed once. *)
Lemma generate_rotations_spec (piece : cubelets) :
  piece <> [] ->
  exists os,
    generate_rotations piece = Ok os /\
    NoDup os /\
    forall o, In o os <->
              exists g, In g rotation_group /\ o = canonical (map (apply g) piece).
Proof.
  intros Hne. exists (collect_all (words5 compose transforms) piece).
  split; [apply generate_rotations_pure; exact Hne|].
  destruct (collect_from_spec piece (words5 compose transforms) [] (NoDup_nil _))
    as [Hnd Hin].
  split; [exact Hnd|].
  intros o. unfold collect_all. rewrite Hin. split.
  - intros [[]|[f [Hf ->]]].
    destruct (Forall2_In_l acts_as _ _ f composites_act Hf) as [m [Hm Hact]].
    exists m. split; [exact (proj1 (words_are_rotations m) Hm)|].
    rewrite Hact. reflexivity.
  - intros [g [Hg ->]]. right.
    apply words_are_rotations in Hg.
    destruct (Forall2_In_r acts_as _ _ g composites_act Hg) as [f [Hf Hact]].
    exists f. split; [exact Hf|]. rewrite Hact. reflexivity.
Qed.

Lemma pieces_well_formed (piece : cubelets) :
  In piece pieces -> piece <> [] /\ NoDup piece.
Proof.
  intros H. split.
  - unfold pieces in H. simpl in H.
    repeat (destruct H as [<-|H]; [discriminate|]). destruct H.
  - apply (distinct_NoDup cell_eqb); [exact cell_eqb_eq|].
    unfold pieces in H. simpl in H.
    repeat (destruct H as [<-|H]; [reflexivity|]). destruct H.
Qed.

Lemma mat_id_rotation : In mat_id rotation_group.
Proof. apply rotation_group_complete. reflexivity. Qed.

(** C3. The 1024 composites of five transforms reach every element of the
    24-element rotation group of the cube, and therefore the orientations
    that [generate_rotations] returns for a piece are exactly the canonical
    forms of the images of the piece under the 24 rotations. *)
Theorem generate_rotations_reaches_group (piece : cubelets) :
  In piece pieces ->
  List.length rotation_group = 24%nat /\
  NoDup rotation_group /\
  (forall g, In g rotation_group ->
     exists f_a f_b f_c f_d f_e,
       In f_a transforms /\ In f_b transforms /\ In f_c transforms /\
       In f_d transforms /\ In f_e transforms /\
       forall cs, f_a (f_b (f_c (f_d (f_e cs)))) = map (apply g) cs) /\
  exists os,
    generate_rotations piece = Ok os /\
    forall o, In o os <->
              exists g, In g rotation_group /\ o = canonical (map (apply g) piece).
Proof.
  intros Hp.
  split; [exact rotation_group_size|]. split; [exact rotation_group_NoDup|]. split.
  - intros g Hg. apply words_are_rotations in Hg.
    destruct (Forall2_In_r acts_as _ _ g composites_act Hg) as [f [Hf Hact]].
    apply words5_In in Hf
      as [f_a [f_b [f_c [f_d [f_e [Ha [Hb [Hc [Hd [He ->]]]]]]]]]].
    exists f_a, f_b, f_c, f_d, f_e. repeat (split; [assumption|]).
    intros cs. apply Hact.
  - destruct (generate_rotations_spec piece) as [os [Hrun [_ Hin]]].
    + apply pieces_well_formed. exact Hp.
    + exists os. split; assumption.
Qed.

Lemma generate_rotations_reaches_group_witness :
  List.length rotation_group = 24%nat /\
  NoDup rotation_group /\
  (forall g, In g rotation_group ->
     exists f_a f_b f_c f_d f_e,
       In f_a transforms /\ In f_b transforms /\ In f_c transforms /\
       In f_d transforms /\ In f_e transforms /\
       forall cs, f_a (f_b (f_c (f_d (f_e cs)))) = map (apply g) cs) /\
  exists os,
    generate_rotations Pieces.l = Ok os /\
    forall o, In o os <->
              exists g, In g rotation_group /\ o = canonical (map (apply g) Pieces.l).
Proof.
  apply (generate_rotations_reaches_group Pieces.l).
  unfold pieces. simpl. tauto.
Defined.

(** *** Shape of a canonical form *)

Lemma canonical_sorted (cs : cubelets) : StronglySorted cell_le (canonical cs).
Proof.
  rewrite canonical_translate. pose proof (sorted_sorted cs) as H.
  destruct (sorted cs) as [|m rest]; [constructor|].
  apply translate_sorted. exact H.
Qed.

Lemma canonical_NoDup (cs : cubelets) : NoDup cs -> NoDup (canonical cs).
Proof.
  intros Hnd. rewrite canonical_translate.
  assert (H : NoDup (sorted cs)).
  { eapply Permutation_NoDup; [symmetry; apply sorted_perm|exact Hnd]. }
  destruct (sorted cs) as [|m rest]; [constructor|].
  apply translate_NoDup. exact H.
Qed.

(** The first cell of a canonical form is the origin, and every cell is at
    least the origin in the lexicographic order. *)
Lemma canonical_origin (cs : cubelets) :
  cs <> [] ->
  (exists rest, canonical cs = (0, 0, 0) :: rest) /\
  forall c, In c (canonical cs) -> cell_le (0, 0, 0) c.
Proof.
  intros Hne. rewrite canonical_translate.
  pose proof (sorted_nonempty cs Hne) as Hs.
  pose proof (sorted_sorted cs) as Hss.
  destruct (sorted cs) as [|[[mx my] mz] rest]; [contradiction|].
  inversion Hss as [|? ? _ Hm]; subst. rewrite Forall_forall in Hm.
  split.
  - eexists. unfold translate. simpl. rewrite !Z.sub_diag. reflexivity.
  - intros c Hc. unfold translate in Hc. apply in_map_iff in Hc as [[[x y] z] [<- Hd]].
    destruct Hd as [[= <- <- <-]|Hd].
    + rewrite !Z.sub_diag. apply cell_le_refl.
    + specialize (Hm _ Hd). rewrite cell_le_lex in *. lia.
Qed.

Lemma fold_min_spec (proj : cell -> Z) (rest : list cell) (a : Z) :
  let m := fold_left (fun m d => Z.min m (proj d)) rest a in
  m <= a /\ (forall d, In d rest -> m <= proj d) /\
  (m = a \/ exists d, In d rest /\ m = proj d).
Proof.
  revert a. induction rest as [|c rest IH]; intros a; simpl.
  - split; [lia|]. split; [intros d []|left; reflexivity].
  - destruct (IH (Z.min a (proj c))) as [H1 [H2 H3]].
    split; [lia|]. split.
    + intros d [<-|Hd]; [lia|apply H2; exact Hd].
    + destruct H3 as [H3|[d [Hd H3]]].
      * destruct (Z.min_spec a (proj c)) as [[_ E]|[_ E]].
        -- left. congruence.
        -- right. exists c. split; [left; reflexivity|congruence].
      * right. exists d. split; [right; exact Hd|exact H3].
Qed.

(** [axis_min] is a lower bound that is attained. *)
Lemma axis_min_spec (proj : cell -> Z) (cs : list cell) (m : Z) :
  axis_min proj cs = Some m ->
  (forall c, In c cs -> m <= proj c) /\ exists c, In c cs /\ m = proj c.
Proof.
  destruct cs as [|c rest]; [discriminate|]. simpl. intros [= <-].
  destruct (fold_min_spec proj rest (proj c)) as [H1 [H2 H3]]. split.
  - intros d [<-|Hd]; [exact H1|apply H2; exact Hd].
  - destruct H3 as [H3|[d [Hd H3]]].
    + exists c. split; [left; reflexivity|exact H3].
    + exists d. split; [right; exact Hd|exact H3].
Qed.

Lemma axis_min_defined (proj : cell -> Z) (cs : list cell) :
  cs <> [] -> exists m, axis_min proj cs = Some m.
Proof. destruct cs; [contradiction|]. intros _. eexists. reflexivity. Qed.

(** What translation to the first sorted cell guarantees on each axis. *)
Lemma canonical_minima (cs : cubelets) :
  cs <> [] ->
  exists min_y min_z,
    axis_min proj_x (canonical cs) = Some 0 /\
    axis_min proj_y (canonical cs) = Some min_y /\ min_y <= 0 /\
    axis_min proj_z (canonical cs) = Some min_z /\ min_z <= 0.
Proof.
  intros Hne. destruct (canonical_origin cs Hne) as [[rest E] Hle].
  assert (Hc : canonical cs <> []) by (rewrite E; discriminate).
  destruct (axis_min_defined proj_x _ Hc) as [mx Hx].
  destruct (axis_min_defined proj_y _ Hc) as [my Hy].
  destruct (axis_min_defined proj_z _ Hc) as [mz Hz].
  assert (H0 : In (0, 0, 0) (canonical cs)) by (rewrite E; left; reflexivity).
  exists my, mz.
  destruct (axis_min_spec _ _ _ Hx) as [Lx [[[x y] z] [Ix Ex]]].
  destruct (axis_min_spec _ _ _ Hy) as [Ly _].
  destruct (axis_min_spec _ _ _ Hz) as [Lz _].
  specialize (Lx _ H0). specialize (Ly _ H0). specialize (Lz _ H0).
  specialize (Hle _ Ix). rewrite cell_le_lex in Hle.
  unfold proj_x, proj_y, proj_z in *. simpl in *.
  assert (mx = 0) as -> by lia. auto.
Qed.

(** C1 (amended). Every orientation that [generate_rotations] produces for a
    piece is sorted and translated so that its first, lexicographically
    smallest cell is the origin: every cell is lexicographically at least
    (0, 0, 0), the minimum x-coordinate is 0, and the minima of the y- and
    z-coordinates are at most 0. *)
Theorem orientations_start_at_origin (piece : cubelets) :
  In piece pieces ->
  exists os,
    generate_rotations piece = Ok os /\
    forall o, In o os ->
      (exists rest, o = (0, 0, 0) :: rest) /\
      StronglySorted cell_le o /\
      (forall c, In c o -> cell_le (0, 0, 0) c) /\
      exists min_y min_z,
        axis_min proj_x o = Some 0 /\
        axis_min proj_y o = Some min_y /\ min_y <= 0 /\
        axis_min proj_z o = Some min_z /\ min_z <= 0.
Proof.
  intros Hp. destruct (pieces_well_formed piece Hp) as [Hne _].
  destruct (generate_rotations_spec piece Hne) as [os [Hrun [_ Hin]]].
  exists os. split; [exact Hrun|].
  intros o Ho. apply Hin in Ho as [g [_ ->]].
  assert (Hm : map (apply g) piece <> []).
  { destruct piece; [contradiction|discriminate]. }
  destruct (canonical_origin _ Hm) as [Hhd Hle].
  split; [exact Hhd|]. split; [apply canonical_sorted|]. split; [exact Hle|].
  apply canonical_minima. exact Hm.
Qed.

Lemma orientations_start_at_origin_witness :
  exists os,
    generate_rotations Pieces.z = Ok os /\
    forall o, In o os ->
      (exists rest, o = (0, 0, 0) :: rest) /\
      StronglySorted cell_le o /\
      (forall c, In c o -> cell_le (0, 0, 0) c) /\
      exists min_y min_z,
        axis_min proj_x o = Some 0 /\
        axis_min proj_y o = Some min_y /\ min_y <= 0 /\
        axis_min proj_z o = Some min_z /\ min_z <= 0.
Proof.
  apply (orientations_start_at_origin Pieces.z).
  unfold pieces. simpl. tauto.
Defined.

(** The second orientation of the first piece has a cell with a negative
    z-coordinate, so its minimum along the z axis is not 0. *)
Lemma canonical_minimum_counterexample :
  In Pieces.z pieces /\
  exists os o,
    generate_rotations Pieces.z = Ok os /\
    nth_error os 1 = Some o /\
    o = [(0, 0, 0); (1, 0, -1); (1, 0, 0); (2, 0, -1)] /\
    In (1, 0, -1) o /\
    axis_min proj_z o = Some (-1).
Proof.
  split; [left; reflexivity|].
  eexists. eexists. split; [vm_compute; reflexivity|].
  split; [reflexivity|]. split; [reflexivity|].
  split; [right; left; reflexivity|reflexivity].
Qed.



(** ** Dictionaries and sets *)

Section DictFacts.
Context {K V : Type} (eqb : K -> K -> bool).
Hypothesis eqb_eq : forall k k', eqb k k' = true <-> k = k'.

Lemma eqb_refl' (k : K) : eqb k k = true.
Proof. apply eqb_eq. reflexivity. Qed.

Lemma eqb_false (k k' : K) : k <> k' -> eqb k k' = false.
Proof.
  intros H. destruct (eqb k k') eqn:E; [|reflexivity].
  apply eqb_eq in E. contradiction.
Qed.

Lemma dict_get_In (d : list (K * V)) k v : dict_get eqb d k = Some v -> In (k, v) d.
Proof.
  induction d as [|[k' v'] rest IH]; simpl; [discriminate|].
  destruct (eqb k k') eqn:E.
  - apply eqb_eq in E. intros [= ->]. left. congruence.
  - intros H. right. auto.
Qed.

Lemma dict_get_None (d : list (K * V)) k :
  dict_get eqb d k = None <-> ~ In k (map fst d).
Proof.
  induction d as [|[k' v'] rest IH]; simpl; [tauto|].
  destruct (eqb k k') eqn:E.
  - apply eqb_eq in E. split; [discriminate|]. intros H. exfalso. apply H. auto.
  - rewrite IH. split; [|tauto]. intros H [H1|H1]; [|contradiction].
    subst. rewrite eqb_refl' in E. discriminate.
Qed.

Lemma dict_In_get (d : list (K * V)) k v :
  NoDup (map fst d) -> In (k, v) d -> dict_get eqb d k = Some v.
Proof.
  induction d as [|[k' v'] rest IH]; simpl; intros Hnd Hin; [destruct Hin|].
  inversion Hnd as [|? ? Hk Hrest]; subst.
  destruct Hin as [[= -> ->]|Hin].
  - rewrite eqb_refl'. reflexivity.
  - destruct (eqb k k') eqn:E; [|auto].
    apply eqb_eq in E. subst. exfalso. apply Hk.
    apply in_map_iff. exists (k', v). auto.
Qed.

Lemma dict_set_fresh (d : list (K * V)) k v :
  dict_get eqb d k = None -> dict_set eqb d k v = d ++ [(k, v)].
Proof.
  induction d as [|[k' v'] rest IH]; simpl; [reflexivity|].
  destruct (eqb k k'); [discriminate|]. intros H. rewrite IH; auto.
Qed.

Lemma dict_get_set_same (d : list (K * V)) k v :
  dict_get eqb (dict_set eqb d k v) k = Some v.
Proof.
  induction d as [|[k' v'] rest IH]; simpl.
  - rewrite eqb_refl'. reflexivity.
  - destruct (eqb k k') eqn:E; simpl; rewrite E; auto.
Qed.

Lemma dict_get_set_other (d : list (K * V)) k v k' :
  k' <> k -> dict_get eqb (dict_set eqb d k v) k' = dict_get eqb d k'.
Proof.
  intros Hne. induction d as [|[k1 v1] rest IH]; simpl.
  - rewrite eqb_false; auto.
  - destruct (eqb k k1) eqn:E; simpl.
    + apply eqb_eq in E. subst. rewrite eqb_false; auto.
    + rewrite IH. reflexivity.
Qed.

Lemma dict_set_keys (d : list (K * V)) k v :
  map fst (dict_set eqb d k v)
  = match dict_get eqb d k with
    | Some _ => map fst d
    | None => map fst d ++ [k]
    end.
Proof.
  induction d as [|[k' v'] rest IH]; simpl; [reflexivity|].
  destruct (eqb k k') eqn:E; simpl; [reflexivity|].
  rewrite IH. destruct (dict_get eqb rest k); reflexivity.
Qed.

Lemma dict_set_keys_NoDup (d : list (K * V)) k v :
  NoDup (map fst d) -> NoDup (map fst (dict_set eqb d k v)).
Proof.
  intros Hnd. rewrite dict_set_keys.
  destruct (dict_get eqb d k) eqn:E; [exact Hnd|].
  apply dict_get_None in E.
  apply NoDup_app; [exact Hnd|repeat constructor; intros []|].
  intros k' H1 [<-|[]]. contradiction.
Qed.

Lemma dict_set_In (d : list (K * V)) k v k' v' :
  In (k', v') (dict_set eqb d k v) -> (k' = k /\ v' = v) \/ In (k', v') d.
Proof.
  induction d as [|[k1 v1] rest IH]; simpl.
  - intros [[= <- <-]|[]]. auto.
  - destruct (eqb k k1) eqn:E; simpl.
    + apply eqb_eq in E. subst. intros [[= <- <-]|H]; auto.
    + intros [H|H]; [auto|]. destruct (IH H); auto.
Qed.
End DictFacts.

Section FindFacts.
Context {K : Type} (eqb : K -> K -> bool).
Hypothesis eqb_eq : forall k k', eqb k k' = true <-> k = k'.

Lemma dict_find_set_same (d : list (K * list Z)) k s :
  dict_find eqb (dict_set eqb d k s) k = s.
Proof. unfold dict_find. rewrite dict_get_set_same; auto. Qed.

Lemma dict_find_set_other (d : list (K * list Z)) k s k' :
  k' <> k -> dict_find eqb (dict_set eqb d k s) k' = dict_find eqb d k'.
Proof. intros H. unfold dict_find. rewrite dict_get_set_other; auto. Qed.
End FindFacts.

Lemma set_add_In (v : Z) (s : list Z) (x : Z) :
  In x (set_add v s) <-> In x s \/ x = v.
Proof.
  unfold set_add. destruct (existsb (Z.eqb v) s) eqn:E.
  - apply existsb_exists in E as [y [Hy E]]. apply Z.eqb_eq in E. subst y.
    split; [auto|]. intros [H| ->]; assumption.
  - rewrite in_app_iff. simpl. intuition congruence.
Qed.

Lemma set_add_NoDup (v : Z) (s : list Z) : NoDup s -> NoDup (set_add v s).
Proof.
  intros Hnd. unfold set_add. destruct (existsb (Z.eqb v) s) eqn:E; [exact Hnd|].
  apply NoDup_app; [exact Hnd|repeat constructor; intros []|].
  intros x Hx [<-|[]].
  assert (existsb (Z.eqb v) s = true); [|congruence].
  apply existsb_exists. exists v. split; [exact Hx|apply Z.eqb_refl].
Qed.

Lemma set_add_nonempty (v : Z) (s : list Z) : set_add v s <> [].
Proof.
  intros E. assert (H : In v (set_add v s)) by (apply set_add_In; auto).
  rewrite E in H. destruct H.
Qed.

(** ** The placement enumerator *)

Lemma in_bounds_volume (c : cell) : in_bounds c = true <-> in_volume c.
Proof.
  destruct c as [[x y] z]. unfold in_bounds, in_volume.
  rewrite !andb_true_iff, !Z.leb_le, !Z.ltb_lt. tauto.
Qed.

Lemma forallb_in_bounds (cs : list cell) :
  forallb in_bounds cs = true <-> Forall in_volume cs.
Proof.
  rewrite forallb_forall, Forall_forall.
  split; intros H c Hc; apply in_bounds_volume; auto.
Qed.

Lemma add_by_cell_set (var : Z) (d : list (cell * list Z)) (c : cell) :
  add_by_cell var d c
  = dict_set cell_eqb d c (set_add var (dict_find cell_eqb d c)).
Proof.
  unfold add_by_cell, dict_find. destruct (dict_get cell_eqb d c); reflexivity.
Qed.

(** The effect of [for cell in adjusted: placements_by_cell[cell].add(var)]. *)
Lemma fold_add_by_cell (var : Z) (cells : list cell) (d : list (cell * list Z)) :
  NoDup (map fst d) ->
  (forall c vars, In (c, vars) d -> vars <> []) ->
  (forall c, NoDup (dict_find cell_eqb d c)) ->
  let d' := fold_left (add_by_cell var) cells d in
  NoDup (map fst d') /\
  (forall c vars, In (c, vars) d' -> vars <> []) /\
  (forall c, NoDup (dict_find cell_eqb d' c)) /\
  (forall c v, In v (dict_find cell_eqb d' c) <->
               In v (dict_find cell_eqb d c) \/ (v = var /\ In c cells)).
Proof.
  revert d. induction cells as [|c0 cells IH]; intros d Hk Hne Hnd; simpl.
  - repeat (split; [assumption|]). intros c v. tauto.
  - set (d1 := add_by_cell var d c0).
    assert (E : d1 = dict_set cell_eqb d c0 (set_add var (dict_find cell_eqb d c0)))
      by apply add_by_cell_set.
    assert (Hfind : forall c, dict_find cell_eqb d1 c
                              = if cell_eqb c c0
                                then set_add var (dict_find cell_eqb d c0)
                                else dict_find cell_eqb d c).
    { intros c. rewrite E. destruct (cell_eqb c c0) eqn:Ec.
      - apply cell_eqb_eq in Ec. subst.
        apply (dict_find_set_same cell_eqb cell_eqb_eq).
      - apply cell_eqb_neq in Ec.
        apply (dict_find_set_other cell_eqb cell_eqb_eq). exact Ec. }
    destruct (IH d1) as [Hk' [Hne' [Hnd' Hin']]].
    + rewrite E. apply (dict_set_keys_NoDup cell_eqb cell_eqb_eq). exact Hk.
    + intros c vars H. rewrite E in H.
      apply (dict_set_In cell_eqb cell_eqb_eq) in H as [[_ ->]|H].
      * apply set_add_nonempty.
      * eapply Hne; eauto.
    + intros c. rewrite Hfind. destruct (cell_eqb c c0); [|apply Hnd].
      apply set_add_NoDup, Hnd.
    + repeat (split; [assumption|]).
      intros c v. rewrite Hin', Hfind.
      destruct (cell_eqb c c0) eqn:Ec.
      * apply cell_eqb_eq in Ec. subst. rewrite set_add_In. intuition.
      * apply cell_eqb_neq in Ec. intuition congruence.
Qed.

(** Looking up the key of the current placement, after allocating a fresh
    variable for it when it is new (lines 84-90). *)
Lemma allocate_ok (pl : list (placement_key * Z)) (counter : Z)
    (key : placement_key) :
  placements_ok pl counter ->
  (fst key < 7)%nat -> Forall in_volume (snd key) ->
  let fresh := negb (dict_mem key_eqb pl key) in
  let pl1 := if fresh then dict_set key_eqb pl key counter else pl in
  let counter1 := if fresh then counter + 1 else counter in
  exists var,
    dict_get key_eqb pl1 key = Some var /\
    placements_ok pl1 counter1 /\
    forall k v, In (k, v) pl1 <-> In (k, v) pl \/ (k = key /\ v = var).
Proof.
  intros [Hc Hv Hk Hb] Hp Hvol. unfold dict_mem.
  destruct (dict_get key_eqb pl key) as [var|] eqn:E; simpl.
  - exists var. split; [exact E|]. split; [constructor; assumption|].
    intros k v. split; [auto|]. intros [H|[-> ->]]; [exact H|].
    apply (dict_get_In key_eqb key_eqb_eq). exact E.
  - exists counter.
    rewrite (dict_set_fresh key_eqb pl key counter E).
    split; [|split].
    + rewrite <- (dict_set_fresh key_eqb pl key counter E).
      apply (dict_get_set_same key_eqb key_eqb_eq).
    + constructor.
      * rewrite length_app. simpl. lia.
      * rewrite map_app, length_app, Hv. simpl.
        rewrite Nat.add_1_r, seq_S, map_app. simpl. f_equal. f_equal. lia.
      * rewrite map_app. simpl.
        apply NoDup_app; [exact Hk|repeat constructor; intros []|].
        intros k H1 [<-|[]].
        apply (dict_get_None key_eqb key_eqb_eq) in E. contradiction.
      * intros k v H. apply in_app_or in H as [H|[[= <- <-]|[]]]; [eauto|].
        split; assumption.
    + intros k v. rewrite in_app_iff. simpl. intuition congruence.
Qed.

(** Recording the variable in the two indexes (lines 91-93). *)
Lemma groups_step (pl pl1 : list (placement_key * Z))
    (bp : list (nat * list Z)) (bc : list (cell * list Z))
    (p : nat) (adj : orientation) (var : Z) :
  groups_ok pl bp bc -> (p < 7)%nat ->
  (forall k v, In (k, v) pl1 <-> In (k, v) pl \/ (k = (p, adj) /\ v = var)) ->
  exists bp',
    add_by_piece p var bp = Ok bp' /\
    groups_ok pl1 bp' (fold_left (add_by_cell var) adj bc).
Proof.
  intros [Hpk Hpn Hpv Hck Hcne Hcn Hcv] Hp Hin.
  unfold add_by_piece. destruct (dict_get Nat.eqb bp p) as [s|] eqn:E.
  2: { apply (dict_get_None Nat.eqb Nat.eqb_eq) in E. rewrite Hpk in E.
       exfalso. apply E. apply in_seq. lia. }
  eexists. split; [reflexivity|].
  assert (Es : s = dict_find Nat.eqb bp p) by (unfold dict_find; rewrite E; reflexivity).
  assert (Hfind : forall p', dict_find Nat.eqb (dict_set Nat.eqb bp p (set_add var s)) p'
                             = if Nat.eqb p' p then set_add var s
                               else dict_find Nat.eqb bp p').
  { intros p'. destruct (Nat.eqb p' p) eqn:Ep.
    - apply Nat.eqb_eq in Ep. subst p'. apply (dict_find_set_same Nat.eqb Nat.eqb_eq).
    - apply Nat.eqb_neq in Ep. apply (dict_find_set_other Nat.eqb Nat.eqb_eq). exact Ep. }
  destruct (fold_add_by_cell var adj bc Hck Hcne Hcn) as [Hck' [Hcne' [Hcn' Hcv']]].
  constructor; try assumption.
  - rewrite (dict_set_keys Nat.eqb), E. exact Hpk.
  - intros p'. rewrite Hfind. destruct (Nat.eqb p' p); [|apply Hpn].
    apply set_add_NoDup. subst s. apply Hpn.
  - intros p' v. rewrite Hfind. destruct (Nat.eqb p' p) eqn:Ep.
    + apply Nat.eqb_eq in Ep. subst p'. rewrite set_add_In, Es, Hpv. split.
      * intros [[a H]| ->].
        -- exists a. apply Hin. left. exact H.
        -- exists adj. apply Hin. right. auto.
      * intros [a H]. apply Hin in H as [H|[[= <-] ->]].
        -- left. exists a. exact H.
        -- right. reflexivity.
    + apply Nat.eqb_neq in Ep. rewrite Hpv. split; intros [a H]; exists a.
      * apply Hin. left. exact H.
      * apply Hin in H as [H|[[= ? ?] _]]; [exact H|congruence].
  - intros c v. rewrite Hcv', Hcv. split.
    + intros [[k [H1 H2]]|[-> Hc]].
      * exists k. split; [apply Hin; left; exact H1|exact H2].
      * exists (p, adj). split; [apply Hin; right; auto|exact Hc].
    + intros [k [H1 H2]]. apply Hin in H1 as [H1|[-> ->]].
      * left. exists k. auto.
      * right. auto.
Qed.

(** One iteration of the innermost loop: it does not raise, it keeps the
    invariant and the entries already in [placements], and when the
    translated cells fit the volume their key is in [placements]
    afterwards. *)
Lemma place_spec (anchor : cell) (piece : nat) (orient : orientation)
    (base : cell) (st : tables) :
  invariant st -> (piece < 7)%nat ->
  exists st',
    place anchor piece orient base st = Ok st' /\
    invariant st' /\
    (forall k v, In (k, v) (placements st) -> In (k, v) (placements st')) /\
    (forallb in_bounds (adjusted_cells anchor orient base) = true ->
     exists v, In ((piece, adjusted_cells anchor orient base), v) (placements st')).
Proof.
  intros [Hpl Hgr] Hp.
  destruct anchor as [[a0 a1] a2], base as [[b0 b1] b2].
  unfold place, adjusted_cells.
  set (adj := sorted _).
  destruct (forallb in_bounds adj) eqn:B.
  2: { exists st. split; [reflexivity|]. split; [split; assumption|].
       split; [auto|discriminate]. }
  assert (Hvol : Forall in_volume adj) by (apply forallb_in_bounds; exact B).
  destruct (allocate_ok (placements st) (var_counter st) (piece, adj) Hpl Hp Hvol)
    as [var [Hget [Hpl1 Hin1]]].
  destruct (dict_mem key_eqb (placements st) (piece, adj)) eqn:M;
    simpl in Hget, Hpl1, Hin1; cbv zeta; simpl placements; rewrite Hget;
    simpl placements_by_piece; simpl placements_by_cell;
    destruct (groups_step _ _ _ _ piece adj var Hgr Hp Hin1) as [bp' [Ebp Hgr']];
    rewrite Ebp; simpl; eexists; (split; [reflexivity|]); simpl.
  - split; [split; assumption|]. split; [auto|].
    intros _. exists var. apply Hin1. right. auto.
  - split; [split; assumption|]. split.
    + intros k v H. apply Hin1. left. exact H.
    + intros _. exists var. apply Hin1. right. auto.
Qed.

(** A loop that keeps [P] and whose iteration [x] establishes the stable
    property [Q x] ends in a state where [Q x] holds for every [x]. *)
Lemma for_each_establishes {A S : Type} (P : S -> Prop) (Q : A -> S -> Prop)
    (xs : list A) (body : A -> S -> result S) :
  (forall x s, In x xs -> P s ->
     exists s', body x s = Ok s' /\ P s' /\ Q x s' /\ forall y, Q y s -> Q y s') ->
  forall s, P s ->
    exists s', for_each xs body s = Ok s' /\ P s' /\
               (forall x, In x xs -> Q x s') /\ forall y, Q y s -> Q y s'.
Proof.
  induction xs as [|x xs IH]; intros Hbody s Hs; simpl.
  - exists s. split; [reflexivity|]. split; [exact Hs|]. split; [intros x []|auto].
  - destruct (Hbody x s) as [s1 [E [P1 [Q1 M1]]]]; [left; reflexivity|exact Hs|].
    rewrite E. simpl.
    destruct (IH (fun y t Hy => Hbody y t (or_intror Hy)) s1 P1)
      as [s' [E' [P' [Q' M']]]].
    exists s'. split; [exact E'|]. split; [exact P'|]. split.
    + intros y [<-|Hy]; [apply M'; exact Q1|apply Q'; exact Hy].
    + intros y Hy. apply M', M1. exact Hy.
Qed.

Lemma subscript_nth {A : Type} (xs : list A) (i : nat) (d : A) :
  (i < List.length xs)%nat -> subscript xs i = Ok (nth i xs d).
Proof.
  intros H. unfold subscript. rewrite (nth_error_nth' xs d H). reflexivity.
Qed.

Lemma subscript_out_of_range {A : Type} (xs : list A) (i : nat) :
  (List.length xs <= i)%nat -> subscript xs i = Raise IndexError.
Proof.
  intros H. unfold subscript. apply nth_error_None in H. rewrite H. reflexivity.
Qed.

(** With an entry for each of the seven piece numbers, the four nested loops
    run through [iterations] in order. *)
Lemma generate_placements_loop (orientations : list (list orientation)) :
  (7 <= List.length orientations)%nat ->
  generate_placements orientations
  = for_each (iterations orientations) place_iteration initial_tables.
Proof.
  intros Hlen. unfold generate_placements, iterations. symmetry.
  rewrite for_each_flat_map. apply for_each_ext. intros anchor st _.
  rewrite for_each_flat_map. apply for_each_ext. intros piece st' Hpiece.
  apply in_seq in Hpiece.
  rewrite (subscript_nth orientations piece []) by lia. simpl.
  rewrite for_each_flat_map. apply for_each_ext. intros orient st'' _.
  rewrite for_each_map. reflexivity.
Qed.

Lemma iterations_In (orientations : list (list orientation))
    (anchor : cell) (piece : nat) (orient : orientation) (base : cell) :
  In (anchor, piece, orient, base) (iterations orientations) <->
  In anchor coordinates /\ (piece < 7)%nat /\
  In orient (nth piece orientations []) /\ In base orient.
Proof.
  unfold iterations. split.
  - intros H.
    apply in_flat_map in H as [a [Ha H]]. apply in_flat_map in H as [p [Hp H]].
    apply in_flat_map in H as [o [Ho H]]. apply in_map_iff in H as [b [[= <- <- <- <-] Hb]].
    apply in_seq in Hp. repeat split; try assumption; lia.
  - intros [Ha [Hp [Ho Hb]]].
    apply in_flat_map; exists anchor; split; [exact Ha|].
    apply in_flat_map; exists piece; split; [apply in_seq; lia|].
    apply in_flat_map; exists orient; split; [exact Ho|].
    apply in_map_iff. exists base. split; [reflexivity|exact Hb].
Qed.

Lemma initial_invariant : invariant initial_tables.
Proof.
  assert (Hfind : forall p, dict_find Nat.eqb (placements_by_piece initial_tables) p = []).
  { intros p. do 7 (destruct p as [|p]; [reflexivity|]). reflexivity. }
  split; constructor; simpl.
  - reflexivity.
  - reflexivity.
  - constructor.
  - intros k v [].
  - reflexivity.
  - intros p. rewrite Hfind. constructor.
  - intros p v. rewrite Hfind. split; [intros []|intros [adj []]].
  - constructor.
  - intros c vars [].
  - intros c. constructor.
  - intros c v. split; [intros []|intros [k [[] _]]].
Qed.

(** [generate_placements] returns, with tables that satisfy the invariant
    and hold the key of every translated orientation that fits the
    volume. *)
Lemma generate_placements_spec (orientations : list (list orientation)) :
  (7 <= List.length orientations)%nat ->
  exists st,
    generate_placements orientations = Ok st /\
    invariant st /\
    forall anchor piece orient base,
      In (anchor, piece, orient, base) (iterations orientations) ->
      forallb in_bounds (adjusted_cells anchor orient base) = true ->
      exists v, In ((piece, adjusted_cells anchor orient base), v) (placements st).
Proof.
  intros Hlen. rewrite (generate_placements_loop orientations Hlen).
  destruct (for_each_establishes invariant
              (fun it st =>
                 let '(anchor, piece, orient, base) := it in
                 forallb in_bounds (adjusted_cells anchor orient base) = true ->
                 exists v, In ((piece, adjusted_cells anchor orient base), v)
                              (placements st))
              (iterations orientations) place_iteration)
    with (s := initial_tables) as [st [E [Hinv [HQ _]]]].
  - intros [[[anchor piece] orient] base] st Hin Hst.
    apply iterations_In in Hin as [_ [Hp _]].
    destruct (place_spec anchor piece orient base st Hst Hp)
      as [st' [E [Hinv [Hmono Hkey]]]].
    exists st'. split; [exact E|]. split; [exact Hinv|]. split; [exact Hkey|].
    intros [[[a p] o] b] Hy Hb. destruct (Hy Hb) as [v Hv]. exists v. auto.
  - exact initial_invariant.
  - exists st. split; [exact E|]. split; [exact Hinv|].
    intros anchor piece orient base Hin. exact (HQ _ Hin).
Qed.

(** With fewer than seven entries in [orientations] the subscript on
    line 74 raises during the first pass over the pieces. *)
Lemma generate_placements_short : generate_placements [] = Raise IndexError.
Proof. reflexivity. Qed.

Lemma NoDup_map_snd_inj {A B : Type} (l : list (A * B)) a1 a2 b :
  NoDup (map snd l) -> In (a1, b) l -> In (a2, b) l -> a1 = a2.
Proof.
  induction l as [|[a' b'] l IH]; simpl; intros Hnd H1 H2; [destruct H1|].
  inversion Hnd as [|? ? Hb Hrest]; subst.
  assert (Hsnd : forall a, In (a, b') l -> In b' (map snd l)).
  { intros a H. apply in_map_iff. exists (a, b'). auto. }
  destruct H1 as [E1|H1], H2 as [E2|H2].
  - congruence.
  - injection E1 as -> ->. exfalso. eauto.
  - injection E2 as -> ->. exfalso. eauto.
  - auto.
Qed.

Lemma NoDup_map_fst_inj {A B : Type} (l : list (A * B)) a b1 b2 :
  NoDup (map fst l) -> In (a, b1) l -> In (a, b2) l -> b1 = b2.
Proof.
  induction l as [|[a' b'] l IH]; simpl; intros Hnd H1 H2; [destruct H1|].
  inversion Hnd as [|? ? Ha Hrest]; subst.
  assert (Hfst : forall b, In (a', b) l -> In a' (map fst l)).
  { intros b H. apply in_map_iff. exists (a', b). auto. }
  destruct H1 as [E1|H1], H2 as [E2|H2].
  - congruence.
  - injection E1 as -> ->. exfalso. eauto.
  - injection E2 as -> ->. exfalso. eauto.
  - auto.
Qed.

Lemma values_NoDup (n : nat) : NoDup (map Z.of_nat (seq 1 n)).
Proof.
  apply Injective_map_NoDup; [|apply seq_NoDup].
  intros x y. apply Nat2Z.inj.
Qed.

Lemma values_In (n : nat) (v : Z) :
  In v (map Z.of_nat (seq 1 n)) <-> 1 <= v <= Z.of_nat n.
Proof.
  rewrite in_map_iff. split.
  - intros [i [<- Hi]]. apply in_seq in Hi. lia.
  - intros H. exists (Z.to_nat v). split; [lia|]. apply in_seq. lia.
Qed.

(** C6. The dictionary [placements] is a bijection between its keys (piece,
    occupied cells) and the variables 1 .. num_vars: no two keys share a
    variable, no key has two variables, the variables are exactly the
    integers from 1 to num_vars, in order of allocation, and every
    translated orientation that fits the volume, from whichever anchor and
    reference cell it is reached, has exactly one variable. *)
Theorem placement_variables_bijective (orientations : list (list orientation)) :
  (7 <= List.length orientations)%nat ->
  exists st,
    generate_placements orientations = Ok st /\
    let pl := placements st in
    let num_vars := var_counter st - 1 in
    (forall k1 k2 v, In (k1, v) pl -> In (k2, v) pl -> k1 = k2) /\
    (forall k v1 v2, In (k, v1) pl -> In (k, v2) pl -> v1 = v2) /\
    (forall v, (exists k, In (k, v) pl) <-> 1 <= v <= num_vars) /\
    map snd pl = map Z.of_nat (seq 1 (List.length pl)) /\
    num_vars = Z.of_nat (List.length pl) /\
    NoDup (map fst pl) /\
    forall anchor piece orient base,
      In anchor coordinates -> (piece < 7)%nat ->
      In orient (nth piece orientations []) -> In base orient ->
      forallb in_bounds (adjusted_cells anchor orient base) = true ->
      exists! v, In ((piece, adjusted_cells anchor orient base), v) pl.
Proof.
  intros Hlen.
  destruct (generate_placements_spec orientations Hlen)
    as [st [Hrun [[[Hc Hv Hk Hb] _] Hkeys]]].
  exists st. split; [exact Hrun|]. cbv zeta.
  split; [|split; [|split; [|split; [|split; [|split]]]]].
  - intros k1 k2 v. apply NoDup_map_snd_inj. rewrite Hv. apply values_NoDup.
  - intros k v1 v2. apply NoDup_map_fst_inj. exact Hk.
  - intros v. rewrite Hc.
    replace (Z.of_nat (List.length (placements st)) + 1 - 1)
      with (Z.of_nat (List.length (placements st))) by lia.
    rewrite <- values_In, <- Hv, in_map_iff. split.
    + intros [k H]. exists (k, v). auto.
    + intros [[k v'] [E H]]. simpl in E. subst. exists k. exact H.
  - exact Hv.
  - lia.
  - exact Hk.
  - intros anchor piece orient base Ha Hp Ho Hbase Hfit.
    destruct (Hkeys anchor piece orient base) as [v Hin]; [|exact Hfit|].
    { apply iterations_In. auto. }
    exists v. split; [exact Hin|].
    intros v' Hin'. eapply NoDup_map_fst_inj; eauto.
Qed.

(** C7. Every cell of every key stored in [placements] has its three
    coordinates in the range [0, 3). *)
Theorem placements_within_volume (orientations : list (list orientation)) :
  (7 <= List.length orientations)%nat ->
  exists st,
    generate_placements orientations = Ok st /\
    forall piece adjusted v x y z,
      In ((piece, adjusted), v) (placements st) ->
      In (x, y, z) adjusted ->
      0 <= x < 3 /\ 0 <= y < 3 /\ 0 <= z < 3.
Proof.
  intros Hlen.
  destruct (generate_placements_spec orientations Hlen)
    as [st [Hrun [[[_ _ _ Hb] _] _]]].
  exists st. split; [exact Hrun|].
  intros piece adjusted v x y z Hin Hc.
  destruct (Hb _ _ Hin) as [_ Hvol]. simpl in Hvol.
  rewrite Forall_forall in Hvol. exact (Hvol _ Hc).
Qed.

(** ** The run on the seven pieces *)

Lemma orientations_run : orientations_of pieces = Ok soma_orientations.
Proof. vm_compute. reflexivity. Qed.

Lemma soma_orientations_length : List.length soma_orientations = 7%nat.
Proof. reflexivity. Qed.

Lemma placements_run : generate_placements soma_orientations = Ok soma_tables.
Proof. vm_compute. reflexivity. Qed.

Lemma soma_run :
  soma pieces
  = Ok (placements soma_tables, soma_clauses, soma_num_vars, var_names soma_tables).
Proof.
  unfold soma. rewrite orientations_run. unfold bind, generate_sat_instance.
  rewrite placements_run. reflexivity.
Qed.

Lemma soma_invariant : invariant soma_tables.
Proof.
  destruct (generate_placements_spec soma_orientations) as [st [Hrun [Hinv _]]].
  - rewrite soma_orientations_length. lia.
  - rewrite placements_run in Hrun. injection Hrun as <-. exact Hinv.
Qed.

Lemma placement_variables_bijective_witness :
  exists st,
    generate_placements soma_orientations = Ok st /\
    let pl := placements st in
    let num_vars := var_counter st - 1 in
    (forall k1 k2 v, In (k1, v) pl -> In (k2, v) pl -> k1 = k2) /\
    (forall k v1 v2, In (k, v1) pl -> In (k, v2) pl -> v1 = v2) /\
    (forall v, (exists k, In (k, v) pl) <-> 1 <= v <= num_vars) /\
    map snd pl = map Z.of_nat (seq 1 (List.length pl)) /\
    num_vars = Z.of_nat (List.length pl) /\
    NoDup (map fst pl) /\
    forall anchor piece orient base,
      In anchor coordinates -> (piece < 7)%nat ->
      In orient (nth piece soma_orientations []) -> In base orient ->
      forallb in_bounds (adjusted_cells anchor orient base) = true ->
      exists! v, In ((piece, adjusted_cells anchor orient base), v) pl.
Proof.
  apply (placement_variables_bijective soma_orientations).
  simpl. lia.
Defined.

Lemma placements_within_volume_witness :
  exists st,
    generate_placements soma_orientations = Ok st /\
    forall piece adjusted v x y z,
      In ((piece, adjusted), v) (placements st) ->
      In (x, y, z) adjusted ->
      0 <= x < 3 /\ 0 <= y < 3 /\ 0 <= z < 3.
Proof.
  apply (placements_within_volume soma_orientations).
  simpl. lia.
Defined.

(** ** The clauses of the formula *)

Lemma fold_extend {K : Type} (groups : list (K * list Z)) (init : list clause) :
  fold_left (fun clauses '(_, vars) => clauses ++ exactly_one vars) groups init
  = init ++ flat_map (fun e => exactly_one (snd e)) groups.
Proof.
  revert init. induction groups as [|[k vars] groups IH]; intros init; simpl.
  - rewrite app_nil_r. reflexivity.
  - rewrite IH, app_assoc. reflexivity.
Qed.

(** The formula is the concatenation of the clauses of the piece groups,
    then of the cell groups. *)
Lemma encode_flat (by_piece : list (nat * list Z)) (by_cell : list (cell * list Z)) :
  encode by_piece by_cell
  = flat_map (fun e => exactly_one (snd e)) by_piece
    ++ flat_map (fun e => exactly_one (snd e)) by_cell.
Proof.
  unfold encode. rewrite !fold_extend. reflexivity.
Qed.

Lemma encode_In (by_piece : list (nat * list Z)) (by_cell : list (cell * list Z))
    (cl : clause) :
  In cl (encode by_piece by_cell) <->
  (exists piece vars, In (piece, vars) by_piece /\ In cl (exactly_one vars)) \/
  (exists c vars, In (c, vars) by_cell /\ In cl (exactly_one vars)).
Proof.
  rewrite encode_flat, in_app_iff, !in_flat_map. split.
  - intros [[[p vars] [H1 H2]]|[[c vars] [H1 H2]]]; [left|right]; eauto.
  - intros [[p [vars [H1 H2]]]|[c [vars [H1 H2]]]]; [left|right];
      eexists (_, vars); eauto.
Qed.

Lemma exactly_one_In (variables : list Z) (cl : clause) :
  variables <> [] ->
  (In cl (exactly_one variables) <->
   cl = variables \/
   exists i j, (i < j < List.length variables)%nat /\
               cl = negated_pair variables (i, j)).
Proof.
  intros Hne. rewrite (exactly_one_unfold variables Hne).
  destruct (index_pairs_spec (List.length variables)) as [_ [_ Hin]].
  simpl. rewrite in_map_iff. split.
  - intros [H|[[i j] [H1 H2]]]; [left; congruence|right].
    exists i, j. split; [apply Hin; exact H2|congruence].
  - intros [H|[i [j [H1 H2]]]]; [left; congruence|right].
    exists (i, j). split; [congruence|apply Hin; exact H1].
Qed.

Lemma var_at_In (variables : list Z) (i : nat) :
  (i < List.length variables)%nat -> In (var_at variables i) variables.
Proof. intros H. unfold var_at. apply nth_In. exact H. Qed.

(** No clause of [exactly_one] is empty, and every literal is a variable of
    the group or the negation of one. *)
Lemma exactly_one_literals (variables : list Z) (cl : clause) :
  In cl (exactly_one variables) ->
  cl <> [] /\
  forall lit, In lit cl -> exists v, In v variables /\ (lit = v \/ lit = - v).
Proof.
  intros H. destruct variables as [|v0 rest] eqn:E; [destruct H|].
  rewrite <- E in *. assert (Hne : variables <> []) by (rewrite E; discriminate).
  apply (exactly_one_In variables cl Hne) in H as [->|[i [j [Hij ->]]]].
  - split; [exact Hne|]. intros lit Hlit. exists lit. auto.
  - split; [discriminate|]. unfold negated_pair. simpl.
    intros lit [<-|[<-|[]]].
    + exists (var_at variables i). split; [apply var_at_In; lia|auto].
    + exists (var_at variables j). split; [apply var_at_In; lia|auto].
Qed.

(** *** Meaning of the clauses *)

Lemma eval_positive (sigma : assignment) (v : Z) :
  0 < v -> eval_literal sigma v = sigma v.
Proof.
  intros H. unfold eval_literal.
  destruct (0 <? v) eqn:E; [reflexivity|]. apply Z.ltb_ge in E. lia.
Qed.

Lemma eval_negative (sigma : assignment) (v : Z) :
  0 < v -> eval_literal sigma (- v) = negb (sigma v).
Proof.
  intros H. unfold eval_literal.
  destruct (0 <? - v) eqn:E; [apply Z.ltb_lt in E; lia|].
  rewrite Z.opp_involutive. reflexivity.
Qed.

Lemma filter_nil_none {A : Type} (f : A -> bool) (xs : list A) :
  filter f xs = [] <-> forall x, In x xs -> f x = false.
Proof.
  induction xs as [|x xs IH]; simpl; [tauto|].
  destruct (f x) eqn:E.
  - split; [discriminate|]. intros H. specialize (H x (or_introl eq_refl)). congruence.
  - rewrite IH. split.
    + intros H y [<-|Hy]; auto.
    + intros H y Hy. apply H. right. exact Hy.
Qed.

(** Two true entries of a list sit at two of its positions. *)
Lemma two_true_positions (sigma : assignment) (vs : list Z) :
  (2 <= List.length (filter sigma vs))%nat ->
  exists i j, (i < j < List.length vs)%nat /\
              sigma (nth i vs 0) = true /\ sigma (nth j vs 0) = true.
Proof.
  induction vs as [|v vs IH]; simpl; [lia|].
  destruct (sigma v) eqn:E; simpl; intros H.
  - destruct (filter sigma vs) as [|w ws] eqn:F; [simpl in H; lia|].
    assert (Hw : In w (filter sigma vs)) by (rewrite F; left; reflexivity).
    apply filter_In in Hw as [Hw Sw].
    destruct (In_nth vs w 0 Hw) as [j [Hj Ej]].
    exists 0%nat, (S j). simpl. rewrite Ej. repeat split; try lia; assumption.
  - destruct (IH H) as [i [j [Hij [Si Sj]]]].
    exists (S i), (S j). simpl. repeat split; try lia; assumption.
Qed.

(** When exactly one variable of a group is true, every clause of the group
    holds... *)
Lemma exactly_one_sound (sigma : assignment) (vs : list Z) :
  NoDup vs -> (forall v, In v vs -> 0 < v) ->
  List.length (filter sigma vs) = 1%nat ->
  forall cl, In cl (exactly_one vs) -> eval_clause sigma cl = true.
Proof.
  intros Hnd Hpos Hone cl Hcl.
  assert (Hne : vs <> []) by (intros ->; simpl in Hone; discriminate).
  apply (exactly_one_In vs cl Hne) in Hcl as [->|[i [j [Hij ->]]]].
  - destruct (filter sigma vs) as [|w ws] eqn:F; [discriminate|].
    assert (Hw : In w (filter sigma vs)) by (rewrite F; left; reflexivity).
    apply filter_In in Hw as [Hw Sw].
    unfold eval_clause. apply existsb_exists. exists w. split; [exact Hw|].
    rewrite eval_positive; auto.
  - unfold negated_pair, eval_clause. simpl.
    assert (Hi : In (var_at vs i) vs) by (apply var_at_In; lia).
    assert (Hj : In (var_at vs j) vs) by (apply var_at_In; lia).
    rewrite !eval_negative by auto.
    destruct (sigma (var_at vs i)) eqn:Si; [|reflexivity].
    destruct (sigma (var_at vs j)) eqn:Sj; [|reflexivity].
    exfalso.
    assert (Hneq : var_at vs i <> var_at vs j).
    { intros E. apply (proj1 (NoDup_nth vs 0) Hnd) in E; lia. }
    assert (H2 : (2 <= List.length (filter sigma vs))%nat).
    { apply (NoDup_incl_length (l := [var_at vs i; var_at vs j])).
      - constructor; [intros [H|[]]; congruence|repeat constructor; intros []].
      - intros x [<-|[<-|[]]]; apply filter_In; auto. }
    lia.
Qed.

(** ... and when none or several are true, some clause of the group
    fails. *)
Lemma exactly_one_complete (sigma : assignment) (vs : list Z) :
  vs <> [] -> (forall v, In v vs -> 0 < v) ->
  List.length (filter sigma vs) <> 1%nat ->
  exists cl, In cl (exactly_one vs) /\ eval_clause sigma cl = false.
Proof.
  intros Hne Hpos Hcount.
  destruct (List.length (filter sigma vs)) as [|[|n]] eqn:L; [| congruence |].
  - exists vs. split; [apply exactly_one_In; auto|].
    apply length_zero_iff_nil in L.
    unfold eval_clause. apply not_true_is_false. intros H.
    apply existsb_exists in H as [v [Hv Ev]].
    rewrite eval_positive in Ev by auto.
    rewrite (proj1 (filter_nil_none sigma vs) L v Hv) in Ev. discriminate.
  - destruct (two_true_positions sigma vs) as [i [j [Hij [Si Sj]]]]; [lia|].
    exists (negated_pair vs (i, j)). split.
    + apply exactly_one_In; [exact Hne|]. right. exists i, j. auto.
    + unfold negated_pair, eval_clause. simpl.
      rewrite !eval_negative by (apply Hpos, var_at_In; lia).
      unfold var_at. rewrite Si, Sj. reflexivity.
Qed.

(** ** Groups and clauses of the generated formula *)

Lemma piece_group_entry (st : tables) (piece : nat) (vars : list Z) :
  invariant st -> In (piece, vars) (placements_by_piece st) ->
  (piece < 7)%nat /\ vars = piece_vars st piece.
Proof.
  intros [_ [Hk _ _ _ _ _ _]] Hin. split.
  - assert (H : In piece (map fst (placements_by_piece st))).
    { apply in_map_iff. exists (piece, vars). auto. }
    rewrite Hk in H. apply in_seq in H. lia.
  - unfold piece_vars, dict_find.
    rewrite (dict_In_get Nat.eqb Nat.eqb_eq _ piece vars); [reflexivity| |exact Hin].
    rewrite Hk. apply seq_NoDup.
Qed.

Lemma cell_group_entry (st : tables) (c : cell) (vars : list Z) :
  invariant st -> In (c, vars) (placements_by_cell st) ->
  vars <> [] /\ vars = cell_vars st c.
Proof.
  intros [_ [_ _ _ Hk Hne _ _]] Hin. split; [eapply Hne; eauto|].
  unfold cell_vars, dict_find.
  rewrite (dict_In_get cell_eqb cell_eqb_eq _ c vars Hk Hin). reflexivity.
Qed.

Lemma variable_range (st : tables) (k : placement_key) (v : Z) :
  invariant st -> In (k, v) (placements st) -> 1 <= v <= var_counter st - 1.
Proof.
  intros [[Hc Hv _ _] _] Hin.
  assert (H : In v (map snd (placements st))).
  { apply in_map_iff. exists (k, v). auto. }
  rewrite Hv in H. apply values_In in H. lia.
Qed.

(** The variables of every group are variables of placements. *)
Lemma group_variable_range (st : tables) (vars : list Z) (v : Z) :
  invariant st ->
  (exists piece, In (piece, vars) (placements_by_piece st)) \/
  (exists c, In (c, vars) (placements_by_cell st)) ->
  In v vars -> 1 <= v <= var_counter st - 1.
Proof.
  intros Hinv Hgroup Hv. pose proof Hinv as [_ [_ _ Hpv _ _ _ Hcv]].
  destruct Hgroup as [[piece Hin]|[c Hin]].
  - destruct (piece_group_entry st piece vars Hinv Hin) as [_ E].
    rewrite E in Hv. apply Hpv in Hv as [adj Hv].
    eapply variable_range; eauto.
  - destruct (cell_group_entry st c vars Hinv Hin) as [_ E].
    rewrite E in Hv. apply Hcv in Hv as [k [Hv _]].
    eapply variable_range; eauto.
Qed.

(** Every clause that the encoder builds from tables satisfying the
    invariant is non-empty and refers to variables of placements. *)
Lemma encode_clauses_well_formed (st : tables) (cl : clause) :
  invariant st ->
  In cl (encode (placements_by_piece st) (placements_by_cell st)) ->
  cl <> [] /\ forall lit, In lit cl -> 1 <= Z.abs lit <= var_counter st - 1.
Proof.
  intros Hinv Hcl.
  assert (H : exists vars,
             ((exists piece, In (piece, vars) (placements_by_piece st)) \/
              (exists c, In (c, vars) (placements_by_cell st))) /\
             In cl (exactly_one vars)).
  { apply encode_In in Hcl as [[piece [vars [H1 H2]]]|[c [vars [H1 H2]]]];
      exists vars; split; eauto. }
  destruct H as [vars [Hgroup Hin]].
  destruct (exactly_one_literals vars cl Hin) as [Hne Hlits].
  split; [exact Hne|].
  intros lit Hlit. destruct (Hlits lit Hlit) as [v [Hv Hsign]].
  pose proof (group_variable_range st vars v Hinv Hgroup Hv).
  destruct Hsign as [->| ->]; lia.
Qed.

Lemma piece_groups_nonempty (piece : nat) (vars : list Z) :
  In (piece, vars) (placements_by_piece soma_tables) -> vars <> [].
Proof.
  assert (H : forallb (fun e : nat * list Z =>
                         match snd e with [] => false | _ :: _ => true end)
                      (placements_by_piece soma_tables) = true)
    by (vm_compute; reflexivity).
  rewrite forallb_forall in H. intros Hin E.
  specialize (H _ Hin). simpl in H. rewrite E in H. discriminate.
Qed.

Lemma cells_all_covered (c : cell) :
  In c coordinates -> cell_vars soma_tables c <> [].
Proof.
  assert (H : forallb (fun c => match cell_vars soma_tables c with
                               | [] => false
                               | _ :: _ => true
                               end) coordinates = true)
    by (vm_compute; reflexivity).
  rewrite forallb_forall in H. intros Hin E.
  specialize (H _ Hin). rewrite E in H. discriminate.
Qed.

Lemma dict_find_entry {K : Type} (eqb : K -> K -> bool) (d : list (K * list Z))
    (k : K) :
  (forall k k', eqb k k' = true <-> k = k') ->
  dict_find eqb d k <> [] -> In (k, dict_find eqb d k) d.
Proof.
  intros Heqb H. unfold dict_find in *.
  destruct (dict_get eqb d k) as [s|] eqn:E; [|contradiction].
  apply (dict_get_In eqb Heqb). exact E.
Qed.

(** C9. In the run on the seven pieces every piece group and every cell
    group handed to the encoder is non-empty: each piece has a placement and
    each of the 27 cells is covered by a placement.  Hence the empty-group
    branch of [exactly_one] is not taken, and every clause of the formula is
    a non-empty sequence of literals over the variables 1 .. num_vars. *)
Theorem formula_well_formed :
  soma pieces
  = Ok (placements soma_tables, soma_clauses, soma_num_vars, var_names soma_tables) /\
  0 < soma_num_vars /\
  map fst (placements_by_piece soma_tables) = seq 0 7 /\
  (forall piece vars,
     In (piece, vars) (placements_by_piece soma_tables) ->
     vars <> [] /\ exists adj v, In ((piece, adj), v) (placements soma_tables)) /\
  (forall c vars, In (c, vars) (placements_by_cell soma_tables) -> vars <> []) /\
  (forall c, In c coordinates ->
     (exists vars, In (c, vars) (placements_by_cell soma_tables)) /\
     exists k v, In (k, v) (placements soma_tables) /\ In c (snd k)) /\
  (forall cl, In cl soma_clauses ->
     cl <> [] /\ forall lit, In lit cl -> 1 <= Z.abs lit <= soma_num_vars).
Proof.
  pose proof soma_invariant as Hinv.
  pose proof Hinv as [_ [Hpk _ Hpv _ Hcne _ Hcv]].
  split; [exact soma_run|]. split; [reflexivity|]. split; [exact Hpk|].
  split; [|split; [exact Hcne|split]].
  - intros piece vars Hin.
    pose proof (piece_groups_nonempty piece vars Hin) as Hne.
    split; [exact Hne|].
    destruct (piece_group_entry _ _ _ Hinv Hin) as [_ E].
    destruct vars as [|v rest]; [contradiction|].
    assert (Hv : In v (piece_vars soma_tables piece)) by (rewrite <- E; left; reflexivity).
    apply Hpv in Hv as [adj Hv]. exists adj, v. exact Hv.
  - intros c Hc. pose proof (cells_all_covered c Hc) as Hne. split.
    + exists (cell_vars soma_tables c).
      apply (dict_find_entry cell_eqb _ c cell_eqb_eq). exact Hne.
    + destruct (cell_vars soma_tables c) as [|v rest] eqn:E; [contradiction|].
      assert (Hv : In v (cell_vars soma_tables c)) by (rewrite E; left; reflexivity).
      apply Hcv in Hv as [k [H1 H2]]. exists k, v. auto.
  - intros cl Hcl. apply (encode_clauses_well_formed soma_tables cl Hinv Hcl).
Qed.

(** ** Groups without variables *)

Lemma unfit_orientations_run : orientations_of unfit_pieces = Ok unfit_orientations.
Proof. vm_compute. reflexivity. Qed.

Lemma unfit_placements_run :
  generate_placements unfit_orientations = Ok unfit_tables.
Proof. vm_compute. reflexivity. Qed.

(** With a first piece that fits the volume in no orientation, the group of
    piece 0 is empty and the script still returns a formula. *)
Lemma empty_group_counterexample :
  In (0%nat, []) (placements_by_piece unfit_tables) /\
  soma unfit_pieces
  = Ok (placements unfit_tables,
        encode (placements_by_piece unfit_tables) (placements_by_cell unfit_tables),
        var_counter unfit_tables - 1,
        var_names unfit_tables) /\
  exactly_one [] = [].
Proof.
  split; [left; reflexivity|]. split; [|reflexivity].
  unfold soma. rewrite unfit_orientations_run. unfold bind, generate_sat_instance.
  rewrite unfit_placements_run. reflexivity.
Qed.

(** C2 (amended). A group without variables makes the encoder return no
    clause, and the formula is the one that the other groups give: nothing
    is raised for it, neither by [exactly_one] nor by
    [generate_sat_instance], which raises only when [generate_placements]
    does. *)
Theorem empty_group_emits_no_clause :
  exactly_one [] = [] /\
  (forall by_piece1 piece by_piece2 by_cell,
     encode (by_piece1 ++ (piece, []) :: by_piece2) by_cell
     = encode (by_piece1 ++ by_piece2) by_cell) /\
  (forall by_piece by_cell1 c by_cell2,
     encode by_piece (by_cell1 ++ (c, []) :: by_cell2)
     = encode by_piece (by_cell1 ++ by_cell2)) /\
  (forall orientations,
     generate_sat_instance orientations
     = match generate_placements orientations with
       | Ok st => Ok (placements st,
                      encode (placements_by_piece st) (placements_by_cell st),
                      var_counter st - 1,
                      var_names st)
       | Raise e => Raise e
       end).
Proof.
  split; [reflexivity|]. split; [|split].
  - intros bp1 piece bp2 bc. rewrite !encode_flat, !flat_map_app. reflexivity.
  - intros bp bc1 c bc2. rewrite !encode_flat, !flat_map_app. reflexivity.
  - intros orientations. unfold generate_sat_instance.
    destruct (generate_placements orientations); reflexivity.
Qed.

(** ** Exact cover *)

Lemma NoDup_map_filter {A B : Type} (f : A -> B) (g : A -> bool) (xs : list A) :
  NoDup (map f xs) -> NoDup (map f (filter g xs)).
Proof.
  induction xs as [|x xs IH]; simpl; intros H; [constructor|].
  inversion H as [|? ? Hx Hrest]; subst.
  destruct (g x); simpl; [|auto].
  constructor; [|auto].
  intros Hin. apply Hx. apply in_map_iff in Hin as [y [E Hy]].
  apply filter_In in Hy as [Hy _]. apply in_map_iff. exists y. auto.
Qed.

(** The true variables of a group are as many as the true placements that
    the group selects. *)
Lemma group_count (sigma : assignment) (pl : list (placement_key * Z))
    (sel : placement_key -> bool) (vars : list Z) :
  NoDup (map snd pl) -> NoDup vars ->
  (forall v, In v vars <-> exists k, In (k, v) pl /\ sel k = true) ->
  List.length (filter sigma vars)
  = List.length (filter (fun e => sel (fst e)) (true_placements sigma pl)).
Proof.
  intros Hpl Hvars Hin.
  rewrite <- (length_map snd (filter _ (true_placements sigma pl))).
  apply Permutation_length. apply NoDup_Permutation.
  - apply NoDup_filter. exact Hvars.
  - unfold true_placements. do 2 apply NoDup_map_filter. exact Hpl.
  - intros v. rewrite filter_In, Hin, in_map_iff. unfold true_placements. split.
    + intros [[k [H1 H2]] Hs]. exists (k, v). split; [reflexivity|].
      apply filter_In. split; [|exact H2].
      apply filter_In. split; [exact H1|exact Hs].
    + intros [[k v'] [E H]]. simpl in E. subst v'.
      apply filter_In in H as [H H2]. apply filter_In in H as [H1 Hs].
      split; [|exact Hs]. exists k. split; [exact H1|exact H2].
Qed.

Lemma placement_values_NoDup (st : tables) :
  invariant st -> NoDup (map snd (placements st)).
Proof. intros [[_ Hv _ _] _]. rewrite Hv. apply values_NoDup. Qed.

Lemma piece_group_count (st : tables) (sigma : assignment) (piece : nat) :
  invariant st ->
  List.length (filter sigma (piece_vars st piece))
  = List.length (filter (of_piece piece) (true_placements sigma (placements st))).
Proof.
  intros Hinv. pose proof Hinv as [_ [_ Hnd Hpv _ _ _ _]].
  apply (group_count sigma (placements st) (fun k => Nat.eqb (fst k) piece)).
  - apply placement_values_NoDup. exact Hinv.
  - apply Hnd.
  - intros v. unfold piece_vars. rewrite Hpv. split.
    + intros [adj H]. exists (piece, adj). split; [exact H|apply Nat.eqb_refl].
    + intros [[p adj] [H E]]. simpl in E. apply Nat.eqb_eq in E. subst p.
      exists adj. exact H.
Qed.

Lemma cell_group_count (st : tables) (sigma : assignment) (c : cell) :
  invariant st ->
  List.length (filter sigma (cell_vars st c))
  = List.length (filter (covers c) (true_placements sigma (placements st))).
Proof.
  intros Hinv. pose proof Hinv as [_ [_ _ _ _ _ Hnd Hcv]].
  apply (group_count sigma (placements st) (fun k => existsb (cell_eqb c) (snd k))).
  - apply placement_values_NoDup. exact Hinv.
  - apply Hnd.
  - intros v. unfold cell_vars. rewrite Hcv.
    split; intros [k [H1 H2]]; exists k; (split; [exact H1|]).
    + apply existsb_exists. exists c. split; [exact H2|apply cell_eqb_refl].
    + apply existsb_exists in H2 as [d [Hd E]]. apply cell_eqb_eq in E. subst. exact Hd.
Qed.

Lemma coordinates_In (c : cell) : in_volume c <-> In c coordinates.
Proof.
  assert (Hr : forall x, In x range3 <-> 0 <= x < 3).
  { intros x. unfold range3. simpl. lia. }
  destruct c as [[x y] z]. unfold in_volume, coordinates.
  rewrite <- !Hr, in_flat_map. split.
  - intros [Hx [Hy Hz]]. exists x. split; [exact Hx|].
    apply in_flat_map. exists y. split; [exact Hy|].
    apply in_map_iff. exists z. auto.
  - intros [x' [Hx H]]. apply in_flat_map in H as [y' [Hy H]].
    apply in_map_iff in H as [z' [[= <- <- <-] Hz]]. auto.
Qed.

(** The cell of a non-empty cell group lies in the volume. *)
Lemma cell_group_in_volume (st : tables) (c : cell) (vars : list Z) :
  invariant st -> In (c, vars) (placements_by_cell st) -> In c coordinates.
Proof.
  intros Hinv Hin. destruct (cell_group_entry st c vars Hinv Hin) as [Hne E].
  pose proof Hinv as [[_ _ _ Hb] [_ _ _ _ _ _ Hcv]].
  destruct vars as [|v rest]; [contradiction|].
  assert (Hv : In v (cell_vars st c)) by (rewrite <- E; left; reflexivity).
  apply Hcv in Hv as [k [H1 H2]].
  destruct (Hb _ _ H1) as [_ Hvol]. rewrite Forall_forall in Hvol.
  apply coordinates_In. exact (Hvol _ H2).
Qed.

(** C4. For any assignment: if exactly one placement of each piece is true
    and every cell of the volume is covered by exactly one true placement,
    then every clause of the generated formula is true; and if some cell of
    the volume is covered by no true placement or by two or more, then a
    clause of that cell's group is false. *)
Theorem exact_cover_clauses (sigma : assignment) :
  soma pieces
  = Ok (placements soma_tables, soma_clauses, soma_num_vars, var_names soma_tables) /\
  ((forall piece, (piece < 7)%nat ->
      List.length (filter (of_piece piece)
                          (true_placements sigma (placements soma_tables))) = 1%nat) ->
   (forall c, In c coordinates ->
      List.length (filter (covers c)
                          (true_placements sigma (placements soma_tables))) = 1%nat) ->
   forall cl, In cl soma_clauses -> eval_clause sigma cl = true) /\
  (forall c, In c coordinates ->
     let covering :=
       filter (covers c) (true_placements sigma (placements soma_tables)) in
     List.length covering = 0%nat \/ (2 <= List.length covering)%nat ->
     exists vars cl,
       In (c, vars) (placements_by_cell soma_tables) /\
       In cl (exactly_one vars) /\
       In cl soma_clauses /\
       eval_clause sigma cl = false).
Proof.
  pose proof soma_invariant as Hinv.
  split; [exact soma_run|]. split.
  - intros Hpieces Hcells cl Hcl. unfold soma_clauses in Hcl.
    apply encode_In in Hcl as [[piece [vars [Hin Hcl]]]|[c [vars [Hin Hcl]]]].
    + destruct (piece_group_entry _ _ _ Hinv Hin) as [Hp E].
      apply (exactly_one_sound sigma vars); [| | |exact Hcl].
      * rewrite E. apply Hinv.
      * intros v Hv.
        assert (1 <= v <= var_counter soma_tables - 1); [|lia].
        apply (group_variable_range soma_tables vars v Hinv); eauto.
      * rewrite E, piece_group_count by exact Hinv. apply Hpieces. exact Hp.
    + destruct (cell_group_entry _ _ _ Hinv Hin) as [_ E].
      apply (exactly_one_sound sigma vars); [| | |exact Hcl].
      * rewrite E. apply Hinv.
      * intros v Hv.
        assert (1 <= v <= var_counter soma_tables - 1); [|lia].
        apply (group_variable_range soma_tables vars v Hinv); eauto.
      * rewrite E, cell_group_count by exact Hinv. apply Hcells.
        apply (cell_group_in_volume soma_tables c vars Hinv Hin).
  - intros c Hc covering Hcount.
    pose proof (cells_all_covered c Hc) as Hne.
    assert (Hin : In (c, cell_vars soma_tables c) (placements_by_cell soma_tables)).
    { apply (dict_find_entry cell_eqb _ c cell_eqb_eq). exact Hne. }
    destruct (exactly_one_complete sigma (cell_vars soma_tables c)) as [cl [Hcl Hfalse]].
    + exact Hne.
    + intros v Hv.
      assert (1 <= v <= var_counter soma_tables - 1); [|lia].
      apply (group_variable_range soma_tables (cell_vars soma_tables c) v Hinv);
        eauto.
    + rewrite cell_group_count by exact Hinv. fold covering. lia.
    + exists (cell_vars soma_tables c), cl.
      split; [exact Hin|]. split; [exact Hcl|]. split; [|exact Hfalse].
      unfold soma_clauses. apply encode_In. right. eauto.
Qed.

Lemma exact_cover_clauses_witness :
  (forall cl, In cl soma_clauses -> eval_clause solution_assignment cl = true) /\
  (exists vars cl,
     In ((0, 0, 0), vars) (placements_by_cell soma_tables) /\
     In cl (exactly_one vars) /\
     In cl soma_clauses /\
     eval_clause no_placement cl = false).
Proof.
  split.
  - apply (proj1 (proj2 (exact_cover_clauses solution_assignment))).
    + intros piece Hp.
      do 7 (destruct piece as [|piece]; [vm_compute; reflexivity|]). lia.
    + intros c Hc. unfold coordinates in Hc. simpl in Hc.
      repeat (destruct Hc as [<-|Hc]; [vm_compute; reflexivity|]). destruct Hc.
  - apply (proj2 (proj2 (exact_cover_clauses no_placement)) (0, 0, 0)).
    + left. reflexivity.
    + left. vm_compute. reflexivity.
Defined.

(** * Further properties *)

(** ** The encoder *)

Lemma one_true_count (sigma : assignment) (vars : list Z) :
  NoDup vars ->
  (one_true sigma vars <-> List.length (filter sigma vars) = 1%nat).
Proof.
  intros Hnd. split.
  - intros [v [Hv [Sv Huniq]]].
    assert (Hin : In v (filter sigma vars)) by (apply filter_In; auto).
    assert (Hle : (List.length (filter sigma vars) <= List.length [v])%nat).
    { apply NoDup_incl_length; [apply NoDup_filter; exact Hnd|].
      intros w Hw. apply filter_In in Hw as [Hw Sw]. left. symmetry. auto. }
    destruct (filter sigma vars); [destruct Hin|]. simpl in *. lia.
  - intros H. destruct (filter sigma vars) as [|v [|w rest]] eqn:F;
      try discriminate.
    assert (Hin : forall w, In w (filter sigma vars) <-> w = v).
    { intros w. rewrite F. simpl. intuition. }
    exists v. destruct (proj1 (filter_In sigma v vars) (proj2 (Hin v) eq_refl)).
    repeat split; try assumption.
    intros w Hw Sw. apply Hin. apply filter_In. auto.
Qed.

(** X1. For a non-empty group of distinct positive variables, an assignment
    satisfies all the clauses of [exactly_one] if and only if it makes
    exactly one variable of the group true. *)
Theorem exactly_one_meaning (sigma : assignment) (variables : list Z) :
  variables <> [] -> NoDup variables -> (forall v, In v variables -> 0 < v) ->
  (satisfies sigma (exactly_one variables) <-> one_true sigma variables).
Proof.
  intros Hne Hnd Hpos. rewrite (one_true_count sigma variables Hnd). split.
  - intros Hsat.
    destruct (Nat.eq_dec (List.length (filter sigma variables)) 1) as [E|N];
      [exact E|].
    destruct (exactly_one_complete sigma variables Hne Hpos N) as [cl [Hcl Hf]].
    rewrite (Hsat cl Hcl) in Hf. discriminate.
  - intros Hone cl Hcl. eapply exactly_one_sound; eauto.
Qed.

Lemma exactly_one_meaning_witness :
  satisfies (Z.eqb 2) (exactly_one [1; 2; 3]) <-> one_true (Z.eqb 2) [1; 2; 3].
Proof.
  apply (exactly_one_meaning (Z.eqb 2) [1; 2; 3]).
  - discriminate.
  - repeat constructor; simpl; intuition discriminate.
  - simpl. intros v H. lia.
Defined.

(** The condition on repetitions matters: the clauses of the group [v; v]
    cannot all hold, whatever the assignment. *)
Example exactly_one_repeated (sigma : assignment) (v : Z) :
  0 < v -> ~ satisfies sigma (exactly_one [v; v]).
Proof.
  intros Hv Hsat.
  pose proof (Hsat [v; v] (or_introl eq_refl)) as H1.
  pose proof (Hsat [- v; - v] (or_intror (or_introl eq_refl))) as H2.
  unfold eval_clause in H1, H2. simpl in H1, H2.
  rewrite !eval_positive in H1 by exact Hv.
  rewrite !eval_negative in H2 by exact Hv.
  destruct (sigma v); discriminate.
Qed.

Lemma exactly_one_length (variables : list Z) :
  List.length (exactly_one variables)
  = group_clause_count (List.length variables).
Proof.
  destruct variables as [|v rest] eqn:E; [reflexivity|]. rewrite <- E.
  assert (Hne : variables <> []) by (rewrite E; discriminate).
  rewrite (exactly_one_unfold variables Hne). simpl List.length.
  rewrite length_map.
  destruct (index_pairs_spec (List.length variables)) as [Hlen _].
  assert (Hk : List.length variables = S (List.length rest)) by (rewrite E; reflexivity).
  rewrite Hk in *. unfold group_clause_count. apply (f_equal S).
  apply Nat.div_unique_exact; lia.
Qed.

Lemma flat_map_length_sum {A B : Type} (f : A -> list B) (xs : list A) :
  List.length (flat_map f xs) = list_sum (map (fun x => List.length (f x)) xs).
Proof.
  induction xs as [|x xs IH]; simpl; [reflexivity|].
  rewrite length_app, IH. reflexivity.
Qed.

(** X2. The encoder emits, for a group of [k > 0] variables, [1 + k(k-1)/2]
    clauses and none for an empty group; the formula has as many clauses as
    its piece groups and cell groups together.  On the seven pieces this
    gives 688 variables and 185252 clauses. *)
Theorem clause_count (by_piece : list (nat * list Z))
    (by_cell : list (cell * list Z)) :
  List.length (encode by_piece by_cell)
  = (list_sum (map (fun e => group_clause_count (List.length (snd e))) by_piece)
     + list_sum (map (fun e => group_clause_count (List.length (snd e))) by_cell))%nat
  /\ soma_num_vars = 688
  /\ Z.of_nat (List.length soma_clauses) = 185252.
Proof.
  assert (H : forall bp bc,
             List.length (encode bp bc)
             = (list_sum (map (fun e : nat * list Z =>
                                 group_clause_count (List.length (snd e))) bp)
                + list_sum (map (fun e : cell * list Z =>
                                   group_clause_count (List.length (snd e))) bc))%nat).
  { intros bp bc. rewrite encode_flat, length_app, !flat_map_length_sum.
    f_equal; f_equal; apply map_ext; intros e; apply exactly_one_length. }
  split; [apply H|]. split; [reflexivity|].
  unfold soma_clauses. rewrite H. vm_compute. reflexivity.
Qed.

(** ** The formula and exact covers *)

Lemma formula_meaning_invariant (st : tables) (sigma : assignment) :
  invariant st ->
  (satisfies sigma (encode (placements_by_piece st) (placements_by_cell st)) <->
   (forall piece, piece_vars st piece <> [] ->
                  count_true sigma (of_piece piece) st = 1%nat) /\
   (forall c, cell_vars st c <> [] -> count_true sigma (covers c) st = 1%nat)).
Proof.
  intros Hinv. unfold count_true.
  assert (Hpos : forall vars v,
             (exists piece, In (piece, vars) (placements_by_piece st)) \/
             (exists c, In (c, vars) (placements_by_cell st)) ->
             In v vars -> 0 < v).
  { intros vars v Hg Hv.
    pose proof (group_variable_range st vars v Hinv Hg Hv). lia. }
  split.
  - intros Hsat. split.
    + intros piece Hne.
      assert (Hin : In (piece, piece_vars st piece) (placements_by_piece st))
        by (apply (dict_find_entry Nat.eqb _ piece Nat.eqb_eq); exact Hne).
      rewrite <- piece_group_count by exact Hinv.
      destruct (Nat.eq_dec (List.length (filter sigma (piece_vars st piece))) 1)
        as [E|N]; [exact E|].
      destruct (exactly_one_complete sigma (piece_vars st piece) Hne) as [cl [Hcl Hf]];
        [intros v; apply Hpos; eauto|exact N|].
      rewrite Hsat in Hf; [discriminate|]. apply encode_In. left. eauto.
    + intros c Hne.
      assert (Hin : In (c, cell_vars st c) (placements_by_cell st))
        by (apply (dict_find_entry cell_eqb _ c cell_eqb_eq); exact Hne).
      rewrite <- cell_group_count by exact Hinv.
      destruct (Nat.eq_dec (List.length (filter sigma (cell_vars st c))) 1)
        as [E|N]; [exact E|].
      destruct (exactly_one_complete sigma (cell_vars st c) Hne) as [cl [Hcl Hf]];
        [intros v; apply Hpos; eauto|exact N|].
      rewrite Hsat in Hf; [discriminate|]. apply encode_In. right. eauto.
  - intros [Hpieces Hcells] cl Hcl.
    apply encode_In in Hcl as [[piece [vars [Hin Hcl]]]|[c [vars [Hin Hcl]]]].
    + destruct (piece_group_entry _ _ _ Hinv Hin) as [Hp E].
      assert (Hne : vars <> []) by (intros ->; destruct Hcl).
      apply (exactly_one_sound sigma vars); [| | |exact Hcl].
      * rewrite E. apply Hinv.
      * intros v. apply Hpos. eauto.
      * rewrite E, piece_group_count by exact Hinv. apply Hpieces.
        rewrite <- E. exact Hne.
    + destruct (cell_group_entry _ _ _ Hinv Hin) as [Hne E].
      apply (exactly_one_sound sigma vars); [| | |exact Hcl].
      * rewrite E. apply Hinv.
      * intros v. apply Hpos. eauto.
      * rewrite E, cell_group_count by exact Hinv. apply Hcells.
        rewrite <- E. exact Hne.
Qed.

(** X3. Whatever the orientations, an assignment satisfies the formula that
    the encoder builds exactly when, for every piece that has placements,
    one placement of the piece is true, and every cell that some placement
    covers is covered by one true placement. *)
Theorem formula_meaning (orientations : list (list orientation)) :
  (7 <= List.length orientations)%nat ->
  exists st,
    generate_placements orientations = Ok st /\
    generate_sat_instance orientations
    = Ok (placements st,
          encode (placements_by_piece st) (placements_by_cell st),
          var_counter st - 1, var_names st) /\
    forall sigma,
      satisfies sigma (encode (placements_by_piece st) (placements_by_cell st)) <->
      (forall piece,
         (exists adj v, In ((piece, adj), v) (placements st)) ->
         count_true sigma (of_piece piece) st = 1%nat) /\
      (forall c,
         (exists k v, In (k, v) (placements st) /\ In c (snd k)) ->
         count_true sigma (covers c) st = 1%nat).
Proof.
  intros Hlen.
  destruct (generate_placements_spec orientations Hlen) as [st [Hrun [Hinv _]]].
  exists st. split; [exact Hrun|]. split.
  { unfold generate_sat_instance. rewrite Hrun. reflexivity. }
  pose proof Hinv as [_ [_ _ Hpv _ _ _ Hcv]].
  assert (Hp : forall piece, piece_vars st piece <> [] <->
                             exists adj v, In ((piece, adj), v) (placements st)).
  { intros piece. split.
    - intros Hne. destruct (piece_vars st piece) as [|v rest] eqn:E; [contradiction|].
      assert (Hv : In v (piece_vars st piece)) by (rewrite E; left; reflexivity).
      apply Hpv in Hv as [adj Hv]. eauto.
    - intros [adj [v Hv]] E.
      assert (Hin : In v (piece_vars st piece)) by (apply Hpv; eauto).
      rewrite E in Hin. destruct Hin. }
  assert (Hc : forall c, cell_vars st c <> [] <->
                         exists k v, In (k, v) (placements st) /\ In c (snd k)).
  { intros c. split.
    - intros Hne. destruct (cell_vars st c) as [|v rest] eqn:E; [contradiction|].
      assert (Hv : In v (cell_vars st c)) by (rewrite E; left; reflexivity).
      apply Hcv in Hv as [k Hv]. eauto.
    - intros [k [v Hv]] E.
      assert (Hin : In v (cell_vars st c)) by (apply Hcv; eauto).
      rewrite E in Hin. destruct Hin. }
  intros sigma. rewrite (formula_meaning_invariant st sigma Hinv).
  split; intros [H1 H2]; split; intros x Hx; [apply H1|apply H2|apply H1|apply H2];
    try (apply Hp; exact Hx); try (apply Hc; exact Hx);
    try (apply Hp in Hx; exact Hx); try (apply Hc in Hx; exact Hx).
Qed.

Lemma formula_meaning_witness :
  exists st,
    generate_placements soma_orientations = Ok st /\
    generate_sat_instance soma_orientations
    = Ok (placements st,
          encode (placements_by_piece st) (placements_by_cell st),
          var_counter st - 1, var_names st) /\
    forall sigma,
      satisfies sigma (encode (placements_by_piece st) (placements_by_cell st)) <->
      (forall piece,
         (exists adj v, In ((piece, adj), v) (placements st)) ->
         count_true sigma (of_piece piece) st = 1%nat) /\
      (forall c,
         (exists k v, In (k, v) (placements st) /\ In c (snd k)) ->
         count_true sigma (covers c) st = 1%nat).
Proof.
  apply (formula_meaning soma_orientations). simpl. lia.
Defined.

(** X4. On the seven pieces the models of the formula are the tilings: an
    assignment satisfies every clause if and only if it makes exactly one
    placement of each of the seven pieces true and each of the 27 cells is
    covered by exactly one true placement. *)
Theorem models_are_tilings (sigma : assignment) :
  satisfies sigma soma_clauses <->
  (forall piece, (piece < 7)%nat ->
                 count_true sigma (of_piece piece) soma_tables = 1%nat) /\
  (forall c, In c coordinates ->
             count_true sigma (covers c) soma_tables = 1%nat).
Proof.
  pose proof soma_invariant as Hinv. unfold soma_clauses.
  rewrite (formula_meaning_invariant soma_tables sigma Hinv).
  pose proof Hinv as [_ [Hpk _ _ _ _ _ _]].
  split; intros [H1 H2]; split.
  - intros piece Hp. apply H1.
    assert (Hk : In piece (map fst (placements_by_piece soma_tables)))
      by (rewrite Hpk; apply in_seq; lia).
    apply in_map_iff in Hk as [[p vars] [E Hin]]. simpl in E. subst p.
    destruct (piece_group_entry _ _ _ Hinv Hin) as [_ <-].
    apply (piece_groups_nonempty piece vars Hin).
  - intros c Hc. apply H2. apply cells_all_covered. exact Hc.
  - intros piece Hne. apply H1.
    assert (Hin : In (piece, piece_vars soma_tables piece)
                     (placements_by_piece soma_tables))
      by (apply (dict_find_entry Nat.eqb _ piece Nat.eqb_eq); exact Hne).
    apply (piece_group_entry _ _ _ Hinv Hin).
  - intros c Hne. apply H2.
    assert (Hin : In (c, cell_vars soma_tables c) (placements_by_cell soma_tables))
      by (apply (dict_find_entry cell_eqb _ c cell_eqb_eq); exact Hne).
    apply (cell_group_in_volume soma_tables c _ Hinv Hin).
Qed.

(** ** The tables of the placement enumerator *)

(** X5. The two indexes agree with the dictionary of placements: the set of
    a piece holds exactly the variables of the placements of that piece, the
    set of a cell exactly the variables of the placements that cover it, no
    set lists a variable twice, and a cell is a key of the index precisely
    when some placement covers it. *)
Theorem indexes_consistent (orientations : list (list orientation)) :
  (7 <= List.length orientations)%nat ->
  exists st,
    generate_placements orientations = Ok st /\
    map fst (placements_by_piece st) = seq 0 7 /\
    (forall piece vars,
       In (piece, vars) (placements_by_piece st) ->
       NoDup vars /\
       forall v, In v vars <-> exists adj, In ((piece, adj), v) (placements st)) /\
    NoDup (map fst (placements_by_cell st)) /\
    (forall c vars,
       In (c, vars) (placements_by_cell st) ->
       vars <> [] /\ NoDup vars /\
       forall v, In v vars <->
                 exists piece adj, In ((piece, adj), v) (placements st) /\ In c adj) /\
    (forall c,
       (exists vars, In (c, vars) (placements_by_cell st)) <->
       exists piece adj v, In ((piece, adj), v) (placements st) /\ In c adj).
Proof.
  intros Hlen.
  destruct (generate_placements_spec orientations Hlen) as [st [Hrun [Hinv _]]].
  exists st. split; [exact Hrun|].
  pose proof Hinv as [_ [Hpk Hpn Hpv Hck Hcne Hcn Hcv]].
  assert (Hcv' : forall c v,
             In v (cell_vars st c) <->
             exists piece adj, In ((piece, adj), v) (placements st) /\ In c adj).
  { intros c v. unfold cell_vars. rewrite Hcv. split.
    - intros [[p adj] [H1 H2]]. exists p, adj. auto.
    - intros [p [adj [H1 H2]]]. exists (p, adj). auto. }
  split; [exact Hpk|]. split; [|split; [exact Hck|split]].
  - intros piece vars Hin.
    destruct (piece_group_entry _ _ _ Hinv Hin) as [_ ->]. split; [apply Hpn|].
    intros v. apply Hpv.
  - intros c vars Hin.
    destruct (cell_group_entry _ _ _ Hinv Hin) as [Hne ->].
    split; [exact Hne|]. split; [apply Hcn|]. intros v. apply Hcv'.
  - intros c. split.
    + intros [vars Hin]. destruct (cell_group_entry _ _ _ Hinv Hin) as [Hne E].
      destruct vars as [|v rest]; [contradiction|].
      assert (Hv : In v (cell_vars st c)) by (rewrite <- E; left; reflexivity).
      apply Hcv' in Hv as [p [adj Hv]]. exists p, adj, v. exact Hv.
    + intros [p [adj [v Hv]]]. exists (cell_vars st c).
      apply (dict_find_entry cell_eqb _ c cell_eqb_eq).
      intros E. assert (Hin : In v (cell_vars st c)) by (apply Hcv'; eauto).
      unfold cell_vars in Hin. rewrite E in Hin. destruct Hin.
Qed.

Lemma indexes_consistent_witness :
  exists st,
    generate_placements soma_orientations = Ok st /\
    map fst (placements_by_piece st) = seq 0 7 /\
    (forall piece vars,
       In (piece, vars) (placements_by_piece st) ->
       NoDup vars /\
       forall v, In v vars <-> exists adj, In ((piece, adj), v) (placements st)) /\
    NoDup (map fst (placements_by_cell st)) /\
    (forall c vars,
       In (c, vars) (placements_by_cell st) ->
       vars <> [] /\ NoDup vars /\
       forall v, In v vars <->
                 exists piece adj, In ((piece, adj), v) (placements st) /\ In c adj) /\
    (forall c,
       (exists vars, In (c, vars) (placements_by_cell st)) <->
       exists piece adj v, In ((piece, adj), v) (placements st) /\ In c adj).
Proof.
  apply (indexes_consistent soma_orientations). simpl. lia.
Defined.

(** What one iteration does to the dictionary of placements, to the names
    and to the counter: nothing, unless the translated cells fit the volume
    and their key is new. *)
Lemma place_result (anchor : cell) (piece : nat) (orient : orientation)
    (base : cell) (st st' : tables) :
  place anchor piece orient base st = Ok st' ->
  let key := (piece, adjusted_cells anchor orient base) in
  if forallb in_bounds (adjusted_cells anchor orient base)
     && negb (dict_mem key_eqb (placements st) key)
  then placements st' = dict_set key_eqb (placements st) key (var_counter st) /\
       var_names st'
       = dict_set Z.eqb (var_names st) (var_counter st) (var_name anchor piece) /\
       var_counter st' = var_counter st + 1
  else placements st' = placements st /\ var_names st' = var_names st /\
       var_counter st' = var_counter st.
Proof.
  destruct anchor as [[a0 a1] a2], base as [[b0 b1] b2].
  unfold place, adjusted_cells, dict_mem. set (adj := sorted _). cbv zeta.
  unfold placement_key, orientation, cubelets in *.
  destruct (forallb in_bounds adj); [|intros [= <-]; simpl; auto].
  destruct (dict_get key_eqb (placements st) (piece, adj)) as [var|] eqn:G.
  - assert (G' : @dict_get (nat * list cell) Z key_eqb (placements st) (piece, adj)
                 = Some var) by exact G.
    rewrite G'.
    cbn [placements placements_by_piece placements_by_cell var_names var_counter].
    rewrite G'. destruct (add_by_piece _ _ _); [|discriminate].
    simpl. intros [= <-]. auto.
  - assert (G' : @dict_get (nat * list cell) Z key_eqb (placements st) (piece, adj)
                 = None) by exact G.
    rewrite G'.
    cbn [placements placements_by_piece placements_by_cell var_names var_counter].
    rewrite (dict_get_set_same key_eqb key_eqb_eq).
    destruct (add_by_piece _ _ _); [|discriminate]. simpl. intros [= <-]. auto.
Qed.

Lemma for_each_keeps {A S : Type} (P : S -> Prop) (xs : list A)
    (body : A -> S -> result S) :
  (forall x s s', In x xs -> P s -> body x s = Ok s' -> P s') ->
  forall s s', P s -> for_each xs body s = Ok s' -> P s'.
Proof.
  induction xs as [|x xs IH]; intros Hbody s s' Hs Hrun; simpl in Hrun.
  - injection Hrun as <-. exact Hs.
  - destruct (body x s) as [s1|e] eqn:E; simpl in Hrun; [|discriminate].
    apply IH with (s := s1); auto.
    + intros y t t' Hy. apply Hbody. right; assumption.
    + apply (Hbody x s s1); auto. left; reflexivity.
Qed.

Lemma adjusted_cells_shift (anchor : cell) (orient : orientation) (base : cell) :
  adjusted_cells anchor orient base
  = sorted (shift (proj_x anchor - proj_x base, proj_y anchor - proj_y base,
                   proj_z anchor - proj_z base) orient).
Proof.
  destruct anchor as [[a0 a1] a2], base as [[b0 b1] b2].
  unfold adjusted_cells, shift, proj_x, proj_y, proj_z. simpl. f_equal.
  apply map_ext. intros [[x y] z]. f_equal; [f_equal|]; lia.
Qed.

Lemma shift_In (t : cell) (cs : list cell) (x y z : Z) :
  In (x, y, z) cs ->
  In (x + proj_x t, y + proj_y t, z + proj_z t) (shift t cs).
Proof.
  destruct t as [[t0 t1] t2]. unfold shift, proj_x, proj_y, proj_z. simpl.
  intros H. apply in_map_iff. exists (x, y, z). auto.
Qed.

(** X6. The keys of [placements] are exactly the placements that fit: a
    piece number below 7 with the sorted cells of one of its orientations
    moved by some vector so that every cell lies in the volume. *)
Theorem placement_keys (orientations : list (list orientation)) :
  (7 <= List.length orientations)%nat ->
  exists st,
    generate_placements orientations = Ok st /\
    forall piece adj,
      (exists v, In ((piece, adj), v) (placements st)) <->
      (piece < 7)%nat /\
      exists orient t,
        In orient (nth piece orientations []) /\ orient <> [] /\
        adj = sorted (shift t orient) /\
        forall x y z, In (x, y, z) adj -> 0 <= x < 3 /\ 0 <= y < 3 /\ 0 <= z < 3.
Proof.
  intros Hlen.
  destruct (generate_placements_spec orientations Hlen) as [st [Hrun [Hinv Hkeys]]].
  exists st. split; [exact Hrun|].
  assert (Hsound : forall k v, In (k, v) (placements st) ->
            exists anchor orient base,
              In (anchor, fst k, orient, base) (iterations orientations) /\
              snd k = adjusted_cells anchor orient base /\
              forallb in_bounds (snd k) = true).
  { rewrite (generate_placements_loop orientations Hlen) in Hrun.
    apply (for_each_keeps
             (fun s => forall k v, In (k, v) (placements s) ->
                exists anchor orient base,
                  In (anchor, fst k, orient, base) (iterations orientations) /\
                  snd k = adjusted_cells anchor orient base /\
                  forallb in_bounds (snd k) = true)
             (iterations orientations) place_iteration)
      with (s := initial_tables) (s' := st); [|intros k v []|exact Hrun].
    intros [[[anchor piece] orient] base] s s' Hit Hs Hplace k v Hin.
    apply place_result in Hplace. cbv zeta in Hplace.
    match type of Hplace with
    | (if ?c then _ else _) => destruct c eqn:C
    end; destruct Hplace as [Hpl _]; rewrite Hpl in Hin; [|exact (Hs k v Hin)].
    apply (dict_set_In key_eqb key_eqb_eq) in Hin as [[-> _]|Hin];
      [|exact (Hs k v Hin)].
    apply andb_true_iff in C as [B _].
    exists anchor, orient, base. simpl. auto. }
  intros piece adj. split.
  - intros [v Hin]. pose proof Hinv as [[_ _ _ Hb] _].
    destruct (Hb _ _ Hin) as [Hp Hvol]. simpl in Hp, Hvol. split; [exact Hp|].
    destruct (Hsound _ _ Hin) as [anchor [orient [base [Hit [E _]]]]]. simpl in Hit, E.
    apply iterations_In in Hit as [_ [_ [Ho Hbase]]].
    exists orient. eexists. split; [exact Ho|]. split.
    { intros ->. destruct Hbase. }
    split; [rewrite E; apply adjusted_cells_shift|].
    intros x y z Hc. rewrite Forall_forall in Hvol. exact (Hvol _ Hc).
  - intros [Hp [orient [t [Ho [Hne [-> Hvol]]]]]].
    destruct orient as [|[[b0 b1] b2] rest] eqn:E; [contradiction|]. rewrite <- E in *.
    set (base := (b0, b1, b2)).
    set (anchor := (b0 + proj_x t, b1 + proj_y t, b2 + proj_z t)).
    assert (Hbase : In base orient) by (rewrite E; left; reflexivity).
    assert (Hanchor : In anchor (sorted (shift t orient))).
    { eapply Permutation_in; [symmetry; apply sorted_perm|].
      apply shift_In. exact Hbase. }
    assert (Eadj : adjusted_cells anchor orient base = sorted (shift t orient)).
    { rewrite adjusted_cells_shift. f_equal. f_equal.
      destruct t as [[t0 t1] t2]. unfold anchor, base, proj_x, proj_y, proj_z.
      simpl. f_equal; [f_equal|]; lia. }
    rewrite <- Eadj. apply Hkeys.
    + apply iterations_In. split; [|auto].
      apply coordinates_In. unfold anchor. apply (Hvol _ _ _ Hanchor).
    + rewrite Eadj. apply forallb_in_bounds, Forall_forall.
      intros [[x y] z] Hc. exact (Hvol x y z Hc).
Qed.

Lemma placement_keys_witness :
  exists st,
    generate_placements soma_orientations = Ok st /\
    forall piece adj,
      (exists v, In ((piece, adj), v) (placements st)) <->
      (piece < 7)%nat /\
      exists orient t,
        In orient (nth piece soma_orientations []) /\ orient <> [] /\
        adj = sorted (shift t orient) /\
        forall x y z, In (x, y, z) adj -> 0 <= x < 3 /\ 0 <= y < 3 /\ 0 <= z < 3.
Proof.
  apply (placement_keys soma_orientations). simpl. lia.
Defined.

(** The two inner loops of [generate_placements] do not raise. *)
Lemma orientation_loops_total (anchor : cell) (piece : nat)
    (os : list orientation) (st : tables) :
  invariant st -> (piece < 7)%nat ->
  exists st',
    for_each os (fun orient =>
      for_each orient (fun base => place anchor piece orient base)) st = Ok st' /\
    invariant st'.
Proof.
  intros Hinv Hp.
  destruct (for_each_establishes invariant (fun _ _ => True) os
              (fun orient =>
                 for_each orient (fun base => place anchor piece orient base)))
    with (s := st) as [st' [E [Hinv' _]]]; [|exact Hinv|eauto].
  intros orient s _ Hs.
  destruct (for_each_establishes invariant (fun _ _ => True) orient
              (fun base => place anchor piece orient base))
    with (s := s) as [s' [E [Hinv' _]]]; [|exact Hs|eauto].
  intros base t _ Ht.
  destruct (place_spec anchor piece orient base t Ht Hp) as [t' [E [Hinv' _]]].
  eauto.
Qed.

(** X7. [generate_placements] needs an entry of [orientations] for each of
    the seven piece numbers: with fewer entries the subscript
    [orientations[piece]] raises [IndexError] during the pass for the first
    anchor. *)
Theorem generate_placements_index_error (orientations : list (list orientation)) :
  (List.length orientations < 7)%nat ->
  generate_placements orientations = Raise IndexError.
Proof.
  intros Hlen. unfold generate_placements.
  change coordinates with ((0, 0, 0) :: tl coordinates).
  cbn [for_each].
  set (body := fun (piece : nat) (st : tables) =>
                 os <- subscript orientations piece ;;
                 for_each os (fun orient =>
                   for_each orient (fun base => place (0, 0, 0) piece orient base)) st).
  assert (Hraise : for_each (seq 0 7) body initial_tables = Raise IndexError).
  { replace 7%nat
      with (List.length orientations + S (6 - List.length orientations))%nat by lia.
    rewrite seq_app, for_each_app.
    destruct (for_each_establishes invariant (fun _ _ => True)
                (seq 0 (List.length orientations)) body)
      with (s := initial_tables) as [st1 [E _]].
    - intros piece s Hpiece Hs. apply in_seq in Hpiece. unfold body.
      rewrite (subscript_nth orientations piece []) by lia. cbn [bind].
      destruct (orientation_loops_total (0, 0, 0) piece (nth piece orientations []) s Hs)
        as [s' [E Hs']]; [lia|].
      exists s'. auto.
    - exact initial_invariant.
    - rewrite E. cbn [bind for_each seq]. unfold body at 1.
      rewrite subscript_out_of_range by lia. reflexivity. }
  fold body. rewrite Hraise. reflexivity.
Qed.

Lemma generate_placements_index_error_witness :
  generate_placements (firstn 6 soma_orientations) = Raise IndexError.
Proof.
  apply (generate_placements_index_error (firstn 6 soma_orientations)).
  simpl. lia.
Defined.

(** ** Variable names *)

(** A loop invariant that may mention the iterations already done. *)
Lemma for_each_prefix {A S : Type} (P : list A -> S -> Prop) (xs : list A)
    (body : A -> S -> result S) :
  (forall pre x post s, xs = pre ++ x :: post -> P pre s ->
     exists s', body x s = Ok s' /\ P (pre ++ [x]) s') ->
  forall s, P [] s -> exists s', for_each xs body s = Ok s' /\ P xs s'.
Proof.
  intros Hbody.
  assert (H : forall post pre s, xs = pre ++ post -> P pre s ->
                exists s', for_each post body s = Ok s' /\ P xs s').
  { induction post as [|x post IH]; intros pre s E Hs; simpl.
    - rewrite app_nil_r in E. subst. eauto.
    - destruct (Hbody pre x post s E Hs) as [s1 [E1 H1]]. rewrite E1. simpl.
      apply (IH (pre ++ [x])); [|exact H1].
      rewrite <- app_assoc. exact E. }
  intros s Hs. apply (H xs [] s); auto.
Qed.

Lemma generate_placements_by_anchor (orientations : list (list orientation)) :
  (7 <= List.length orientations)%nat ->
  generate_placements orientations
  = for_each coordinates
      (fun anchor => for_each (iterations_at orientations anchor) place_iteration)
      initial_tables.
Proof.
  intros Hlen. rewrite (generate_placements_loop orientations Hlen).
  unfold iterations. rewrite for_each_flat_map. reflexivity.
Qed.

Lemma iterations_at_In (orientations : list (list orientation))
    (a anchor : cell) (piece : nat) (orient : orientation) (base : cell) :
  In (a, piece, orient, base) (iterations_at orientations anchor) <->
  a = anchor /\ (piece < 7)%nat /\
  In orient (nth piece orientations []) /\ In base orient.
Proof.
  unfold iterations_at. split.
  - intros H. apply in_flat_map in H as [p [Hp H]].
    apply in_flat_map in H as [o [Ho H]].
    apply in_map_iff in H as [b [[= <- <- <- <-] Hb]].
    apply in_seq in Hp. repeat split; try assumption; lia.
  - intros [-> [Hp [Ho Hb]]].
    apply in_flat_map; exists piece; split; [apply in_seq; lia|].
    apply in_flat_map; exists orient; split; [exact Ho|].
    apply in_map_iff. exists base. split; [reflexivity|exact Hb].
Qed.

Lemma coordinates_sorted : StronglySorted cell_le coordinates.
Proof.
  replace coordinates with (sorted coordinates) by reflexivity.
  apply sorted_sorted.
Qed.

Lemma sorted_suffix (pre post : list cell) :
  StronglySorted cell_le (pre ++ post) -> StronglySorted cell_le post.
Proof.
  induction pre as [|c pre IH]; simpl; intros H; [exact H|].
  inversion H; subst. auto.
Qed.

(** A cell of the volume below an anchor was an anchor before. *)
Lemma earlier_anchor (pre post : list cell) (a a' : cell) :
  coordinates = pre ++ a :: post ->
  In a' coordinates -> cell_le a' a -> a' <> a -> In a' pre.
Proof.
  intros E Hin Hle Hne. pose proof coordinates_sorted as Hs.
  rewrite E in Hs, Hin.
  apply in_app_or in Hin as [H|[H|H]]; [exact H|congruence|].
  exfalso. apply sorted_suffix in Hs.
  inversion Hs as [|? ? _ Hall]; subst. rewrite Forall_forall in Hall.
  apply Hne. apply cell_le_antisym; [exact Hle|apply Hall; exact H].
Qed.

Lemma adjusted_cells_In (anchor : cell) (orient : orientation) (base c : cell) :
  In c (adjusted_cells anchor orient base) <->
  exists o, In o orient /\
            c = (proj_x anchor + proj_x o - proj_x base,
                 proj_y anchor + proj_y o - proj_y base,
                 proj_z anchor + proj_z o - proj_z base).
Proof.
  destruct anchor as [[a0 a1] a2], base as [[b0 b1] b2].
  unfold adjusted_cells, proj_x, proj_y, proj_z. simpl.
  split.
  - intros H. apply (Permutation_in _ (sorted_perm _)) in H.
    apply in_map_iff in H as [[[o0 o1] o2] [<- Ho]].
    exists (o0, o1, o2). auto.
  - intros [[[o0 o1] o2] [Ho ->]].
    apply (Permutation_in _ (Permutation_sym (sorted_perm _))).
    apply in_map_iff. exists (o0, o1, o2). auto.
Qed.

(** The same cells are reached from any of them taken as anchor. *)
Lemma adjusted_cells_reanchor (anchor : cell) (orient : orientation)
    (base o : cell) :
  adjusted_cells (proj_x anchor + proj_x o - proj_x base,
                  proj_y anchor + proj_y o - proj_y base,
                  proj_z anchor + proj_z o - proj_z base) orient o
  = adjusted_cells anchor orient base.
Proof.
  destruct anchor as [[a0 a1] a2], base as [[b0 b1] b2], o as [[o0 o1] o2].
  unfold adjusted_cells, proj_x, proj_y, proj_z. simpl. f_equal.
  apply map_ext. intros [[x y] z]. f_equal; [f_equal|]; lia.
Qed.

Lemma sorted_hd_least (cs : cubelets) (c : cell) :
  In c (sorted cs) -> cell_le (hd (0, 0, 0) (sorted cs)) c.
Proof.
  pose proof (sorted_sorted cs) as Hs.
  destruct (sorted cs) as [|m rest]; [intros []|].
  inversion Hs as [|? ? _ Hall]; subst. rewrite Forall_forall in Hall.
  simpl. intros [<-|H]; [apply cell_le_refl|auto].
Qed.

(** A placement is first met at the smallest of its cells. *)
Lemma first_anchor_is_least (orientations : list (list orientation))
    (pre post : list cell) (anchor : cell) (piece : nat)
    (orient : orientation) (base : cell) (st : tables) :
  coordinates = pre ++ anchor :: post ->
  (forall a', In a' pre -> anchor_done orientations st a') ->
  (piece < 7)%nat -> In orient (nth piece orientations []) -> In base orient ->
  forallb in_bounds (adjusted_cells anchor orient base) = true ->
  dict_get key_eqb (placements st) (piece, adjusted_cells anchor orient base) = None ->
  hd (0, 0, 0) (adjusted_cells anchor orient base) = anchor.
Proof.
  intros E Hdone Hp Ho Hb Hfit Hnew.
  set (adj := adjusted_cells anchor orient base) in *.
  set (a' := hd (0, 0, 0) adj).
  assert (Hanchor : In anchor adj).
  { apply adjusted_cells_In. exists base. split; [exact Hb|].
    destruct anchor as [[a0 a1] a2], base as [[b0 b1] b2].
    unfold proj_x, proj_y, proj_z. simpl. f_equal; [f_equal|]; lia. }
  assert (Hsorted : forall c, In c adj -> cell_le a' c).
  { intros c Hc. unfold a', adj in *.
    destruct anchor as [[a0 a1] a2], base as [[b0 b1] b2].
    unfold adjusted_cells in *. apply sorted_hd_least. exact Hc. }
  assert (Ha' : In a' adj).
  { unfold a'. destruct adj as [|m rest]; [destruct Hanchor|left; reflexivity]. }
  destruct (cell_compare a' anchor) eqn:C.
  - apply cell_compare_eq in C. exact C.
  - exfalso.
    assert (Hne : a' <> anchor).
    { intros Heq. apply cell_compare_eq in Heq. congruence. }
    pose proof Ha' as Hrep. apply adjusted_cells_In in Hrep as [o [Hoin Ea']].
    assert (Hvol : in_volume a').
    { apply forallb_in_bounds in Hfit. rewrite Forall_forall in Hfit. auto. }
    assert (Hpre : In a' pre).
    { apply (earlier_anchor pre post anchor a' E); auto.
      apply coordinates_In. exact Hvol. }
    destruct (Hdone a' Hpre piece orient o Hp Ho Hoin) as [v Hv].
    + rewrite Ea', adjusted_cells_reanchor. exact Hfit.
    + rewrite Ea', adjusted_cells_reanchor in Hv. fold adj in Hv.
      apply (dict_get_None key_eqb key_eqb_eq) in Hnew. apply Hnew.
      apply in_map_iff. exists ((piece, adj), v). auto.
  - exfalso. specialize (Hsorted anchor Hanchor).
    unfold cell_le, cell_leb in Hsorted. rewrite C in Hsorted. discriminate.
Qed.

Lemma adjusted_cells_sorted (anchor : cell) (orient : orientation) (base : cell) :
  StronglySorted cell_le (adjusted_cells anchor orient base).
Proof.
  destruct anchor as [[a0 a1] a2], base as [[b0 b1] b2].
  unfold adjusted_cells. apply sorted_sorted.
Qed.

Lemma adjusted_cells_anchor (anchor : cell) (orient : orientation) (base : cell) :
  In base orient -> In anchor (adjusted_cells anchor orient base).
Proof.
  intros Hb. apply adjusted_cells_In. exists base. split; [exact Hb|].
  destruct anchor as [[a0 a1] a2], base as [[b0 b1] b2].
  unfold proj_x, proj_y, proj_z. simpl. f_equal; [f_equal|]; lia.
Qed.

(** One iteration keeps the names in step with the placements. *)
Lemma place_names (orientations : list (list orientation))
    (pre post : list cell) (anchor : cell) (piece : nat)
    (orient : orientation) (base : cell) (st : tables) :
  coordinates = pre ++ anchor :: post ->
  (forall a', In a' pre -> anchor_done orientations st a') ->
  (piece < 7)%nat -> In orient (nth piece orientations []) -> In base orient ->
  invariant st -> names_ok st ->
  exists st',
    place anchor piece orient base st = Ok st' /\
    invariant st' /\ names_ok st' /\
    (forall k v, In (k, v) (placements st) -> In (k, v) (placements st')) /\
    (forallb in_bounds (adjusted_cells anchor orient base) = true ->
     exists v, In ((piece, adjusted_cells anchor orient base), v) (placements st')).
Proof.
  intros E Hdone Hp Ho Hb Hinv [Hkeys Hnames].
  destruct (place_spec anchor piece orient base st Hinv Hp)
    as [st' [Hplace [Hinv' [Hmono Hkey]]]].
  exists st'. split; [exact Hplace|]. split; [exact Hinv'|].
  split; [|split; assumption].
  apply place_result in Hplace. cbv zeta in Hplace. unfold names_ok.
  set (adj := adjusted_cells anchor orient base) in *.
  destruct (forallb in_bounds adj) eqn:B; simpl in Hplace.
  2: { destruct Hplace as [-> [-> _]]. split; assumption. }
  unfold dict_mem in Hplace.
  destruct (dict_get key_eqb (placements st) (piece, adj)) as [var|] eqn:G;
    simpl in Hplace.
  { destruct Hplace as [-> [-> _]]. split; assumption. }
  destruct Hplace as [Hpl [Hnm _]].
  pose proof Hinv as [[Hc Hv _ _] _].
  assert (Hfresh : dict_get Z.eqb (var_names st) (var_counter st) = None).
  { apply (dict_get_None Z.eqb Z.eqb_eq). rewrite Hkeys, Hv, values_In. lia. }
  split.
  - rewrite Hnm, Hpl, (dict_set_keys Z.eqb), Hfresh.
    rewrite (dict_set_fresh key_eqb _ _ _ G), map_app, Hkeys. reflexivity.
  - intros p' adj' v Hin. rewrite Hpl in Hin.
    apply (dict_set_In key_eqb key_eqb_eq) in Hin as [[[= -> ->] ->]|Hin].
    + split; [|split].
      * intros Hnil.
        pose proof (adjusted_cells_anchor anchor orient base Hb) as Ha.
        fold adj in Ha. rewrite Hnil in Ha. destruct Ha.
      * apply adjusted_cells_sorted.
      * rewrite Hnm, (dict_get_set_same Z.eqb Z.eqb_eq). do 2 f_equal. symmetry.
        apply (first_anchor_is_least orientations pre post anchor piece orient base st);
          assumption.
    + destruct (Hnames p' adj' v Hin) as [H1 [H2 H3]].
      split; [exact H1|]. split; [exact H2|].
      rewrite Hnm, (dict_get_set_other Z.eqb Z.eqb_eq); [exact H3|].
      pose proof (variable_range st _ v Hinv Hin). lia.
Qed.

Lemma anchor_done_mono (orientations : list (list orientation))
    (st st' : tables) (a : cell) :
  (forall k v, In (k, v) (placements st) -> In (k, v) (placements st')) ->
  anchor_done orientations st a -> anchor_done orientations st' a.
Proof.
  intros Hmono Hdone piece orient base Hp Ho Hb Hfit.
  destruct (Hdone piece orient base Hp Ho Hb Hfit) as [v Hv]. eauto.
Qed.

(** The pass for one anchor. *)
Lemma anchor_pass (orientations : list (list orientation))
    (pre post : list cell) (anchor : cell) (st : tables) :
  coordinates = pre ++ anchor :: post ->
  invariant st /\ names_ok st /\
  (forall a', In a' pre -> anchor_done orientations st a') ->
  exists st',
    for_each (iterations_at orientations anchor) place_iteration st = Ok st' /\
    invariant st' /\ names_ok st' /\
    forall a', In a' (pre ++ [anchor]) -> anchor_done orientations st' a'.
Proof.
  intros E Hst.
  destruct (for_each_establishes
              (fun s => invariant s /\ names_ok s /\
                        forall a', In a' pre -> anchor_done orientations s a')
              (fun it s =>
                 let '(a, piece, orient, base) := it in
                 forallb in_bounds (adjusted_cells a orient base) = true ->
                 exists v, In ((piece, adjusted_cells a orient base), v)
                              (placements s))
              (iterations_at orientations anchor) place_iteration)
    with (s := st) as [st' [Hrun [[Hinv [Hnames Hdone]] [HQ _]]]].
  - intros [[[a piece] orient] base] s Hit [Hinv [Hnames Hdone]].
    apply iterations_at_In in Hit as [-> [Hp [Ho Hb]]].
    destruct (place_names orientations pre post anchor piece orient base s
                E Hdone Hp Ho Hb Hinv Hnames)
      as [s' [Hplace [Hinv' [Hnames' [Hmono Hkey]]]]].
    exists s'. split; [exact Hplace|]. split; [|split; [exact Hkey|]].
    + split; [exact Hinv'|]. split; [exact Hnames'|].
      intros a' Ha'. eapply anchor_done_mono; eauto.
    + intros [[[a p] o] b] Hy Hfit. destruct (Hy Hfit) as [v Hv]. eauto.
  - exact Hst.
  - exists st'. split; [exact Hrun|]. split; [exact Hinv|]. split; [exact Hnames|].
    intros a' Ha'. apply in_app_or in Ha' as [Ha'|[<-|[]]]; [auto|].
    intros piece orient base Hp Ho Hb.
    apply (HQ (anchor, piece, orient, base)).
    apply iterations_at_In. auto.
Qed.

(** X8. Every variable has exactly one entry in [var_names], in the order
    of the variables, and the name of a variable is [P_{xyzi}] where
    (x, y, z) is, counted from 1, the lexicographically smallest cell of its
    placement and i is the piece number plus one. *)
Theorem variable_names (orientations : list (list orientation)) :
  (7 <= List.length orientations)%nat ->
  exists st,
    generate_placements orientations = Ok st /\
    map fst (var_names st) = map snd (placements st) /\
    forall piece adj v,
      In ((piece, adj), v) (placements st) ->
      exists least rest,
        adj = least :: rest /\
        (forall c, In c adj -> cell_le least c) /\
        dict_get Z.eqb (var_names st) v = Some (var_name least piece).
Proof.
  intros Hlen. rewrite (generate_placements_by_anchor orientations Hlen).
  destruct (for_each_prefix
              (fun done s => invariant s /\ names_ok s /\
                             forall a', In a' done -> anchor_done orientations s a')
              coordinates
              (fun anchor =>
                 for_each (iterations_at orientations anchor) place_iteration))
    with (s := initial_tables) as [st [Hrun [_ [[Hkeys Hnames] _]]]].
  - intros pre anchor post s E Hs. apply (anchor_pass orientations pre post); auto.
  - split; [exact initial_invariant|]. split; [|intros a' []].
    split; [reflexivity|intros piece adj v []].
  - exists st. split; [exact Hrun|]. split; [exact Hkeys|].
    intros piece adj v Hin. destruct (Hnames piece adj v Hin) as [Hne [Hs Hname]].
    destruct adj as [|least rest]; [contradiction|].
    exists least, rest. split; [reflexivity|]. split; [|exact Hname].
    inversion Hs as [|? ? _ Hall]; subst. rewrite Forall_forall in Hall.
    intros c [<-|Hc]; [apply cell_le_refl|auto].
Qed.

Lemma variable_names_witness :
  exists st,
    generate_placements soma_orientations = Ok st /\
    map fst (var_names st) = map snd (placements st) /\
    forall piece adj v,
      In ((piece, adj), v) (placements st) ->
      exists least rest,
        adj = least :: rest /\
        (forall c, In c adj -> cell_le least c) /\
        dict_get Z.eqb (var_names st) v = Some (var_name least piece).
Proof.
  apply (variable_names soma_orientations). simpl. lia.
Defined.

(** Names are not identifiers: on the seven pieces the first two variables,
    two placements of the first piece with the same smallest cell, have the
    same name. *)
Example names_repeat :
  dict_get Z.eqb (var_names soma_tables) 1 = Some "P_{1111}"%string /\
  dict_get Z.eqb (var_names soma_tables) 2 = Some "P_{1111}"%string.
Proof. split; reflexivity. Qed.

(** ** The geometry kernel and the orientation generator *)

(** X9. Each axis rotation maps a list cell by cell, every cell by the same
    rotation matrix whatever the list, and so keeps the length and the order
    of the list.  The map fixes the origin and keeps scalar products and
    signed volumes: it is a rigid motion about the origin that never
    mirrors, and it is not the identity. *)
Theorem rotations_are_rigid (r : cubelets -> cubelets) :
  In r [rotate_x; rotate_y; rotate_z] ->
  exists m : matrix,
    is_rotation m = true /\ m <> mat_id /\
    (forall cs, r cs = map (apply m) cs) /\
    apply m (0, 0, 0) = (0, 0, 0) /\
    (forall c d, dot (apply m c) (apply m d) = dot c d) /\
    (forall c d e,
       signed_volume (apply m c) (apply m d) (apply m e) = signed_volume c d e).
Proof.
  intros Hr. simpl in Hr.
  destruct Hr as [<-|[<-|[<-|[]]]];
    [exists mat_x|exists mat_y|exists mat_z];
    (split; [reflexivity|]); (split; [discriminate|]);
    (split; [intros cs; unfold rotate_x, rotate_y, rotate_z;
             apply map_ext; intros [[x y] z];
             cbv beta iota delta [apply mat_x mat_y mat_z];
             f_equal; [f_equal|]; ring|]);
    (split; [reflexivity|]);
    (split; [intros [[x1 y1] z1] [[x2 y2] z2]
            |intros [[x1 y1] z1] [[x2 y2] z2] [[x3 y3] z3]]);
    cbv beta iota delta [dot signed_volume det proj_x proj_y proj_z fst snd
                         apply mat_x mat_y mat_z];
    ring.
Qed.

Lemma rotations_are_rigid_witness :
  exists m : matrix,
    is_rotation m = true /\ m <> mat_id /\
    (forall cs, rotate_y cs = map (apply m) cs) /\
    apply m (0, 0, 0) = (0, 0, 0) /\
    (forall c d, dot (apply m c) (apply m d) = dot c d) /\
    (forall c d e,
       signed_volume (apply m c) (apply m d) (apply m e) = signed_volume c d e).
Proof.
  apply (rotations_are_rigid rotate_y). simpl. auto.
Defined.

(** Two ascending lists with the same cells, counted with repetitions, are
    equal. *)
Lemma sorted_perm_unique (l1 l2 : list cell) :
  StronglySorted cell_le l1 -> StronglySorted cell_le l2 ->
  Permutation l1 l2 -> l1 = l2.
Proof.
  intros S1. revert l2. induction S1 as [|c r1 S1 IH F1]; intros l2 S2 Hp.
  - apply Permutation_nil in Hp. subst. reflexivity.
  - destruct l2 as [|d r2].
    + apply Permutation_sym, Permutation_nil in Hp. discriminate.
    + inversion S2 as [|? ? S2' F2]; subst.
      rewrite Forall_forall in F1, F2.
      assert (c = d) as ->.
      { apply cell_le_antisym.
        - assert (H : In d (c :: r1))
            by (eapply Permutation_in; [symmetry; exact Hp|left; reflexivity]).
          destruct H as [->|H]; [apply cell_le_refl|auto].
        - assert (H : In c (d :: r2))
            by (eapply Permutation_in; [exact Hp|left; reflexivity]).
          destruct H as [->|H]; [apply cell_le_refl|auto]. }
      f_equal. apply IH; [exact S2'|]. eapply Permutation_cons_inv. exact Hp.
Qed.

Lemma sorted_permutation (l1 l2 : cubelets) :
  Permutation l1 l2 -> sorted l1 = sorted l2.
Proof.
  intros Hp. apply sorted_perm_unique; try apply sorted_sorted.
  rewrite !sorted_perm. exact Hp.
Qed.

Lemma cell_leb_shift (t0 t1 t2 x1 y1 z1 x2 y2 z2 : Z) :
  cell_leb (x1 + t0, y1 + t1, z1 + t2) (x2 + t0, y2 + t1, z2 + t2)
  = cell_leb (x1, y1, z1) (x2, y2, z2).
Proof.
  assert (H : forall a b t, (a + t ?= b + t) = (a ?= b)).
  { intros a b t. rewrite !(Z.add_comm _ t). apply Z.add_compare_mono_l. }
  unfold cell_leb, cell_compare. rewrite !H. reflexivity.
Qed.

Lemma sorted_shift (t : cell) (cs : cubelets) :
  sorted (shift t cs) = shift t (sorted cs).
Proof.
  destruct t as [[t0 t1] t2]. unfold shift.
  induction cs as [|[[x y] z] rest IH]; simpl; [reflexivity|].
  rewrite IH. generalize (sorted rest) as l. clear IH.
  induction l as [|[[x' y'] z'] l IH]; simpl; [reflexivity|].
  rewrite cell_leb_shift. destruct (cell_leb (x, y, z) (x', y', z')); simpl.
  - reflexivity.
  - rewrite IH. reflexivity.
Qed.

(** The canonical form does not see a translation... *)
Lemma canonical_shift (t : cell) (cs : cubelets) :
  canonical (shift t cs) = canonical cs.
Proof.
  unfold canonical. rewrite sorted_shift.
  destruct t as [[t0 t1] t2]. unfold shift.
  destruct (sorted cs) as [|[[mx my] mz] rest]; [reflexivity|].
  cbn [map]. rewrite map_map. cbn [map]. f_equal.
  - f_equal; [f_equal|]; lia.
  - apply map_ext. intros [[x y] z]. f_equal; [f_equal|]; lia.
Qed.

(** ... nor the order in which the cells are listed. *)
Lemma canonical_permutation (l1 l2 : cubelets) :
  Permutation l1 l2 -> canonical l1 = canonical l2.
Proof.
  intros Hp. unfold canonical. rewrite (sorted_permutation l1 l2 Hp). reflexivity.
Qed.

Lemma apply_shift (m : matrix) (t : cell) (cs : cubelets) :
  map (apply m) (shift t cs) = shift (apply m t) (map (apply m) cs).
Proof.
  destruct m as [[[[a11 a12] a13] [[a21 a22] a23]] [[a31 a32] a33]].
  destruct t as [[t0 t1] t2]. unfold shift, apply. rewrite !map_map.
  apply map_ext. intros [[x y] z]. f_equal; [f_equal|]; ring.
Qed.

Lemma shift_nil_iff (t : cell) (cs : cubelets) : shift t cs = [] <-> cs = [].
Proof.
  destruct t as [[t0 t1] t2]. unfold shift.
  destruct cs; simpl; split; intros H; try reflexivity; discriminate.
Qed.

(** Pieces with the same canonical images have the same orientations. *)
Lemma generate_rotations_ext (p1 p2 : cubelets) :
  (p1 = [] <-> p2 = []) ->
  (forall m, canonical (map (apply m) p1) = canonical (map (apply m) p2)) ->
  generate_rotations p1 = generate_rotations p2.
Proof.
  intros Hnil Hcanon.
  destruct p1 as [|c1 r1] eqn:E1.
  - rewrite (proj1 Hnil eq_refl). reflexivity.
  - rewrite <- E1 in *.
    assert (N1 : p1 <> []) by (rewrite E1; discriminate).
    assert (N2 : p2 <> []) by (intros H; apply N1, Hnil, H).
    rewrite !generate_rotations_pure by assumption. f_equal.
    unfold collect_all. generalize (@nil orientation) as init.
    pose proof composites_act as Hact. revert Hact.
    generalize (words5 mat_mul transform_matrices) as ms.
    generalize (words5 compose transforms) as fs.
    induction fs as [|f fs IH]; intros ms Hact init; [reflexivity|].
    inversion Hact as [|? m ? ms' Hf Hrest]; subst. simpl.
    rewrite !Hf, Hcanon. apply (IH ms' Hrest).
Qed.

(** X10. The orientations of a piece do not depend on where the piece sits
    nor on the order in which its cells are listed: a translated piece and
    a piece with its cells permuted give the same list of orientations. *)
Theorem generate_rotations_shape_only (piece piece' : cubelets) (t : cell) :
  Permutation piece piece' ->
  generate_rotations (shift t piece') = generate_rotations piece.
Proof.
  intros Hp. apply generate_rotations_ext.
  - rewrite shift_nil_iff. split; intros ->.
    + symmetry in Hp. apply Permutation_nil in Hp. exact Hp.
    + apply Permutation_nil in Hp. exact Hp.
  - intros m. rewrite apply_shift, canonical_shift.
    apply canonical_permutation. apply Permutation_map. symmetry. exact Hp.
Qed.

Lemma generate_rotations_shape_only_witness :
  generate_rotations (shift (5, -2, 7) [(1, 1, 0); (0, 0, 0); (2, 1, 0); (1, 0, 0)])
  = generate_rotations Pieces.z.
Proof.
  apply (generate_rotations_shape_only Pieces.z
           [(1, 1, 0); (0, 0, 0); (2, 1, 0); (1, 0, 0)] (5, -2, 7)).
  unfold Pieces.z.
  apply (perm_trans (l' := [(1, 0, 0); (0, 0, 0); (1, 1, 0); (2, 1, 0)])).
  - apply perm_swap.
  - apply (perm_trans (l' := [(1, 0, 0); (1, 1, 0); (0, 0, 0); (2, 1, 0)])).
    + apply perm_skip. apply perm_swap.
    + apply (perm_trans (l' := [(1, 1, 0); (1, 0, 0); (0, 0, 0); (2, 1, 0)])).
      * apply perm_swap.
      * apply perm_skip.
        apply (perm_trans (l' := [(0, 0, 0); (1, 0, 0); (2, 1, 0)])).
        -- apply perm_swap.
        -- apply perm_skip. apply perm_swap.
Defined.

Lemma Ok_inj {A : Type} (x y : A) : Ok x = Ok y -> x = y.
Proof. intros H. injection H as ->. reflexivity. Qed.

Lemma canonical_length (cs : cubelets) :
  List.length (canonical cs) = List.length cs.
Proof.
  rewrite canonical_translate. pose proof (sorted_length cs) as H.
  destruct (sorted cs) as [|[[mx my] mz] rest]; [exact H|].
  unfold translate. rewrite length_map. exact H.
Qed.

Lemma add_new_hd (o first : orientation) (os : list orientation) :
  hd_error os = Some first -> hd_error (add_new o os) = Some first.
Proof.
  unfold add_new. destruct (orientation_in o os); [auto|].
  destruct os; [discriminate|]. simpl. auto.
Qed.

Lemma collect_hd (piece : cubelets) (fs : list (cubelets -> cubelets))
    (init : list orientation) (first : orientation) :
  hd_error init = Some first ->
  hd_error (fold_left (fun os f => add_new (canonical (f piece)) os) fs init)
  = Some first.
Proof.
  revert init. induction fs as [|f fs IH]; intros init H; simpl; [exact H|].
  apply IH. apply add_new_hd. exact H.
Qed.

(** X11. [generate_rotations] raises [IndexError] on the empty piece and on
    no other.  For a non-empty piece it returns between 1 and 24 pairwise
    different orientations, the first of which is the canonical form of the
    piece as given, each with as many cells as the piece. *)
Theorem generate_rotations_result (piece : cubelets) :
  (piece = [] /\ generate_rotations piece = Raise IndexError) \/
  (piece <> [] /\
   exists os,
     generate_rotations piece = Ok os /\
     hd_error os = Some (canonical piece) /\
     (1 <= List.length os <= 24)%nat /\
     NoDup os /\
     forall o, In o os -> List.length o = List.length piece).
Proof.
  destruct piece as [|c rest] eqn:E; [left; split; reflexivity|].
  right. rewrite <- E. assert (Hne : piece <> []) by (rewrite E; discriminate).
  split; [exact Hne|].
  destruct (generate_rotations_spec piece Hne) as [os [Hrun [Hnd Hin]]].
  exists os. split; [exact Hrun|]. split; [|split; [|split; [exact Hnd|]]].
  - assert (Eos : os = collect_all (words5 compose transforms) piece).
    { pose proof (generate_rotations_pure piece Hne) as Hpure.
      rewrite Hrun in Hpure. apply Ok_inj. exact Hpure. }
    rewrite Eos. unfold collect_all.
    assert (Hw : exists fs,
               words5 compose transforms
               = compose identity (compose identity (compose identity
                   (compose identity identity))) :: fs)
      by (eexists; reflexivity).
    destruct Hw as [fs ->]. simpl. apply collect_hd. reflexivity.
  - split.
    + assert (H : In (canonical (map (apply mat_id) piece)) os).
      { apply Hin. exists mat_id. split; [exact mat_id_rotation|reflexivity]. }
      destruct os; [destruct H|simpl; lia].
    + rewrite <- rotation_group_size.
      rewrite <- (length_map (fun g => canonical (map (apply g) piece))).
      apply NoDup_incl_length; [exact Hnd|].
      intros o Ho. apply Hin in Ho as [g [Hg ->]].
      apply in_map_iff. exists g. split; [reflexivity|exact Hg].
  - intros o Ho. apply Hin in Ho as [g [_ ->]].
    rewrite canonical_length, length_map. reflexivity.
Qed.

(** X12. When the piece lists no cell twice, no two of its orientations
    hold the same cells, and every orientation is a strictly ascending
    list. *)
Theorem orientations_differ_as_sets (piece : cubelets) :
  piece <> [] -> NoDup piece ->
  exists os,
    generate_rotations piece = Ok os /\
    (forall o, In o os -> StronglySorted cell_le o /\ NoDup o) /\
    forall i j o1 o2,
      nth_error os i = Some o1 -> nth_error os j = Some o2 ->
      same_cells o1 o2 -> i = j.
Proof.
  intros Hne Hnd.
  destruct (generate_rotations_spec piece Hne) as [os [Hrun [Hnodup Hin]]].
  exists os. split; [exact Hrun|].
  assert (Hshape : forall o, In o os -> StronglySorted cell_le o /\ NoDup o).
  { intros o Ho. apply Hin in Ho as [g [Hg ->]]. split.
    - apply canonical_sorted.
    - apply canonical_NoDup. apply Injective_map_NoDup; [|exact Hnd].
      intros c d. apply rotation_injective. exact Hg. }
  split; [exact Hshape|].
  intros i j o1 o2 Hi Hj Hsame.
  destruct (Hshape o1 (nth_error_In _ _ Hi)) as [S1 N1].
  destruct (Hshape o2 (nth_error_In _ _ Hj)) as [S2 N2].
  assert (o1 = o2) as -> by (apply sorted_extensional; assumption).
  apply (proj1 (NoDup_nth_error os) Hnodup).
  - apply nth_error_Some. congruence.
  - congruence.
Qed.

Lemma orientations_differ_as_sets_witness :
  exists os,
    generate_rotations straight = Ok os /\
    (forall o, In o os -> StronglySorted cell_le o /\ NoDup o) /\
    forall i j o1 o2,
      nth_error os i = Some o1 -> nth_error os j = Some o2 ->
      same_cells o1 o2 -> i = j.
Proof.
  apply (orientations_differ_as_sets straight).
  - discriminate.
  - apply (distinct_NoDup cell_eqb); [exact cell_eqb_eq|reflexivity].
Defined.

(** A piece that lists a cell twice can have two orientations with the same
    cells. *)
Example repeated_cell_orientations :
  exists os,
    generate_rotations [(0, 0, 0); (0, 0, 0); (1, 0, 0)] = Ok os /\
    nth_error os 0 = Some [(0, 0, 0); (0, 0, 0); (1, 0, 0)] /\
    nth_error os 4 = Some [(0, 0, 0); (1, 0, 0); (1, 0, 0)] /\
    same_cells [(0, 0, 0); (0, 0, 0); (1, 0, 0)] [(0, 0, 0); (1, 0, 0); (1, 0, 0)].
Proof.
  eexists. split; [vm_compute; reflexivity|].
  split; [reflexivity|]. split; [reflexivity|].
  intros c. simpl. tauto.
Qed.

(** The rotations are closed under product and transposition. *)
Lemma rotation_product (g h : matrix) :
  In g rotation_group -> In h rotation_group -> In (mat_mul g h) rotation_group.
Proof.
  intros Hg Hh.
  assert (H : forallb (fun g => forallb (fun h => is_rotation (mat_mul g h))
                                        rotation_group) rotation_group = true)
    by (vm_compute; reflexivity).
  rewrite forallb_forall in H. specialize (H g Hg).
  rewrite forallb_forall in H. apply rotation_group_complete. exact (H h Hh).
Qed.

Lemma rotation_transpose (g : matrix) :
  In g rotation_group -> In (transpose g) rotation_group.
Proof.
  intros Hg.
  assert (H : forallb (fun g => is_rotation (transpose g)) rotation_group = true)
    by (vm_compute; reflexivity).
  rewrite forallb_forall in H. apply rotation_group_complete. exact (H g Hg).
Qed.

Lemma canonical_as_shift (cs : cubelets) :
  exists t, canonical cs = shift t (sorted cs).
Proof.
  unfold canonical. destruct (sorted cs) as [|[[mx my] mz] rest] eqn:E.
  - exists (0, 0, 0). reflexivity.
  - exists (- mx, - my, - mz). unfold shift.
    apply map_ext. intros [[x y] z]. rewrite !Z.add_opp_r. reflexivity.
Qed.

(** Rotating a canonical form or the piece it comes from leads to the same
    canonical form. *)
Lemma canonical_of_canonical (m : matrix) (cs : cubelets) :
  canonical (map (apply m) (canonical cs)) = canonical (map (apply m) cs).
Proof.
  destruct (canonical_as_shift cs) as [t ->].
  rewrite apply_shift, canonical_shift.
  apply canonical_permutation, Permutation_map, sorted_perm.
Qed.

(** X13. The orientations of a piece form one family: starting from any
    orientation in the list instead of the piece gives a list with the same
    orientations, hence of the same length. *)
Theorem orientations_closed (piece : cubelets) (os : list orientation)
    (o : orientation) :
  generate_rotations piece = Ok os -> In o os ->
  exists os',
    generate_rotations o = Ok os' /\
    List.length os' = List.length os /\
    forall o', In o' os' <-> In o' os.
Proof.
  intros Hrun Ho.
  assert (Hne : piece <> []) by (intros ->; discriminate Hrun).
  destruct (generate_rotations_spec piece Hne) as [os0 [Hrun0 [Hnd Hin]]].
  rewrite Hrun in Hrun0. apply Ok_inj in Hrun0. subst os0.
  apply Hin in Ho as [g [Hg ->]].
  assert (Hne' : canonical (map (apply g) piece) <> []).
  { intros E. apply (f_equal (@List.length cell)) in E.
    rewrite canonical_length, length_map in E.
    destruct piece; [contradiction|discriminate]. }
  destruct (generate_rotations_spec _ Hne') as [os' [Hrun' [Hnd' Hin']]].
  exists os'. split; [exact Hrun'|].
  assert (Hsame : forall o', In o' os' <-> In o' os).
  { intros o'. rewrite Hin', Hin. split.
    - intros [h [Hh ->]]. exists (mat_mul h g).
      split; [apply rotation_product; assumption|].
      rewrite canonical_of_canonical, map_map. f_equal.
      apply map_ext. intros c. symmetry. apply apply_mat_mul.
    - intros [k [Hk ->]]. exists (mat_mul k (transpose g)).
      split; [apply rotation_product; [exact Hk|apply rotation_transpose; exact Hg]|].
      rewrite canonical_of_canonical, map_map. f_equal.
      apply map_ext. intros c.
      rewrite apply_mat_mul, (rotation_inverse g c Hg). reflexivity. }
  split; [|exact Hsame].
  apply Permutation_length. apply NoDup_Permutation; assumption.
Qed.

Lemma orientations_closed_witness :
  exists os',
    generate_rotations [(0, 0, 0); (1, 0, -1); (1, 0, 0); (2, 0, -1)] = Ok os' /\
    List.length os' = List.length (nth 0 soma_orientations []) /\
    forall o', In o' os' <-> In o' (nth 0 soma_orientations []).
Proof.
  apply (orientations_closed Pieces.z (nth 0 soma_orientations [])
           [(0, 0, 0); (1, 0, -1); (1, 0, 0); (2, 0, -1)]).
  - vm_compute. reflexivity.
  - simpl. auto.
Defined.

(** ** Reconstruction of a solution *)

Lemma paint_cells_spec (piece : nat) (adjusted : orientation)
    (d : list (cell * string)) :
  (piece < 7)%nat -> NoDup (map fst d) ->
  exists d',
    paint_cells piece adjusted d = Ok d' /\
    NoDup (map fst d') /\
    forall c, dict_get cell_eqb d' c
              = if existsb (cell_eqb c) adjusted then nth_error colors piece
                else dict_get cell_eqb d c.
Proof.
  intros Hp. unfold paint_cells.
  assert (Hcolor : exists color, nth_error colors piece = Some color).
  { destruct (nth_error colors piece) eqn:E; [eauto|].
    apply nth_error_None in E. simpl in E. lia. }
  destruct Hcolor as [color Hcolor].
  assert (Hsub : subscript colors piece = Ok color)
    by (unfold subscript; rewrite Hcolor; reflexivity).
  rewrite Hcolor, Hsub. cbn [bind]. revert d.
  induction adjusted as [|c0 rest IH]; intros d Hnd; simpl.
  - exists d. auto.
  - destruct (IH (dict_set cell_eqb d c0 color)) as [d' [Hrun [Hnd' Hget]]].
    + apply (dict_set_keys_NoDup cell_eqb cell_eqb_eq). exact Hnd.
    + exists d'. split; [exact Hrun|]. split; [exact Hnd'|].
      intros c. rewrite Hget.
      destruct (existsb (cell_eqb c) rest); [rewrite orb_true_r; reflexivity|].
      rewrite orb_false_r. destruct (cell_eqb c c0) eqn:Ec.
      * apply cell_eqb_eq in Ec. subst.
        apply (dict_get_set_same cell_eqb cell_eqb_eq).
      * apply cell_eqb_neq in Ec.
        apply (dict_get_set_other cell_eqb cell_eqb_eq). exact Ec.
Qed.

Lemma last_cover_app (chosen_model : list Z) (c : cell)
    (pl : list (placement_key * Z)) (e : placement_key * Z) :
  last_cover chosen_model c (pl ++ [e])
  = if in_model chosen_model (snd e) && covers c e
    then Some (fst (fst e)) else last_cover chosen_model c pl.
Proof. unfold last_cover. rewrite fold_left_app. reflexivity. Qed.

(** The colouring built from tables whose piece numbers are below 7. *)
Lemma solution_cells_spec (pl : list (placement_key * Z)) (chosen_model : list Z) :
  (forall k v, In (k, v) pl -> (fst k < 7)%nat) ->
  exists cells,
    solution_cells pl chosen_model = Ok cells /\
    NoDup (map fst cells) /\
    forall c, dict_get cell_eqb cells c = color_of (last_cover chosen_model c pl).
Proof.
  intros Hpieces. unfold solution_cells.
  destruct (for_each_prefix
              (fun done d =>
                 NoDup (map fst d) /\
                 forall c, dict_get cell_eqb d c
                           = color_of (last_cover chosen_model c done))
              pl
              (fun (entry : placement_key * Z) d =>
                 let '((piece, adjusted), var) := entry in
                 if in_model chosen_model var
                 then paint_cells piece adjusted d
                 else Ok d))
    with (s := @nil (cell * string)) as [cells [Hrun [Hnd Hget]]].
  - intros pre [[piece adjusted] var] post d E [Hnd Hget].
    assert (Hp : (piece < 7)%nat).
    { apply (Hpieces (piece, adjusted) var). rewrite E.
      apply in_or_app. right. left. reflexivity. }
    destruct (in_model chosen_model var) eqn:M.
    + destruct (paint_cells_spec piece adjusted d Hp Hnd) as [d' [Hrun [Hnd' Hget']]].
      exists d'. split; [exact Hrun|]. split; [exact Hnd'|].
      intros c. rewrite Hget', last_cover_app. unfold covers. simpl. rewrite M.
      simpl. destruct (existsb (cell_eqb c) adjusted); [reflexivity|apply Hget].
    + exists d. split; [reflexivity|]. split; [exact Hnd|].
      intros c. rewrite last_cover_app. simpl. rewrite M. simpl. apply Hget.
  - split; [constructor|reflexivity].
  - exists cells. auto.
Qed.

(** X14. Reconstruction from the tables of [generate_placements] never
    raises, whatever the model.  A cell gets the colour of the last selected
    placement that covers it, in the order of [placements]; a cell that no
    selected placement covers does not appear; no cell appears twice. *)
Theorem reconstruction_last_wins (orientations : list (list orientation))
    (chosen_model : list Z) :
  (7 <= List.length orientations)%nat ->
  exists st cells,
    generate_placements orientations = Ok st /\
    solution_cells (placements st) chosen_model = Ok cells /\
    solution_list (placements st) chosen_model
    = Ok (map (fun '((x, y, z), color) => (x, y, z, color)) cells) /\
    NoDup (map fst cells) /\
    forall c, dict_get cell_eqb cells c
              = color_of (last_cover chosen_model c (placements st)).
Proof.
  intros Hlen.
  destruct (generate_placements_spec orientations Hlen)
    as [st [Hrun [[[_ _ _ Hb] _] _]]].
  destruct (solution_cells_spec (placements st) chosen_model)
    as [cells [Hcells [Hnd Hget]]].
  { intros k v Hin. apply (Hb k v Hin). }
  exists st, cells. split; [exact Hrun|]. split; [exact Hcells|].
  split; [|split; assumption].
  unfold solution_list. rewrite Hcells. reflexivity.
Qed.

Lemma reconstruction_last_wins_witness :
  exists st cells,
    generate_placements soma_orientations = Ok st /\
    solution_cells (placements st) [1; 2] = Ok cells /\
    solution_list (placements st) [1; 2]
    = Ok (map (fun '((x, y, z), color) => (x, y, z, color)) cells) /\
    NoDup (map fst cells) /\
    forall c, dict_get cell_eqb cells c
              = color_of (last_cover [1; 2] c (placements st)).
Proof.
  apply (reconstruction_last_wins soma_orientations [1; 2]). simpl. lia.
Defined.

Lemma last_cover_spec (chosen_model : list Z) (c : cell)
    (pl : list (placement_key * Z)) :
  match last_cover chosen_model c pl with
  | Some piece =>
      exists adj v, In ((piece, adj), v) pl /\
                    in_model chosen_model v = true /\ In c adj
  | None =>
      forall e, In e pl -> in_model chosen_model (snd e) && covers c e = false
  end.
Proof.
  induction pl as [|[[p adj] v] pl IH] using rev_ind.
  - simpl. intros e [].
  - rewrite last_cover_app. simpl fst. simpl snd.
    match goal with
    | |- context [if ?b then _ else _] => destruct b eqn:Hsel
    end.
    + apply andb_true_iff in Hsel as [M C]. exists adj, v.
      split; [apply in_or_app; right; left; reflexivity|]. split; [exact M|].
      unfold covers in C. simpl in C.
      apply existsb_exists in C as [d [Hd E]]. apply cell_eqb_eq in E. subst. exact Hd.
    + destruct (last_cover chosen_model c pl) as [piece|].
      * destruct IH as [adj' [v' [H1 H2]]]. exists adj', v'.
        split; [apply in_or_app; left; exact H1|exact H2].
      * intros e He. apply in_app_or in He as [He|[<-|[]]]; [auto|exact Hsel].
Qed.

Lemma coordinates_NoDup : NoDup coordinates.
Proof.
  apply (distinct_NoDup cell_eqb); [exact cell_eqb_eq|reflexivity].
Qed.

Lemma painted_by_tiling (st : tables) (chosen_model : list Z) :
  invariant st ->
  (forall c, In c coordinates ->
     count_true (in_model chosen_model) (covers c) st = 1%nat) ->
  exists cells,
    solution_cells (placements st) chosen_model = Ok cells /\
    Permutation (map fst cells) coordinates /\
    forall c, In c coordinates ->
      exists piece adj v color,
        In ((piece, adj), v) (placements st) /\
        in_model chosen_model v = true /\ In c adj /\
        nth_error colors piece = Some color /\
        In (c, color) cells.
Proof.
  intros Hinv Hcover. destruct Hinv as [[_ _ _ Hb] _].
  destruct (solution_cells_spec (placements st) chosen_model)
    as [cells [Hrun [Hnd Hget]]].
  { intros k v Hin. apply (Hb k v Hin). }
  exists cells. split; [exact Hrun|].
  assert (Hpainted : forall c, In c coordinates ->
            exists piece adj v color,
              In ((piece, adj), v) (placements st) /\
              in_model chosen_model v = true /\ In c adj /\
              nth_error colors piece = Some color /\
              In (c, color) cells).
  { intros c Hc. specialize (Hcover c Hc). unfold count_true in Hcover.
    pose proof (last_cover_spec chosen_model c (placements st)) as Hlast.
    specialize (Hget c).
    destruct (last_cover chosen_model c (placements st)) as [piece|].
    - destruct Hlast as [adj [v [Hin [M Hcell]]]].
      destruct (Hb _ _ Hin) as [Hp _]. simpl in Hp.
      destruct (nth_error colors piece) as [color|] eqn:E.
      + exists piece, adj, v, color. repeat split; try assumption.
        apply (dict_get_In cell_eqb cell_eqb_eq). rewrite Hget. simpl. exact E.
      + apply nth_error_None in E. simpl in E. lia.
    - exfalso.
      destruct (filter (covers c)
                       (true_placements (in_model chosen_model)
                                        (placements st)))
        as [|e rest] eqn:F; [discriminate|].
      assert (He : In e (e :: rest)) by (left; reflexivity).
      rewrite <- F in He. apply filter_In in He as [He C].
      unfold true_placements in He. apply filter_In in He as [He M].
      specialize (Hlast e He). rewrite M, C in Hlast. discriminate. }
  split; [|exact Hpainted].
  apply NoDup_Permutation; [exact Hnd|exact coordinates_NoDup|].
  intros c. split.
  - intros Hkey.
    destruct (dict_get cell_eqb cells c) as [color|] eqn:G.
    + rewrite Hget in G.
      pose proof (last_cover_spec chosen_model c (placements st)) as Hlast.
      destruct (last_cover chosen_model c (placements st)) as [piece|];
        [|discriminate].
      destruct Hlast as [adj [v [Hin [_ Hcell]]]].
      destruct (Hb _ _ Hin) as [_ Hvol]. simpl in Hvol.
      rewrite Forall_forall in Hvol. apply coordinates_In. exact (Hvol c Hcell).
    + apply (dict_get_None cell_eqb cell_eqb_eq) in G. contradiction.
  - intros Hc. destruct (Hpainted c Hc) as [p [adj [v [color [_ [_ [_ [_ Hin]]]]]]]].
    apply in_map_iff. exists (c, color). auto.
Qed.


(** X15. On the seven pieces, when the chosen model covers every cell of
    the volume by exactly one selected placement, the reconstruction lists
    each of the 27 cells exactly once, with the colour of the piece whose
    selected placement covers it. *)
Theorem tiling_is_painted (chosen_model : list Z) :
  (forall c, In c coordinates ->
     count_true (in_model chosen_model) (covers c) soma_tables = 1%nat) ->
  exists cells,
    solution_cells (placements soma_tables) chosen_model = Ok cells /\
    Permutation (map fst cells) coordinates /\
    forall c, In c coordinates ->
      exists piece adj v color,
        In ((piece, adj), v) (placements soma_tables) /\
        in_model chosen_model v = true /\ In c adj /\
        nth_error colors piece = Some color /\
        In (c, color) cells.
Proof.
  exact (painted_by_tiling soma_tables chosen_model soma_invariant).
Qed.

Lemma tiling_is_painted_witness :
  exists cells,
    solution_cells (placements soma_tables) solution = Ok cells /\
    Permutation (map fst cells) coordinates /\
    forall c, In c coordinates ->
      exists piece adj v color,
        In ((piece, adj), v) (placements soma_tables) /\
        in_model solution v = true /\ In c adj /\
        nth_error colors piece = Some color /\
        In (c, color) cells.
Proof.
  apply (tiling_is_painted solution).
  intros c Hc. unfold coordinates in Hc. simpl in Hc.
  repeat (destruct Hc as [<-|Hc]; [vm_compute; reflexivity|]). destruct Hc.
Defined.

(** When no model was found the script exits before any reconstruction. *)
Example reconstruct_no_model (pl : list (placement_key * Z)) :
  reconstruct pl [] = None.
Proof. reflexivity. Qed.

(** ** Blocking clauses *)

Lemma eval_literal_opp (sigma : assignment) (lit : Z) :
  lit <> 0 -> eval_literal sigma (- lit) = negb (eval_literal sigma lit).
Proof.
  intros Hne. destruct (Z.lt_trichotomy lit 0) as [H|[H|H]]; [|contradiction|].
  - replace lit with (- (- lit)) at 2 by lia.
    rewrite (eval_negative sigma (- lit)), (eval_positive sigma (- lit)) by lia.
    rewrite negb_involutive. reflexivity.
  - rewrite eval_negative, eval_positive by lia. reflexivity.
Qed.

(** X16. The clause that [count_solutions] adds after a model forbids that
    model and nothing else: an assignment falsifies it exactly when it makes
    every literal of the model true. *)
Theorem blocking_clause_excludes (sigma : assignment) (model : list Z) :
  (forall lit, In lit model -> lit <> 0) ->
  (eval_clause sigma (blocking_clause model) = false <->
   forall lit, In lit model -> eval_literal sigma lit = true).
Proof.
  intros Hnz. unfold eval_clause, blocking_clause.
  induction model as [|l rest IH]; simpl.
  - split; [intros _ lit []|reflexivity].
  - rewrite orb_false_iff, IH by (intros lit H; apply Hnz; right; exact H).
    rewrite eval_literal_opp by (apply Hnz; left; reflexivity).
    rewrite negb_false_iff. split.
    + intros [H1 H2] lit [<-|H]; auto.
    + intros H. split; [apply H; left; reflexivity|].
      intros lit Hl. apply H. right. exact Hl.
Qed.

Lemma blocking_clause_excludes_witness :
  eval_clause (Z.eqb 1) (blocking_clause [1; -2; -3]) = false <->
  forall lit, In lit [1; -2; -3] -> eval_literal (Z.eqb 1) lit = true.
Proof.
  apply (blocking_clause_excludes (Z.eqb 1) [1; -2; -3]).
  simpl. intros lit H. lia.
Defined.

(** ** The formula excerpt *)

Lemma unique_literals_state (cl : clause) (unique_clause seen : list Z) :
  (forall l, In l seen <-> In l unique_clause) -> NoDup unique_clause ->
  let '(u, s) :=
    fold_left (fun state lit =>
                 let '(unique_clause, seen) := state in
                 if existsb (Z.eqb lit) seen then (unique_clause, seen)
                 else (unique_clause ++ [lit], set_add lit seen))
              cl (unique_clause, seen) in
  (forall l, In l s <-> In l u) /\ NoDup u /\
  (forall l, In l u <-> In l unique_clause \/ In l cl) /\
  exists added, u = unique_clause ++ added.
Proof.
  revert unique_clause seen.
  induction cl as [|lit rest IH]; intros u s Hsame Hnd; simpl.
  - split; [exact Hsame|]. split; [exact Hnd|]. split; [intros l; tauto|].
    exists []. rewrite app_nil_r. reflexivity.
  - destruct (existsb (Z.eqb lit) s) eqn:E.
    + specialize (IH u s Hsame Hnd).
      destruct (fold_left _ rest (u, s)) as [u' s'].
      destruct IH as [H1 [H2 [H3 H4]]].
      split; [exact H1|]. split; [exact H2|]. split; [|exact H4].
      intros l. rewrite H3. split; [tauto|].
      intros [H|[<-|H]]; auto.
      left. apply Hsame. apply existsb_exists in E as [y [Hy Ey]].
      apply Z.eqb_eq in Ey. subst. exact Hy.
    + assert (Hnot : ~ In lit u).
      { intros H. apply Hsame in H.
        assert (existsb (Z.eqb lit) s = true); [|congruence].
        apply existsb_exists. exists lit. split; [exact H|apply Z.eqb_refl]. }
      specialize (IH (u ++ [lit]) (set_add lit s)).
      destruct (fold_left _ rest (u ++ [lit], set_add lit s)) as [u' s'].
      destruct IH as [H1 [H2 [H3 [added H4]]]].
      * intros l. rewrite set_add_In, in_app_iff, Hsame. simpl. intuition.
      * apply NoDup_app; [exact Hnd|repeat constructor; intros []|].
        intros l Hl [<-|[]]. contradiction.
      * split; [exact H1|]. split; [exact H2|]. split.
        -- intros l. rewrite H3, in_app_iff. simpl. intuition.
        -- exists (lit :: added). rewrite H4, <- app_assoc. reflexivity.
Qed.

Lemma unique_literals_snoc (cl : clause) (lit : Z) :
  unique_literals (cl ++ [lit])
  = if existsb (Z.eqb lit) cl then unique_literals cl
    else unique_literals cl ++ [lit].
Proof.
  unfold unique_literals. rewrite fold_left_app.
  pose proof (unique_literals_state cl [] []) as H.
  destruct (fold_left _ cl ([], [])) as [u s]. simpl.
  destruct H as [Hsame [_ [Hin _]]]; [intros l; tauto|constructor|].
  assert (E : existsb (Z.eqb lit) s = existsb (Z.eqb lit) cl).
  { apply eq_true_iff_eq. rewrite !existsb_exists. split.
    - intros [y [Hy Ey]]. exists y. split; [|exact Ey].
      apply Hsame, Hin in Hy. destruct Hy as [[]|Hy]. exact Hy.
    - intros [y [Hy Ey]]. exists y. split; [|exact Ey].
      apply Hsame, Hin. right. exact Hy. }
  rewrite E. destruct (existsb (Z.eqb lit) cl); reflexivity.
Qed.

Lemma unique_literals_id (cl : clause) : NoDup cl -> unique_literals cl = cl.
Proof.
  induction cl as [|lit rest IH] using rev_ind; [reflexivity|].
  intros Hnd. rewrite unique_literals_snoc.
  apply NoDup_remove in Hnd as [Hnd Hnot]. rewrite app_nil_r in Hnd, Hnot.
  destruct (existsb (Z.eqb lit) rest) eqn:E.
  - exfalso. apply Hnot. apply existsb_exists in E as [y [Hy Ey]].
    apply Z.eqb_eq in Ey. subst. exact Hy.
  - f_equal. apply IH. exact Hnd.
Qed.

(** X17. The literals kept for display are the literals of the clause, each
    once, in the order of their first occurrence; a clause without
    repetition is kept as it is. *)
Theorem unique_literals_spec (cl : clause) :
  NoDup (unique_literals cl) /\
  (forall lit, In lit (unique_literals cl) <-> In lit cl) /\
  (forall lit, unique_literals (cl ++ [lit])
               = if existsb (Z.eqb lit) cl then unique_literals cl
                 else unique_literals cl ++ [lit]) /\
  (NoDup cl -> unique_literals cl = cl).
Proof.
  split; [|split; [|split; [apply unique_literals_snoc|apply unique_literals_id]]].
  - pose proof (unique_literals_state cl [] []) as H.
    unfold unique_literals.
    destruct (fold_left _ cl ([], [])) as [u s]. simpl.
    destruct H as [_ [Hnd _]]; [intros l; tauto|constructor|exact Hnd].
  - pose proof (unique_literals_state cl [] []) as H.
    unfold unique_literals.
    destruct (fold_left _ cl ([], [])) as [u s]. simpl.
    destruct H as [_ [_ [Hin _]]]; [intros l; tauto|constructor|].
    intros lit. rewrite Hin. simpl. tauto.
Qed.

Lemma insert_nat_perm (n : nat) (ns : list nat) :
  Permutation (insert_nat n ns) (n :: ns).
Proof.
  induction ns as [|m rest IH]; simpl; [reflexivity|].
  destruct (Nat.leb n m); [reflexivity|].
  rewrite IH. apply perm_swap.
Qed.

Lemma sorted_nat_perm (ns : list nat) : Permutation (sorted_nat ns) ns.
Proof.
  induction ns as [|n rest IH]; simpl; [reflexivity|].
  rewrite insert_nat_perm. constructor. exact IH.
Qed.

Lemma insert_nat_sorted (n : nat) (ns : list nat) :
  StronglySorted le ns -> StronglySorted le (insert_nat n ns).
Proof.
  induction 1 as [|m rest Hs IH Hm]; simpl.
  - repeat constructor.
  - destruct (Nat.leb n m) eqn:E.
    + apply Nat.leb_le in E. constructor; [constructor; assumption|].
      constructor; [exact E|].
      eapply Forall_impl; [|exact Hm]. intros k Hk. lia.
    + apply Nat.leb_gt in E. constructor; [exact IH|].
      eapply Permutation_Forall; [symmetry; apply insert_nat_perm|].
      constructor; [lia|exact Hm].
Qed.

Lemma sorted_nat_sorted (ns : list nat) : StronglySorted le (sorted_nat ns).
Proof.
  induction ns as [|n rest IH]; simpl; [constructor|].
  apply insert_nat_sorted. exact IH.
Qed.

Lemma nat_sorted_unique (l1 l2 : list nat) :
  StronglySorted le l1 -> StronglySorted le l2 -> Permutation l1 l2 -> l1 = l2.
Proof.
  intros S1. revert l2. induction S1 as [|n r1 S1 IH F1]; intros l2 S2 Hp.
  - apply Permutation_nil in Hp. subst. reflexivity.
  - destruct l2 as [|m r2].
    + apply Permutation_sym, Permutation_nil in Hp. discriminate.
    + inversion S2 as [|? ? S2' F2]; subst.
      rewrite Forall_forall in F1, F2.
      assert (n = m) as ->.
      { apply Nat.le_antisymm.
        - assert (H : In m (n :: r1))
            by (eapply Permutation_in; [symmetry; exact Hp|left; reflexivity]).
          destruct H as [->|H]; [lia|auto].
        - assert (H : In n (m :: r2))
            by (eapply Permutation_in; [exact Hp|left; reflexivity]).
          destruct H as [->|H]; [lia|auto]. }
      f_equal. apply IH; [exact S2'|]. eapply Permutation_cons_inv. exact Hp.
Qed.

Lemma firstn_In {A : Type} (k : nat) (xs : list A) (x : A) :
  In x (firstn k xs) -> In x xs.
Proof.
  intros H. rewrite <- (firstn_skipn k xs). apply in_or_app. left. exact H.
Qed.

Lemma firstn_sorted (k : nat) (ns : list nat) :
  StronglySorted le ns -> StronglySorted le (firstn k ns).
Proof.
  intros Hs. revert k. induction Hs as [|n rest Hs IH Hn]; intros k.
  - rewrite firstn_nil. constructor.
  - destruct k; simpl; [constructor|]. constructor; [apply IH|].
    rewrite Forall_forall in *. intros m Hm. apply Hn.
    apply (firstn_In k). exact Hm.
Qed.

Lemma firstn_NoDup' (k : nat) (ns : list nat) : NoDup ns -> NoDup (firstn k ns).
Proof.
  intros Hnd. revert k. induction Hnd as [|n rest Hn Hnd IH]; intros k.
  - rewrite firstn_nil. constructor.
  - destruct k; simpl; [constructor|]. constructor; [|apply IH].
    intros H. apply Hn. apply (firstn_In k). exact H.
Qed.

Lemma width_set_spec (clauses : list clause) :
  NoDup (width_set clauses) /\
  forall w, In w (width_set clauses) <->
            exists cl, In cl clauses /\ List.length cl = w.
Proof.
  unfold width_set.
  assert (H : forall post init,
             NoDup init ->
             NoDup (fold_left (fun s (cl : clause) =>
                       if existsb (Nat.eqb (List.length cl)) s then s
                       else s ++ [List.length cl]) post init) /\
             forall w, In w (fold_left (fun s (cl : clause) =>
                          if existsb (Nat.eqb (List.length cl)) s then s
                          else s ++ [List.length cl]) post init) <->
                       In w init \/ exists cl, In cl post /\ List.length cl = w).
  { induction post as [|cl post IH]; intros init Hnd; simpl.
    - split; [exact Hnd|]. intros w. split; [auto|].
      intros [H|[cl [[] _]]]. exact H.
    - destruct (existsb (Nat.eqb (List.length cl)) init) eqn:E.
      + destruct (IH init Hnd) as [H1 H2]. split; [exact H1|].
        intros w. rewrite H2. split.
        * intros [H|[c [Hc E']]]; [auto|right; exists c; auto].
        * intros [H|[c [[<-|Hc] E']]]; [auto| |right; exists c; auto].
          left. apply existsb_exists in E as [y [Hy Ey]].
          apply Nat.eqb_eq in Ey. subst. exact Hy.
      + assert (Hnot : ~ In (List.length cl) init).
        { intros H. assert (existsb (Nat.eqb (List.length cl)) init = true);
            [|congruence].
          apply existsb_exists. eexists. split; [exact H|apply Nat.eqb_refl]. }
        destruct (IH (init ++ [List.length cl])) as [H1 H2].
        * apply NoDup_app; [exact Hnd|repeat constructor; intros []|].
          intros w Hw [<-|[]]. contradiction.
        * split; [exact H1|]. intros w. rewrite H2, in_app_iff. simpl. split.
          -- intros [[H|[<-|[]]]|[c [Hc E']]]; [auto| |right; exists c; auto].
             right. exists cl. auto.
          -- intros [H|[c [[<-|Hc] E']]]; [auto|auto|right; exists c; auto]. }
  destruct (H clauses [] (NoDup_nil _)) as [H1 H2]. split; [exact H1|].
  intros w. rewrite H2. simpl. tauto.
Qed.

Lemma find_snoc {A : Type} (p : A -> bool) (xs : list A) (x : A) :
  find p (xs ++ [x])
  = match find p xs with
    | Some y => Some y
    | None => if p x then Some x else None
    end.
Proof.
  induction xs as [|y xs IH]; simpl; [reflexivity|].
  destruct (p y); [reflexivity|exact IH].
Qed.

Lemma find_exists {A : Type} (p : A -> bool) (xs : list A) (x : A) :
  In x xs -> p x = true -> exists y, find p xs = Some y.
Proof.
  induction xs as [|z xs IH]; intros Hin Hp; [destruct Hin|]. simpl.
  destruct (p z) eqn:E; [eauto|].
  destruct Hin as [->|Hin]; [congruence|auto].
Qed.

(** After the loop, [printed] holds, for each of the chosen widths, the
    text of the first clause of that width. *)
Lemma printed_clauses_spec (names : list (Z * string)) (widths : list nat)
    (clauses : list clause) :
  NoDup (map fst (printed_clauses names widths clauses)) /\
  forall w, dict_get Nat.eqb (printed_clauses names widths clauses) w
            = if existsb (Nat.eqb w) widths
              then option_map (clause_string names) (first_of_width w clauses)
              else None.
Proof.
  unfold printed_clauses, first_of_width.
  set (step := fun (printed : list (nat * string)) (cl : clause) =>
         if existsb (Nat.eqb (List.length cl)) widths
            && negb (dict_mem Nat.eqb printed (List.length cl))
         then dict_set Nat.eqb printed (List.length cl) (clause_string names cl)
         else printed).
  assert (H : forall post pre printed,
             NoDup (map fst printed) ->
             (forall w, dict_get Nat.eqb printed w
                        = if existsb (Nat.eqb w) widths
                          then option_map (clause_string names)
                                 (find (fun cl => Nat.eqb (List.length cl) w) pre)
                          else None) ->
             NoDup (map fst (fold_left step post printed)) /\
             forall w, dict_get Nat.eqb (fold_left step post printed) w
                       = if existsb (Nat.eqb w) widths
                         then option_map (clause_string names)
                                (find (fun cl => Nat.eqb (List.length cl) w)
                                      (pre ++ post))
                         else None).
  { induction post as [|cl post IH]; intros pre printed Hnd Hget.
    - simpl. rewrite app_nil_r. auto.
    - simpl. replace (pre ++ cl :: post) with ((pre ++ [cl]) ++ post)
        by (rewrite <- app_assoc; reflexivity).
      apply IH.
      + unfold step. destruct (_ && _); [|exact Hnd].
        apply (dict_set_keys_NoDup Nat.eqb Nat.eqb_eq). exact Hnd.
      + intros w. rewrite find_snoc.
        assert (Hstep : dict_get Nat.eqb (step printed cl) w
                        = if Nat.eqb w (List.length cl)
                          then match dict_get Nat.eqb printed w with
                               | Some s => Some s
                               | None =>
                                   if existsb (Nat.eqb w) widths
                                   then Some (clause_string names cl) else None
                               end
                          else dict_get Nat.eqb printed w).
        { unfold step, dict_mem. destruct (Nat.eqb w (List.length cl)) eqn:E.
          - apply Nat.eqb_eq in E. subst w.
            destruct (existsb (Nat.eqb (List.length cl)) widths); simpl.
            + destruct (dict_get Nat.eqb printed (List.length cl)) eqn:G; simpl.
              * exact G.
              * apply (dict_get_set_same Nat.eqb Nat.eqb_eq).
            + destruct (dict_get Nat.eqb printed (List.length cl)); reflexivity.
          - apply Nat.eqb_neq in E.
            destruct (_ && _); [|reflexivity].
            apply (dict_get_set_other Nat.eqb Nat.eqb_eq). exact E. }
        rewrite Hstep, Hget. rewrite (Nat.eqb_sym (List.length cl) w).
        destruct (Nat.eqb w (List.length cl));
          destruct (existsb (Nat.eqb w) widths);
          try reflexivity;
          match goal with
          | |- context [find ?f pre] => destruct (find f pre); reflexivity
          end. }
  apply (H clauses [] []); [constructor|].
  intros w. simpl. destruct (existsb (Nat.eqb w) widths); reflexivity.
Qed.

Lemma comprehension_ok {A B : Type} (g : A -> result B) (f : A -> B) (xs : list A) :
  (forall x, In x xs -> g x = Ok (f x)) -> comprehension g xs = Ok (map f xs).
Proof.
  induction xs as [|x xs IH]; intros H; simpl; [reflexivity|].
  rewrite (H x) by (left; reflexivity). simpl.
  rewrite IH by (intros y Hy; apply H; right; exact Hy). reflexivity.
Qed.

(** X18. [print_formula_portion] never raises.  Its formula line joins the
    texts of at most three clauses: for each of the three smallest distinct
    clause lengths, in ascending order, the first clause of that length. *)
Theorem formula_excerpt (clauses : list clause) (names : list (Z * string)) :
  let widths := sorted_nat (width_set clauses) in
  StronglySorted le widths /\ NoDup widths /\
  (forall w, In w widths <-> exists cl, In cl clauses /\ List.length cl = w) /\
  (forall w, In w (firstn 3 widths) ->
     exists cl, first_of_width w clauses = Some cl /\
                In cl clauses /\ List.length cl = w) /\
  print_formula_portion clauses names
  = Ok (output_lines
          (map (fun w => clause_text names (first_of_width w clauses))
               (firstn 3 widths))).
Proof.
  intros widths.
  destruct (width_set_spec clauses) as [Hnd Hin].
  assert (Hperm : Permutation widths (width_set clauses)) by apply sorted_nat_perm.
  assert (Hsorted : StronglySorted le widths) by apply sorted_nat_sorted.
  assert (Hnd' : NoDup widths).
  { eapply Permutation_NoDup; [symmetry; exact Hperm|exact Hnd]. }
  assert (Hin' : forall w, In w widths <->
                           exists cl, In cl clauses /\ List.length cl = w).
  { intros w. rewrite <- Hin. split; apply Permutation_in;
      [exact Hperm|symmetry; exact Hperm]. }
  assert (Hfirst : forall w, In w (firstn 3 widths) ->
            exists cl, first_of_width w clauses = Some cl /\
                       In cl clauses /\ List.length cl = w).
  { intros w Hw. apply firstn_In, Hin' in Hw. destruct Hw as [cl [Hcl Hlen]].
    destruct (find_exists (fun c => Nat.eqb (List.length c) w) clauses cl Hcl)
      as [y Hy]; [apply Nat.eqb_eq; exact Hlen|].
    exists y. split; [exact Hy|]. apply find_some in Hy as [H1 H2].
    split; [exact H1|apply Nat.eqb_eq; exact H2]. }
  split; [exact Hsorted|]. split; [exact Hnd'|]. split; [exact Hin'|].
  split; [exact Hfirst|].
  unfold print_formula_portion. fold widths.
  set (smallest := firstn 3 widths) in *.
  destruct (printed_clauses_spec names smallest clauses) as [Hkeys Hget].
  set (printed := printed_clauses names smallest clauses) in *.
  assert (Hmem : forall w, In w smallest <-> existsb (Nat.eqb w) smallest = true).
  { intros w. rewrite existsb_exists. split.
    - intros H. exists w. split; [exact H|apply Nat.eqb_refl].
    - intros [y [Hy E]]. apply Nat.eqb_eq in E. subst. exact Hy. }
  assert (Hkey_iff : forall w, In w (map fst printed) <-> In w smallest).
  { intros w. split.
    - intros Hk. destruct (existsb (Nat.eqb w) smallest) eqn:E; [apply Hmem; exact E|].
      exfalso. pose proof (Hget w) as G. rewrite E in G.
      apply (dict_get_None Nat.eqb Nat.eqb_eq) in G. contradiction.
    - intros Hw. destruct (Hfirst w Hw) as [cl [Hcl _]].
      pose proof (Hget w) as G. rewrite (proj1 (Hmem w) Hw), Hcl in G. simpl in G.
      apply (dict_get_In Nat.eqb Nat.eqb_eq) in G.
      apply in_map_iff. exists (w, clause_string names cl). auto. }
  assert (Hsort : sorted_nat (map fst printed) = smallest).
  { apply nat_sorted_unique.
    - apply sorted_nat_sorted.
    - apply firstn_sorted. exact Hsorted.
    - rewrite sorted_nat_perm. apply NoDup_Permutation.
      + exact Hkeys.
      + apply firstn_NoDup'. exact Hnd'.
      + exact Hkey_iff. }
  rewrite Hsort.
  rewrite (comprehension_ok (printed_at printed)
             (fun w => clause_text names (first_of_width w clauses))).
  - reflexivity.
  - intros w Hw. unfold printed_at. rewrite Hget, (proj1 (Hmem w) Hw).
    destruct (Hfirst w Hw) as [cl [Hcl _]]. rewrite Hcl. reflexivity.
Qed.

(** The text of a clause shows names, and names repeat: on the seven pieces
    the clause over the variables 1 and 2 reads as one name twice. *)
Example clause_string_same_names :
  clause_string (var_names soma_tables) [-1; -2]
  = "(\neg P_{1111} \vee \neg P_{1111})"%string.
Proof. reflexivity. Qed.

(** Without clauses only the closing ellipsis is printed on the formula
    line. *)
Example excerpt_of_nothing (names : list (Z * string)) :
  print_formula_portion [] names = Ok (output_lines []).
Proof. reflexivity. Qed.

(** ** Model counting *)

Lemma all_models_In (n : nat) (m : list Z) :
  In m (all_models n) <-> complete_model n m.
Proof.
  unfold complete_model. revert m. induction n as [|n IH]; intros m.
  - simpl. split.
    + intros [<-|[]]. reflexivity.
    + intros H. left. destruct m; [reflexivity|discriminate].
  - cbn [all_models]. rewrite in_flat_map, seq_S, map_app. simpl map at 3.
    split.
    + intros [m' [Hm' [<-|[<-|[]]]]]; apply IH in Hm'; rewrite map_app, Hm';
        simpl; f_equal; f_equal; lia.
    + intros H.
      induction m as [|x rest IHrest] using rev_ind.
      * apply (f_equal (@List.length Z)) in H. rewrite length_app in H.
        simpl in H. lia.
      * clear IHrest. rewrite map_app in H. simpl in H.
        apply app_inj_tail in H as [H1 H2].
        exists rest. split; [apply IH; exact H1|].
        simpl. destruct (Z.abs_spec x) as [[_ E]|[_ E]]; rewrite E in H2.
        -- left. f_equal. f_equal. lia.
        -- right. left. f_equal. f_equal. lia.
Qed.

Lemma all_models_length (n : nat) : List.length (all_models n) = (2 ^ n)%nat.
Proof.
  induction n as [|n IH]; [reflexivity|].
  cbn [all_models]. rewrite flat_map_length_sum.
  rewrite (map_ext _ (fun _ => 2%nat)) by reflexivity.
  assert (H : forall (xs : list (list Z)),
             list_sum (map (fun _ => 2%nat) xs) = (2 * List.length xs)%nat).
  { induction xs as [|x xs IHx]; simpl; [reflexivity|]. rewrite IHx. lia. }
  rewrite H, IH. simpl. lia.
Qed.

Lemma model_satisfies_blocking (m m' : list Z) :
  model_satisfies m (blocking_clause m') = false <->
  forall lit, In lit m' -> ~ In (- lit) m.
Proof.
  unfold model_satisfies, blocking_clause. split.
  - intros H lit Hlit Hin.
    assert (E : existsb (fun l => existsb (Z.eqb l) m) (map Z.opp m') = true);
      [|congruence].
    apply existsb_exists. exists (- lit). split; [apply in_map; exact Hlit|].
    apply existsb_exists. exists (- lit). split; [exact Hin|apply Z.eqb_refl].
  - intros H. apply not_true_is_false. intros E.
    apply existsb_exists in E as [l [Hl E]].
    apply in_map_iff in Hl as [lit [<- Hlit]].
    apply existsb_exists in E as [y [Hy Ey]]. apply Z.eqb_eq in Ey. subst y.
    exact (H lit Hlit Hy).
Qed.

Lemma same_signs (m m' : list Z) :
  map Z.abs m = map Z.abs m' ->
  (forall lit, In lit m' -> ~ In (- lit) m) -> m = m'.
Proof.
  revert m'. induction m as [|x m IH]; intros [|x' m'] Habs Hno;
    try discriminate; [reflexivity|].
  simpl in Habs. injection Habs as Hx Hrest.
  assert (x = x').
  { destruct (Z.eq_dec x x') as [E|N]; [exact E|]. exfalso.
    apply (Hno x'); [left; reflexivity|]. left. lia. }
  subst x'. f_equal. apply IH; [exact Hrest|].
  intros lit Hlit Hin. apply (Hno lit); [right; exact Hlit|right; exact Hin].
Qed.

Lemma complete_model_consistent (n : nat) (m : list Z) (lit : Z) :
  complete_model n m -> In lit m -> ~ In (- lit) m.
Proof.
  unfold complete_model. intros Hc Hlit Hopp.
  assert (Hnd : NoDup (map Z.abs m)) by (rewrite Hc; apply values_NoDup).
  assert (Hpos : 1 <= Z.abs lit).
  { assert (H : In (Z.abs lit) (map Z.abs m)) by (apply in_map; exact Hlit).
    rewrite Hc in H. apply values_In in H. lia. }
  assert (Hneq : lit <> - lit) by lia.
  apply Hneq. clear Hpos Hc.
  induction m as [|x m IH]; [destruct Hlit|].
  simpl in Hnd. inversion Hnd as [|? ? Hx Hnd']; subst.
  destruct Hlit as [->|Hlit], Hopp as [E|Hopp].
  - exact E.
  - exfalso. apply Hx. replace (Z.abs lit) with (Z.abs (- lit)) by lia.
    apply in_map. exact Hopp.
  - subst x. exfalso. apply Hx. replace (Z.abs (- lit)) with (Z.abs lit) by lia.
    apply in_map. exact Hlit.
  - apply IH; assumption.
Qed.

(** A complete model falsifies the blocking clause of another exactly when
    the two are the same. *)
Lemma blocked_iff_same (n : nat) (m m' : list Z) :
  complete_model n m -> complete_model n m' ->
  (model_satisfies m (blocking_clause m') = false <-> m = m').
Proof.
  intros Hm Hm'. rewrite model_satisfies_blocking. split.
  - apply same_signs. unfold complete_model in *. congruence.
  - intros -> lit Hlit. apply (complete_model_consistent n); assumption.
Qed.

Section EnumerationFacts.
Variable solve : list clause -> option (list Z).
Variable n : nat.
Variable clauses : list clause.

(** What is assumed of the solver: a model it returns is complete and
    satisfies every clause it was given, and it fails only when no complete
    model does. *)
Hypothesis solve_sound :
  forall cls m, solve cls = Some m ->
    complete_model n m /\ forallb (model_satisfies m) cls = true.
Hypothesis solve_complete :
  forall cls, solve cls = None ->
    forall m, complete_model n m -> forallb (model_satisfies m) cls = false.

Lemma count_loop_spec (fuel : nat) (models : list (list Z)) (out : list string) :
  NoDup models ->
  (forall m, In m models ->
     complete_model n m /\ forallb (model_satisfies m) clauses = true) ->
  (2 ^ n < fuel + List.length models)%nat ->
  exists models' out',
    count_loop solve fuel (clauses ++ map blocking_clause models)
               (Z.of_nat (List.length models)) models out
    = Some (Z.of_nat (List.length models'), models', out') /\
    NoDup models' /\
    (forall m, In m models' ->
       complete_model n m /\ forallb (model_satisfies m) clauses = true) /\
    solve (clauses ++ map blocking_clause models') = None /\
    out' = out
           ++ map (fun k => progress_line (Z.of_nat k))
                  (seq (S (List.length models))
                       (List.length models' - List.length models))
           ++ [newline] /\
    (List.length models <= List.length models')%nat.
Proof.
  revert models out. induction fuel as [|fuel IH]; intros models out Hnd Hall Hfuel.
  - exfalso.
    assert (Hle : (List.length models <= List.length (all_models n))%nat).
    { apply NoDup_incl_length; [exact Hnd|].
      intros m Hm. apply all_models_In. apply (Hall m Hm). }
    rewrite all_models_length in Hle. lia.
  - cbn [count_loop].
    destruct (solve (clauses ++ map blocking_clause models)) as [m|] eqn:E.
    + destruct (solve_sound _ _ E) as [Hm Hsat].
      rewrite forallb_app in Hsat. apply andb_true_iff in Hsat as [Hsat Hblock].
      assert (Hnew : ~ In m models).
      { intros Hin. rewrite forallb_forall in Hblock.
        specialize (Hblock (blocking_clause m) (in_map _ _ _ Hin)).
        rewrite (proj2 (blocked_iff_same n m m Hm Hm) eq_refl) in Hblock.
        discriminate. }
      destruct (IH (models ++ [m])
                   (out ++ [progress_line (Z.of_nat (List.length models) + 1)]))
        as [models' [out' [Hrun [Hnd' [Hall' [Hend [Hout Hlen]]]]]]].
      * apply NoDup_app; [exact Hnd|repeat constructor; intros []|].
        intros x Hx [<-|[]]. contradiction.
      * intros x Hx. apply in_app_or in Hx as [Hx|[<-|[]]]; [auto|].
        split; assumption.
      * rewrite length_app. simpl. lia.
      * exists models', out'.
        rewrite map_app, app_assoc in Hrun. cbn [map] in Hrun.
        rewrite length_app in Hrun. rewrite !length_app in Hout.
        rewrite length_app in Hlen. cbn [List.length] in Hrun, Hout, Hlen.
        replace (Z.of_nat (List.length models + 1))
          with (Z.of_nat (List.length models) + 1) in Hrun by lia.
        split; [exact Hrun|]. split; [exact Hnd'|]. split; [exact Hall'|].
        split; [exact Hend|]. split; [|lia].
        rewrite Hout.
        replace (List.length models' - List.length models)%nat
          with (S (List.length models' - (List.length models + 1))) by lia.
        cbn [seq map]. rewrite <- app_assoc. cbn [app].
        replace (Z.of_nat (S (List.length models)))
          with (Z.of_nat (List.length models) + 1) by lia.
        replace (S (List.length models + 1))
          with (S (S (List.length models))) by lia.
        reflexivity.
    + exists models, (out ++ [newline]).
      split; [reflexivity|]. split; [exact Hnd|]. split; [exact Hall|].
      split; [exact E|]. rewrite Nat.sub_diag. split; [reflexivity|lia].
Qed.

(** X19. With a solver that returns complete models of the clauses it
    holds, and fails only when there is none, [count_solutions] ends within
    [2^n + 1] passes of its loop.  It returns each complete model of the
    clauses exactly once, with their number as [solution_count].  What it
    writes is, in order, the progress line with the running count 1, 2, ...
    once for each model, and then one newline. *)
Theorem count_solutions_enumerates (num_vars : Z) :
  exists models,
    count_solutions solve (2 ^ n + 1) clauses num_vars
    = Some (Z.of_nat (List.length models), models,
            map (fun k => progress_line (Z.of_nat k))
                (seq 1 (List.length models))
            ++ [newline]) /\
    NoDup models /\
    (forall m, In m models <->
       complete_model n m /\ forallb (model_satisfies m) clauses = true).
Proof.
  destruct (count_loop_spec (2 ^ n + 1) [] [])
    as [models [out [Hrun [Hnd [Hall [Hend [Hout _]]]]]]].
  - constructor.
  - intros m [].
  - simpl. lia.
  - exists models. cbn [map List.length app] in Hrun, Hout.
    rewrite app_nil_r in Hrun. rewrite Nat.sub_0_r in Hout. subst out.
    split; [exact Hrun|]. split; [exact Hnd|].
    intros m. split; [apply Hall|].
    intros [Hm Hsat].
    pose proof (solve_complete _ Hend m Hm) as Hfalse.
    rewrite forallb_app, Hsat in Hfalse. simpl in Hfalse.
    assert (Hex : exists m', In m' models /\
                             model_satisfies m (blocking_clause m') = false).
    { clear -Hfalse. induction models as [|m' rest IH]; [discriminate|].
      simpl in Hfalse. apply andb_false_iff in Hfalse as [H|H].
      - exists m'. split; [left; reflexivity|exact H].
      - destruct (IH H) as [x [Hx Hb]]. exists x. split; [right; exact Hx|exact Hb]. }
    destruct Hex as [m' [Hin Hb]].
    apply (blocked_iff_same n m m' Hm (proj1 (Hall m' Hin))) in Hb.
    subst. exact Hin.
Qed.
End EnumerationFacts.

Lemma brute_force_sound (n : nat) (cls : list clause) (m : list Z) :
  brute_force n cls = Some m ->
  complete_model n m /\ forallb (model_satisfies m) cls = true.
Proof.
  unfold brute_force. intros H. apply find_some in H as [H1 H2].
  split; [apply all_models_In; exact H1|exact H2].
Qed.

Lemma brute_force_complete (n : nat) (cls : list clause) :
  brute_force n cls = None ->
  forall m, complete_model n m -> forallb (model_satisfies m) cls = false.
Proof.
  unfold brute_force. intros H m Hm.
  apply (find_none _ _ H m). apply all_models_In. exact Hm.
Qed.

Lemma count_solutions_enumerates_witness :
  exists models,
    count_solutions (brute_force 2) (2 ^ 2 + 1) [[1; 2]] 2
    = Some (Z.of_nat (List.length models), models,
            map (fun k => progress_line (Z.of_nat k))
                (seq 1 (List.length models))
            ++ [newline]) /\
    NoDup models /\
    (forall m, In m models <->
       complete_model 2 m /\ forallb (model_satisfies m) [[1; 2]] = true).
Proof.
  apply (count_solutions_enumerates (brute_force 2) 2 [[1; 2]]
           (brute_force_sound 2) (brute_force_complete 2) 2).
Defined.

Example count_solutions_small :
  count_solutions (brute_force 2) 5 [[1; 2]] 2
  = Some (3, [[1; 2]; [1; -2]; [-1; 2]],
          [(carriage_return ++ "Solutions found so far: 1")%string;
           (carriage_return ++ "Solutions found so far: 2")%string;
           (carriage_return ++ "Solutions found so far: 3")%string;
           newline]).
Proof. reflexivity. Qed.
